(** * Backup and restore engine of the ATM shop directory (server/backup.ts)

    A shallow embedding of [BackupService] and of the pieces of the Node
    runtime it relies on: a file system (a flat map from path segments to
    nodes), the HTTP fetches, the object storage upload capability and the
    record store, threaded through a small state and error monad. *)

From stdpp Require Import base gmap strings list fin_maps.
From Stdlib Require Import Ascii.
From Stdlib Require Sorting.Mergesort Sorting.Sorted Structures.Orders.

Open Scope string_scope.

(* ------------------------------------------------------------------ *)
(** ** Strings as the JavaScript code uses them *)

Module JS.

(** [s.startsWith(p)] *)
Definition startsWith (s p : string) : bool := String.prefix p s.

(** [s.includes(sub)] *)
Fixpoint includes (s sub : string) : bool :=
  String.prefix sub s ||
  match s with
  | EmptyString => false
  | String _ r => includes r sub
  end.

(** [s.split('/')]: JavaScript keeps empty segments. *)
Fixpoint split_slash (s : string) : list string :=
  match s with
  | EmptyString => [EmptyString]
  | String c r =>
      let l := split_slash r in
      if Ascii.eqb c "/"%char then EmptyString :: l
      else match l with
           | h :: t => String c h :: t
           | [] => [String c EmptyString]
           end
  end.

(** [parts.join('/')] *)
Fixpoint join_slash (l : list string) : string :=
  match l with
  | [] => EmptyString
  | [x] => x
  | x :: r => x ++ "/" ++ join_slash r
  end.

(** [/\/$/.test(s)] *)
Fixpoint endsWithSlash (s : string) : bool :=
  match s with
  | EmptyString => false
  | String c EmptyString => Ascii.eqb c "/"%char
  | String _ r => endsWithSlash r
  end.

(** [s.substring(1)] *)
Definition substring1 (s : string) : string :=
  match s with
  | EmptyString => EmptyString
  | String _ r => r
  end.

(** [s.toLowerCase()] on ASCII. *)
Definition lower_ascii (c : ascii) : ascii :=
  let n := nat_of_ascii c in
  if (65 <=? n)%nat && (n <=? 90)%nat then ascii_of_nat (n + 32)%nat else c.

Fixpoint toLowerCase (s : string) : string :=
  match s with
  | EmptyString => EmptyString
  | String c r => String (lower_ascii c) (toLowerCase r)
  end.

(** [s.replace(/[:.]/g, '-')] *)
Fixpoint replace_colon_dot (s : string) : string :=
  match s with
  | EmptyString => EmptyString
  | String c r =>
      String (if Ascii.eqb c ":"%char || Ascii.eqb c "."%char then "-"%char else c)
             (replace_colon_dot r)
  end.

(** Decimal rendering of a number, as in a template literal [`${n}`]. *)
Fixpoint digits_aux (fuel n : nat) (acc : string) : string :=
  match fuel with
  | O => acc
  | S f =>
      let d := String (ascii_of_nat (48 + n mod 10)%nat) EmptyString in
      if (n <? 10)%nat then d ++ acc else digits_aux f (n / 10)%nat (d ++ acc)
  end.

Definition show_nat (n : nat) : string := digits_aux (S n) n EmptyString.

(** JavaScript truthiness of a nullable string field. *)
Definition truthy (o : option string) : bool :=
  match o with
  | Some s => negb (String.eqb s EmptyString)
  | None => false
  end.

End JS.

(* ------------------------------------------------------------------ *)
(** ** Paths ([path.join], [path.dirname], [path.extname]) *)

Module Path.

Abbreviation path := (list string).

(** Normalisation done by [path.join]: empty and ["."] segments vanish,
    [".."] drops the previous segment. Absolute paths only (from "/"). *)
Fixpoint normalize_rev (acc : list string) (l : list string) : list string :=
  match l with
  | [] => acc
  | x :: r =>
      if String.eqb x EmptyString || String.eqb x "." then normalize_rev acc r
      else if String.eqb x ".." then normalize_rev (tail acc) r
      else normalize_rev (x :: acc) r
  end.

Definition normalize (l : list string) : path := rev (normalize_rev [] l).

(** [path.join(base, s1, ..., sn)] for an absolute base. *)
Definition join (base : path) (parts : list string) : path :=
  normalize (base ++ concat (map JS.split_slash parts)).

(** [path.dirname(p)] *)
Definition dirname (p : path) : path := removelast p.

(** [path.extname(p)]: from the last dot of the last segment, unless the
    segment starts with that dot. *)
Fixpoint last_dot_aux (s : string) (i : nat) (best : option nat) : option nat :=
  match s with
  | EmptyString => best
  | String c r => last_dot_aux r (S i) (if Ascii.eqb c "."%char then Some i else best)
  end.

Definition extname (s : string) : string :=
  let base := List.last (JS.split_slash s) EmptyString in
  match last_dot_aux base 0 None with
  | Some (S i) => String.substring (S i) (String.length base - S i)%nat base
  | _ => EmptyString
  end.

End Path.

Import Path.

Example extname_jpg : extname "/valhalla-logo.JPG" = ".JPG".
Proof. reflexivity. Qed.
Example extname_none : extname "/dir.x/.hidden" = "".
Proof. reflexivity. Qed.
Example join_ex : join ["tmp"; "b"] ["images/logos"; "x_logo.jpg"] = ["tmp"; "b"; "images"; "logos"; "x_logo.jpg"].
Proof. reflexivity. Qed.
Example show_nat_ex : JS.show_nat 1024 = "1024".
Proof. reflexivity. Qed.

(* ------------------------------------------------------------------ *)
(** ** Data model (interfaces [BackupData], [RestoreResult], shops) *)

(** A shop row as returned by [storage.getShops()]; [logo] and
    [mapImageUrl] are nullable text columns, the other columns are opaque. *)
Record Shop := mkShop {
  id : string;
  name : string;
  logo : option string;
  mapImageUrl : option string;
  other_fields : list (string * string)
}.

(** [const { id, ...shopData } = shop]: the row without its identity. *)
Record ShopData := mkShopData {
  sd_name : string;
  sd_logo : option string;
  sd_mapImageUrl : option string;
  sd_other_fields : list (string * string)
}.

Definition strip_id (s : Shop) : ShopData :=
  mkShopData (name s) (logo s) (mapImageUrl s) (other_fields s).

Inductive BackupType := Full | DataOnly.

Record BackupMetadata := mkMetadata {
  timestamp : string;
  version : string;
  totalShops : nat;
  backupType : BackupType
}.

Record BackupImages := mkImages {
  logos : gmap string string;
  maps : gmap string string
}.

Record BackupData := mkBackupData {
  metadata : BackupMetadata;
  shops : list Shop;
  images : BackupImages
}.

Record RestoreStats := mkStats {
  shopsRestored : nat;
  logosRestored : nat;
  mapsRestored : nat;
  errors : list string
}.

Record RestoreResult := mkRestoreResult {
  success : bool;
  message : string;
  stats : RestoreStats
}.

(* ------------------------------------------------------------------ *)
(** ** The runtime: file system, HTTP, object storage, record store *)

(** File contents. [CJson d] is a file holding [JSON.stringify(d)];
    [CBlob b] is any other byte content, which is not valid JSON;
    [CText t] is a text file (the README). *)
Inductive Content :=
| CBlob (b : string)
| CText (t : string)
| CJson (d : BackupData).

Inductive FNode := FDir | FFile (c : Content).

(** An HTTP response as seen through [fetch]. *)
Inductive HttpResp :=
| NetError (msg : string)
| Resp (ok : bool) (statusText : string) (contentType : option string) (body : string).

(** Observable effects, in order. *)
Inductive Event :=
| EvGet (url : string)
| EvPut (url : string) (contentTypeHeader : string) (body : Content)
| EvInsert (d : ShopData).

Record World := mkWorld {
  fs : gmap path FNode;
  trace : list Event;
  upload_calls : nat
}.

(** Results of an async step: a value or a thrown [Error] with its message. *)
Inductive Res (A : Type) := Ok (a : A) | Err (msg : string).
Arguments Ok {A} a.
Arguments Err {A} msg.

(** The outside world the service talks to. [upload_url n] is the result
    of the [n]-th call of the object-storage upload-URL method (an error
    when it throws); [http_get] and [http_put] answer fetches by URL;
    [insert_ok] says whether [storage.createShop] succeeds on a row.
    [now_iso] and [now_iso_later] are [new Date().toISOString()] at the
    first and at the second [new Date()] of a backup request (awaited steps
    lie between them, so they may differ); [now_ms] is [Date.now()].
    [bg_after_finally] is the event loop's choice for the entries an
    extraction still reads after it has rejected (see [restoreFromZip]):
    they are written after the [finally] block of the restore, or before. *)
Record Env := mkEnv {
  db_shops : option (list Shop);
  http_get : string -> HttpResp;
  http_put : string -> HttpResp;
  upload_url : nat -> Res string;
  insert_ok : ShopData -> bool;
  cwd : path;
  now_iso : string;
  now_ms : nat;
  now_iso_later : string;
  bg_after_finally : bool
}.

Definition M (A : Type) := World -> Res A * World.

Definition ret {A} (a : A) : M A := fun w => (Ok a, w).
Definition throw {A} (msg : string) : M A := fun w => (Err msg, w).
Definition bind {A B} (c : M A) (k : A -> M B) : M B :=
  fun w => match c w with
           | (Ok a, w') => k a w'
           | (Err e, w') => (Err e, w')
           end.
(** [try { c } catch (error) { h(error.message) }] *)
Definition catch {A} (c : M A) (h : string -> M A) : M A :=
  fun w => match c w with
           | (Ok a, w') => (Ok a, w')
           | (Err e, w') => h e w'
           end.

Notation "'let!' x ':=' c 'in' k" := (bind c (fun x => k))
  (at level 200, x name, c at level 100, k at level 200).
Notation "c ';;!' k" := (bind c (fun _ => k)) (at level 100, right associativity).

Definition emit (e : Event) : M unit :=
  fun w => (Ok tt, mkWorld (fs w) (trace w ++ [e])%list (upload_calls w)).

Definition set_fs (f : gmap path FNode) : M unit :=
  fun w => (Ok tt, mkWorld f (trace w) (upload_calls w)).

Definition get_fs : M (gmap path FNode) := fun w => (Ok (fs w), w).

(** *** File-system primitives (promisified [fs]) *)
Module FS.

Definition is_dir (f : gmap path FNode) (p : path) : bool :=
  match p with
  | [] => true
  | _ => match f !! p with Some FDir => true | _ => false end
  end.

Fixpoint strip_prefix (pre k : path) : option path :=
  match pre, k with
  | [], _ => Some k
  | x :: pre', y :: k' => if String.eqb x y then strip_prefix pre' k' else None
  | _ :: _, [] => None
  end.

(** Names of the direct children of [p]. *)
Definition children (f : gmap path FNode) (p : path) : list string :=
  omap (fun kv : path * FNode =>
          match strip_prefix p kv.1 with Some [n] => Some n | _ => None end)
       (map_to_list f).

(** [mkdir(p, { recursive: true })] *)
Fixpoint mkdir_aux (pre rest : path) (f : gmap path FNode) : Res (gmap path FNode) :=
  match rest with
  | [] => Ok f
  | x :: r =>
      let q := (pre ++ [x])%list in
      match f !! q with
      | Some (FFile _) => Err "EEXIST: file already exists, mkdir"
      | Some FDir => mkdir_aux q r f
      | None => mkdir_aux q r (<[q := FDir]> f)
      end
  end.

Definition mkdir_p (p : path) : M unit :=
  fun w => match mkdir_aux [] p (fs w) with
           | Ok f => (Ok tt, mkWorld f (trace w) (upload_calls w))
           | Err e => (Err e, w)
           end.

(** [writeFile(p, data)] and [fs.createWriteStream(p)]. *)
Definition writeFile (p : path) (c : Content) : M unit :=
  fun w => match fs w !! p with
           | Some FDir => (Err "EISDIR: illegal operation on a directory, open", w)
           | _ =>
               if is_dir (fs w) (dirname p) && bool_decide (p <> [])
               then (Ok tt, mkWorld (<[p := FFile c]> (fs w)) (trace w) (upload_calls w))
               else (Err "ENOENT: no such file or directory, open", w)
           end.

(** [readFile(p)] *)
Definition readFile (p : path) : M Content :=
  fun w => match fs w !! p with
           | Some (FFile c) => (Ok c, w)
           | Some FDir => (Err "EISDIR: illegal operation on a directory, read", w)
           | None => (Err "ENOENT: no such file or directory, open", w)
           end.

(** [readdir(p)] *)
Definition readdir (p : path) : M (list string) :=
  fun w => if is_dir (fs w) p then (Ok (children (fs w) p), w)
           else (Err "ENOTDIR: not a directory, scandir", w).

(** [stat(p)] followed by [isDirectory()]; a missing path throws. *)
Definition stat_isDirectory (p : path) : M bool :=
  fun w => match p, fs w !! p with
           | [], _ => (Ok true, w)
           | _, Some FDir => (Ok true, w)
           | _, Some (FFile _) => (Ok false, w)
           | _, None => (Err "ENOENT: no such file or directory, stat", w)
           end.

(** [unlink(p)] *)
Definition unlink (p : path) : M unit :=
  fun w => match fs w !! p with
           | Some (FFile _) => (Ok tt, mkWorld (delete p (fs w)) (trace w) (upload_calls w))
           | Some FDir => (Err "EISDIR: illegal operation on a directory, unlink", w)
           | None => (Err "ENOENT: no such file or directory, unlink", w)
           end.

(** [rmdir(p)]: only an empty directory. *)
Definition rmdir (p : path) : M unit :=
  fun w => match fs w !! p with
           | Some FDir =>
               match children (fs w) p with
               | [] => (Ok tt, mkWorld (delete p (fs w)) (trace w) (upload_calls w))
               | _ => (Err "ENOTEMPTY: directory not empty, rmdir", w)
               end
           | _ => (Err "ENOENT: no such file or directory, rmdir", w)
           end.

End FS.

(* ------------------------------------------------------------------ *)
(** ** Archives and HTTP responses *)

(** What reading one ZIP entry yields: its bytes, an error from
    [openReadStream], or no stream at all. *)
Inductive EntryData :=
| EData (c : Content)
| EOpenError (msg : string)
| ENoStream.

Record ZipEntry := mkEntry {
  fileName : string;
  entry_data : EntryData
}.

Inductive Response :=
| ZipResponse (filename : string) (entries : list ZipEntry)
| JsonResponse (filename : string) (body : BackupData)
| ErrorResponse (status : nat) (message : string) (error : string).

Record BackupStats := mkBackupStats {
  stats_totalShops : nat;
  imagesWithLogos : nat;
  imagesWithMaps : nat;
  estimatedSize : string
}.

(** [archiver('zip').directory(sourceDir, false)]: one entry per file and
    directory below [sourceDir], named relative to it (directories with a
    trailing slash). *)
Definition archive_entries (f : gmap path FNode) (dir : path) : list ZipEntry :=
  omap (fun kv : path * FNode =>
          match FS.strip_prefix dir kv.1 with
          | Some [] | None => None
          | Some r =>
              match kv.2 with
              | FDir => Some (mkEntry (JS.join_slash r ++ "/") (EData (CBlob "")))
              | FFile c => Some (mkEntry (JS.join_slash r) (EData c))
              end
          end)
       (map_to_list f).

(** Sentinel icon value that [createFullBackup] and [getBackupStats] skip. *)
Definition FA_STORE : string := "fa-store".

Section Service.

Variable E : Env.

(** [storage.getShops()] *)
Definition getShops : M (list Shop) :=
  match db_shops E with
  | Some l => ret l
  | None => throw "database error"
  end.

(** [await fetch(url)] for a GET. *)
Definition fetch_get (url : string) : M HttpResp :=
  emit (EvGet url) ;;!
  match http_get E url with
  | NetError m => throw m
  | r => ret r
  end.

(** Extension from the response content type, then from the URL. *)
Definition ext_from_response (contentType : option string) (imageUrl : string) : string :=
  let ct_has s := match contentType with Some c => JS.includes c s | None => false end in
  if ct_has "png" then ".png"
  else if ct_has "gif" then ".gif"
  else if ct_has "webp" then ".webp"
  else if JS.includes imageUrl ".png" then ".png"
  else if JS.includes imageUrl ".gif" then ".gif"
  else if JS.includes imageUrl ".webp" then ".webp"
  else ".jpg".

(** The tail of [downloadImage]: save the buffer, return the file name. *)
Definition save_image (destinationDir : path) (filename : string)
    (imageBuffer : Content) (fileExtension : string) : M (option string) :=
  let finalFilename := filename ++ fileExtension in
  let outputPath := join destinationDir [finalFilename] in
  FS.writeFile outputPath imageBuffer ;;!
  ret (Some finalFilename).

(** [BackupService.downloadImage] (lines 200-274). *)
Definition downloadImage (imageUrl : string) (destinationDir : path) (filename : string)
    : M (option string) :=
  catch
    (if JS.startsWith imageUrl "/objects/" then
       let! response := fetch_get ("http://localhost:5000" ++ imageUrl) in
       match response with
       | Resp true _ contentType body =>
           save_image destinationDir filename (CBlob body)
             (ext_from_response contentType imageUrl)
       | Resp false statusText _ _ =>
           throw ("Failed to fetch object storage image: " ++ statusText)
       | NetError m => throw m
       end
     else if JS.startsWith imageUrl "/" then
       let localFilePath := join (cwd E) ["client"; "public"; JS.substring1 imageUrl] in
       let! read := catch (let! b := FS.readFile localFilePath in ret (Some b))
                          (fun _ => ret None) in
       match read with
       | None => ret None
       | Some imageBuffer =>
           let originalExt := JS.toLowerCase (extname imageUrl) in
           save_image destinationDir filename imageBuffer
             (if String.eqb originalExt "" then ".jpg" else originalExt)
       end
     else if JS.startsWith imageUrl "http" then
       let! response := fetch_get imageUrl in
       match response with
       | Resp true _ contentType body =>
           save_image destinationDir filename (CBlob body)
             (ext_from_response contentType imageUrl)
       | Resp false statusText _ _ =>
           throw ("Failed to fetch external image: " ++ statusText)
       | NetError m => throw m
       end
     else ret None)
    (fun _ => ret None).

(** One iteration of the image loop of [createFullBackup] (lines 97-126).
    The handler keeps the index as it was: [downloadImage] never throws,
    so the handler is never reached with a half-updated index. *)
Definition backup_shop_images (backupDir : path) (imgs : BackupImages) (shop : Shop)
    : M BackupImages :=
  catch
    (let! imgs1 :=
       match logo shop with
       | Some l =>
           if JS.truthy (logo shop) && negb (String.eqb l FA_STORE) then
             let! logoFilename := downloadImage l (join backupDir ["images"; "logos"])
                                   (id shop ++ "_logo") in
             match logoFilename with
             | Some fn => ret (mkImages (<[id shop := "images/logos/" ++ fn]> (logos imgs)) (maps imgs))
             | None => ret imgs
             end
           else ret imgs
       | None => ret imgs
       end in
     match mapImageUrl shop with
     | Some m =>
         if JS.truthy (mapImageUrl shop) then
           let! mapFilename := downloadImage m (join backupDir ["images"; "maps"])
                                 (id shop ++ "_map") in
           match mapFilename with
           | Some fn => ret (mkImages (logos imgs1) (<[id shop := "images/maps/" ++ fn]> (maps imgs1)))
           | None => ret imgs1
           end
         else ret imgs1
     | None => ret imgs1
     end)
    (fun _ => ret imgs).

Fixpoint backup_images_loop (backupDir : path) (imgs : BackupImages) (l : list Shop)
    : M BackupImages :=
  match l with
  | [] => ret imgs
  | shop :: r =>
      let! imgs' := backup_shop_images backupDir imgs shop in
      backup_images_loop backupDir imgs' r
  end.

Definition backupType_str (t : BackupType) : string :=
  match t with Full => "full" | DataOnly => "data-only" end.

Definition readme (d : BackupData) : string :=
  "# ATM Tiendas Backup
Generated: " ++ timestamp (metadata d) ++ "
Total Shops: " ++ JS.show_nat (totalShops (metadata d)) ++ "
Backup Type: " ++ backupType_str (backupType (metadata d)) ++ "

## Structure:
- backup-data.json: Complete shop data with metadata
- images/logos/: Shop logo images
- images/maps/: Shop map images
- README.md: This file

## Restoration:
Use the backup-data.json file to restore shop information.
Images are organized by shop ID with appropriate file extensions.
".

Definition backup_dir : path := ["tmp"; "backup-" ++ JS.replace_colon_dot (now_iso E)].

(** [createZipResponse] *)
Definition createZipResponse (sourceDir : path) (filename : string) : M Response :=
  let! f := get_fs in
  ret (ZipResponse filename (archive_entries f sourceDir)).

(** [BackupService.createFullBackup] (lines 70-161). *)
Definition createFullBackup : M Response :=
  catch
    (let! shops := getShops in
     let ts := JS.replace_colon_dot (now_iso E) in
     let backupDir := backup_dir in
     FS.mkdir_p backupDir ;;!
     FS.mkdir_p (join backupDir ["images"]) ;;!
     FS.mkdir_p (join backupDir ["images"; "logos"]) ;;!
     FS.mkdir_p (join backupDir ["images"; "maps"]) ;;!
     let meta := mkMetadata (now_iso_later E) "1.0" (length shops) Full in
     let! imgs := backup_images_loop backupDir (mkImages ∅ ∅) shops in
     let backupData := mkBackupData meta shops imgs in
     FS.writeFile (join backupDir ["backup-data.json"]) (CJson backupData) ;;!
     FS.writeFile (join backupDir ["README.md"]) (CText (readme backupData)) ;;!
     createZipResponse backupDir ("atm-tiendas-backup-" ++ ts ++ ".zip"))
    (fun e => ret (ErrorResponse 500 "Backup creation failed" e)).

(** [BackupService.createDataBackup] (lines 166-195). *)
Definition createDataBackup : M Response :=
  catch
    (let! shops := getShops in
     let backupData := mkBackupData (mkMetadata (now_iso E) "1.0" (length shops) DataOnly)
                         shops (mkImages ∅ ∅) in
     let ts := JS.replace_colon_dot (now_iso_later E) in
     ret (JsonResponse ("atm-tiendas-data-" ++ ts ++ ".json") backupData))
    (fun e => ret (ErrorResponse 500 "Data backup creation failed" e)).

(** [Math.round(shops * 0.1 + logos * 0.2 + maps * 0.5)], computed in exact
    tenths of a megabyte: [Math.round(t / 10) = (t + 5) / 10]. *)
Definition estimate_mb (nshops nlogos nmaps : nat) : nat :=
  (nshops + 2 * nlogos + 5 * nmaps + 5) / 10.

(** [BackupService.getBackupStats] (lines 308-332). *)
Definition getBackupStats : M BackupStats :=
  let! shops := getShops in
  let imagesWithLogos :=
    length (List.filter (fun s => JS.truthy (logo s) &&
                                  negb (bool_decide (logo s = Some FA_STORE))) shops) in
  let imagesWithMaps := length (List.filter (fun s => JS.truthy (mapImageUrl s)) shops) in
  let estimatedSize := estimate_mb (length shops) imagesWithLogos imagesWithMaps in
  ret (mkBackupStats (length shops) imagesWithLogos imagesWithMaps
         (if (1 <? estimatedSize)%nat then JS.show_nat estimatedSize ++ "MB"
          else JS.show_nat (estimatedSize * 1024) ++ "KB")).

End Service.

(* ------------------------------------------------------------------ *)
(** ** Restore ([restoreFromZip] and its helpers) *)

(** [new URL(u).pathname]: the basic URL parser of the URL Standard
    without a base URL, as far as the pathname and the failure of the
    constructor go. *)
Module URL.

Definition code (c : ascii) : nat := Ascii.nat_of_ascii c.

Definition is_c0_or_space (c : ascii) : bool := (code c <=? 32)%nat.

(** Leading and trailing C0 controls and spaces are stripped, then every
    tab and newline is removed. *)
Fixpoint strip_leading (s : string) : string :=
  match s with
  | EmptyString => EmptyString
  | String c r => if is_c0_or_space c then strip_leading r else s
  end.

Fixpoint strip_trailing (s : string) : string :=
  match s with
  | EmptyString => EmptyString
  | String c r =>
      let r' := strip_trailing r in
      if String.eqb r' EmptyString && is_c0_or_space c then EmptyString else String c r'
  end.

Fixpoint remove_tab_nl (s : string) : string :=
  match s with
  | EmptyString => EmptyString
  | String c r =>
      if (code c =? 9)%nat || (code c =? 10)%nat || (code c =? 13)%nat then remove_tab_nl r
      else String c (remove_tab_nl r)
  end.

Definition is_alpha (c : ascii) : bool :=
  ((65 <=? code c) && (code c <=? 90))%nat || ((97 <=? code c) && (code c <=? 122))%nat.

Definition is_digit (c : ascii) : bool := ((48 <=? code c) && (code c <=? 57))%nat.

(** Scheme state: letters, digits, [+], [-] and [.] up to the colon,
    lower-cased; any other character makes the parser fail. *)
Fixpoint scheme_rest (s : string) : option (string * string) :=
  match s with
  | EmptyString => None
  | String c r =>
      if Ascii.eqb c ":" then Some (EmptyString, r)
      else if is_alpha c || is_digit c || Ascii.eqb c "+" || Ascii.eqb c "-" || Ascii.eqb c "." then
        match scheme_rest r with
        | Some (sc, rest) => Some (String (JS.lower_ascii c) sc, rest)
        | None => None
        end
      else None
  end.

(** Scheme start state: the scheme begins with an ASCII letter. *)
Definition split_scheme (s : string) : option (string * string) :=
  match s with
  | String c r =>
      if is_alpha c then
        match scheme_rest r with
        | Some (sc, rest) => Some (String (JS.lower_ascii c) sc, rest)
        | None => None
        end
      else None
  | EmptyString => None
  end.

Definition special_scheme (sc : string) : bool :=
  existsb (String.eqb sc) ["http"; "https"; "ws"; "wss"; "ftp"].

Fixpoint span (stop : ascii -> bool) (s : string) : string * string :=
  match s with
  | EmptyString => (EmptyString, EmptyString)
  | String c r =>
      if stop c then (EmptyString, s) else let '(a, b) := span stop r in (String c a, b)
  end.

Fixpoint str_existsb (f : ascii -> bool) (s : string) : bool :=
  match s with
  | EmptyString => false
  | String c r => f c || str_existsb f r
  end.

Definition is_slash_bs (c : ascii) : bool := Ascii.eqb c "/" || Ascii.eqb c "\".
Definition is_query_stop (c : ascii) : bool := Ascii.eqb c "?" || Ascii.eqb c "#".

(** Special authority (ignore) slashes states: every leading slash or
    backslash is skipped. *)
Fixpoint skip_slashes (s : string) : string :=
  match s with
  | EmptyString => EmptyString
  | String c r => if is_slash_bs c then skip_slashes r else s
  end.

(** What follows the last [d] of [s], if [s] has one. *)
Fixpoint after_last (d : ascii) (s : string) : option string :=
  match s with
  | EmptyString => None
  | String c r =>
      match after_last d r with
      | Some t => Some t
      | None => if Ascii.eqb c d then Some r else None
      end
  end.

(** Host state: the host ends at the first colon outside brackets, where
    the port begins. *)
Fixpoint split_host (inb : bool) (s : string) : string * option string :=
  match s with
  | EmptyString => (EmptyString, None)
  | String c r =>
      if Ascii.eqb c ":" && negb inb then (EmptyString, Some r)
      else
        let inb' := if Ascii.eqb c "[" then true else if Ascii.eqb c "]" then false else inb in
        let '(h, p) := split_host inb' r in (String c h, p)
  end.

Fixpoint port_value (s : string) (acc : N) : option N :=
  match s with
  | EmptyString => Some acc
  | String c r => if is_digit c then port_value r (acc * 10 + N.of_nat (code c - 48))%N else None
  end.

(** Port state: digits only, at most 65535; an empty port is no port. *)
Definition port_ok (p : option string) : bool :=
  match p with
  | None => true
  | Some q => match port_value q 0 with Some n => (n <=? 65535)%N | None => false end
  end.

Definition hex_val (c : ascii) : option nat :=
  if is_digit c then Some (code c - 48)
  else if ((65 <=? code c) && (code c <=? 70))%nat then Some (code c - 55)
  else if ((97 <=? code c) && (code c <=? 102))%nat then Some (code c - 87)
  else None.

Fixpoint pct_decode (s : string) : string :=
  match s with
  | EmptyString => EmptyString
  | String c r =>
      if Ascii.eqb c "%" then
        match r with
        | String h1 (String h2 r2) =>
            match hex_val h1, hex_val h2 with
            | Some a, Some b => String (Ascii.ascii_of_nat (16 * a + b)) (pct_decode r2)
            | _, _ => String c (pct_decode r)
            end
        | _ => String c (pct_decode r)
        end
      else String c (pct_decode r)
  end.

Definition forbidden_host (c : ascii) : bool :=
  (code c =? 0)%nat || (code c =? 9)%nat || (code c =? 10)%nat || (code c =? 13)%nat ||
  (code c =? 32)%nat || str_existsb (Ascii.eqb c) "#/:<>?@[\]^|".

Definition forbidden_domain (c : ascii) : bool :=
  forbidden_host c || (code c <? 32)%nat || Ascii.eqb c "%" || (code c =? 127)%nat.

Definition bracketed (h : string) : bool :=
  match h with
  | String c _ => Ascii.eqb c "[" && String.eqb (String.substring (String.length h - 1) 1 h) "]"
  | EmptyString => false
  end.

(** Host parsing: a bracketed host must be closed (IPv6 addresses are not
    checked further); a domain must be non-empty and hold no forbidden
    domain code point once percent-decoded (IDNA and IPv4 parsing are not
    modelled); an opaque host holds no forbidden host code point. *)
Definition valid_host (special : bool) (h : string) : bool :=
  if bracketed h then true
  else if special then negb (String.eqb h EmptyString) && negb (str_existsb forbidden_domain (pct_decode h))
  else negb (str_existsb forbidden_host h).

(** Authority state: credentials end at the last [@]; an [@] with no host
    after it, a colon with no host before it, a bad port or a bad host make
    the parser fail. *)
Definition authority_ok (special : bool) (auth : string) : bool :=
  let hp := match after_last "@" auth with Some t => t | None => auth end in
  let at_seen := match after_last "@" auth with Some _ => true | None => false end in
  if at_seen && String.eqb hp EmptyString then false
  else
    let '(h, port) := split_host false hp in
    match port with
    | Some _ => negb (String.eqb h EmptyString) && port_ok port && valid_host special h
    | None => valid_host special h
    end.

(** The path percent-encode set. *)
Definition in_path_set (c : ascii) : bool :=
  (code c <? 33)%nat || (126 <? code c)%nat || (code c =? 34)%nat || (code c =? 35)%nat ||
  (code c =? 60)%nat || (code c =? 62)%nat || (code c =? 63)%nat || (code c =? 96)%nat ||
  (code c =? 123)%nat || (code c =? 125)%nat.

(** The C0 control percent-encode set. *)
Definition in_c0_set (c : ascii) : bool := (code c <? 32)%nat || (126 <? code c)%nat.

Definition hex_digit (n : nat) : ascii :=
  Ascii.ascii_of_nat (if (n <? 10)%nat then 48 + n else 55 + n).

Definition encode (set : ascii -> bool) (c : ascii) : string :=
  if set c then String "%" (String (hex_digit (code c / 16)) (String (hex_digit (code c mod 16)) EmptyString))
  else String c EmptyString.

Fixpoint encode_all (set : ascii -> bool) (s : string) : string :=
  match s with
  | EmptyString => EmptyString
  | String c r => encode set c ++ encode_all set r
  end.

Definition is_single_dot (b : string) : bool :=
  String.eqb b "." || String.eqb (JS.toLowerCase b) "%2e".

Definition is_double_dot (b : string) : bool :=
  let l := JS.toLowerCase b in
  String.eqb l ".." || String.eqb l ".%2e" || String.eqb l "%2e." || String.eqb l "%2e%2e".

(** Path state at the end of a segment; the path is kept in reverse order,
    [at_end] says the segment ends the path rather than a slash. *)
Definition end_segment (buf : string) (segs : list string) (at_end : bool) : list string :=
  if is_double_dot buf then (if at_end then EmptyString :: tl segs else tl segs)
  else if is_single_dot buf then (if at_end then EmptyString :: segs else segs)
  else buf :: segs.

Fixpoint path_loop (special : bool) (s buf : string) (segs : list string) : list string :=
  match s with
  | EmptyString => end_segment buf segs true
  | String c r =>
      if Ascii.eqb c "/" || (special && Ascii.eqb c "\") then
        path_loop special r EmptyString (end_segment buf segs false)
      else path_loop special r (buf ++ encode in_path_set c) segs
  end.

Fixpoint serialize_path (segs : list string) : string :=
  match segs with
  | [] => EmptyString
  | x :: r => "/" ++ x ++ serialize_path r
  end.

(** Path state on [s], which ends before any query or fragment. *)
Definition path_of (special : bool) (s : string) : string :=
  serialize_path (rev (path_loop special s EmptyString [])).

(** Path start state of a special URL: one leading slash or backslash is
    consumed. *)
Definition special_path (p : string) : string :=
  match p with
  | String c r => if is_slash_bs c then path_of true r else path_of true p
  | EmptyString => path_of true EmptyString
  end.

Definition special_pathname (rest : string) : Res string :=
  let '(auth, p) := span (fun c => is_slash_bs c || is_query_stop c) (skip_slashes rest) in
  if authority_ok true auth then Ok (special_path (fst (span is_query_stop p)))
  else Err "Invalid URL".

(** File, file slash and file host states (the Windows drive letter
    quirks are not modelled); a file host may be empty. *)
Definition file_pathname (rest : string) : Res string :=
  match rest with
  | String c r =>
      if is_slash_bs c then
        match r with
        | String c2 r2 =>
            if is_slash_bs c2 then
              let '(h, p) := span (fun c => is_slash_bs c || is_query_stop c) r2 in
              if String.eqb h EmptyString || valid_host true h then Ok (special_path (fst (span is_query_stop p)))
              else Err "Invalid URL"
            else Ok (path_of true (fst (span is_query_stop r)))
        | EmptyString => Ok (path_of true EmptyString)
        end
      else Ok (path_of true (fst (span is_query_stop rest)))
  | EmptyString => Ok (path_of true EmptyString)
  end.

(** A non-special URL: an authority after [//], a path after one [/], and
    an opaque path (C0 controls percent-encoded) otherwise. *)
Definition nonspecial_pathname (rest : string) : Res string :=
  match rest with
  | String c r =>
      if Ascii.eqb c "/" then
        match r with
        | String c2 r2 =>
            if Ascii.eqb c2 "/" then
              let '(auth, p) := span (fun c => Ascii.eqb c "/" || is_query_stop c) r2 in
              if authority_ok false auth then
                Ok (match fst (span is_query_stop p) with
                    | String _ q => path_of false q
                    | EmptyString => EmptyString
                    end)
              else Err "Invalid URL"
            else Ok (path_of false (fst (span is_query_stop r)))
        | EmptyString => Ok (path_of false EmptyString)
        end
      else Ok (encode_all in_c0_set (fst (span is_query_stop rest)))
  | EmptyString => Ok EmptyString
  end.

End URL.

Definition url_pathname (u : string) : Res string :=
  match URL.split_scheme (URL.remove_tab_nl (URL.strip_trailing (URL.strip_leading u))) with
  | None => Err "Invalid URL"
  | Some (sc, rest) =>
      if String.eqb sc "file" then URL.file_pathname rest
      else if URL.special_scheme sc then URL.special_pathname rest
      else URL.nonspecial_pathname rest
  end.

(** [BackupService.extractObjectPathFromUrl] (lines 597-604). *)
Definition extractObjectPathFromUrl (uploadUrl : string) : M string :=
  match url_pathname uploadUrl with
  | Err e => throw e
  | Ok pathname =>
      let pathParts := JS.split_slash pathname in
      let objectName := JS.join_slash (skipn 2 pathParts) in
      ret ("/objects/uploads/" ++ List.last (JS.split_slash objectName) "")
  end.

Record UploadResult := mkUploadResult {
  logosUploaded : nat;
  mapsUploaded : nat;
  imageMapping : gmap string string;
  up_errors : list string
}.

Inductive ImageKind := KLogo | KMap.

Definition kind_dir (k : ImageKind) : string :=
  match k with KLogo => "logos" | KMap => "maps" end.
Definition kind_word (k : ImageKind) : string :=
  match k with KLogo => "logo" | KMap => "map" end.

(** The name check yauzl applies to an entry: no leading "/" and no ".."
    segment. *)
Definition valid_entry_name (n : string) : bool :=
  negb (JS.startsWith n "/") && negb (bool_decide ((".." : string) ∈ JS.split_slash n)).

Section Restore.

Variable E : Env.

(** [this.objectStorageService.getObjectEntityUploadURL()]: the answer of
    the [n]-th call is [upload_url E n]. *)
Definition getObjectEntityUploadURL : M string :=
  fun w =>
    let n := upload_calls w in
    let w' := mkWorld (fs w) (trace w) (S n) in
    match upload_url E n with
    | Ok u => (Ok u, w')
    | Err e => (Err e, w')
    end.

(** [fetch(uploadUrl, { method: 'PUT', body, headers: { 'Content-Type': 'image/jpeg' } })] *)
Definition fetch_put (url : string) (body : Content) : M HttpResp :=
  emit (EvPut url "image/jpeg" body) ;;!
  match http_put E url with
  | NetError m => throw m
  | r => ret r
  end.

Definition bump (k : ImageKind) (r : UploadResult) (key objectPath : string) : UploadResult :=
  mkUploadResult
    (match k with KLogo => S (logosUploaded r) | KMap => logosUploaded r end)
    (match k with KMap => S (mapsUploaded r) | KLogo => mapsUploaded r end)
    (<[key := objectPath]> (imageMapping r)) (up_errors r).

Definition add_error (r : UploadResult) (e : string) : UploadResult :=
  mkUploadResult (logosUploaded r) (mapsUploaded r) (imageMapping r) (up_errors r ++ [e])%list.

(** The body of one iteration of an upload loop (lines 489-512 / 521-544). *)
Definition upload_one (k : ImageKind) (dir : path) (r : UploadResult) (file : string)
    : M UploadResult :=
  catch
    (let filePath := join dir [file] in
     let! uploadUrl := getObjectEntityUploadURL in
     let! imageBuffer := FS.readFile filePath in
     let! uploadResponse := fetch_put uploadUrl imageBuffer in
     match uploadResponse with
     | Resp true _ _ _ =>
         let! objectPath := extractObjectPathFromUrl uploadUrl in
         ret (bump k r ("images/" ++ kind_dir k ++ "/" ++ file) objectPath)
     | _ => ret (add_error r ("Failed to upload " ++ kind_word k ++ ": " ++ file))
     end)
    (fun e => ret (add_error r ("Error uploading " ++ kind_word k ++ " " ++ file ++ ": " ++ e))).

Fixpoint upload_loop (k : ImageKind) (dir : path) (r : UploadResult) (files : list string)
    : M UploadResult :=
  match files with
  | [] => ret r
  | f :: rest => let! r' := upload_one k dir r f in upload_loop k dir r' rest
  end.

(** [directoryExists] (lines 609-616). *)
Definition directoryExists (p : path) : M bool :=
  catch (FS.stat_isDirectory p) (fun _ => ret false).

Definition upload_kind (k : ImageKind) (extractDir : path) (r : UploadResult) : M UploadResult :=
  let dir := join extractDir ["images"; kind_dir k] in
  let! ex := directoryExists dir in
  if ex then
    let! files := FS.readdir dir in
    upload_loop k dir r files
  else ret r.

(** [BackupService.uploadImagesFromBackup] (lines 471-549). *)
Definition uploadImagesFromBackup (extractDir : path) (backupData : BackupData) : M UploadResult :=
  let! r := upload_kind KLogo extractDir (mkUploadResult 0 0 ∅ []) in
  upload_kind KMap extractDir r.

(** [BackupService.updateShopImageUrls] (lines 554-572), on one shop. *)
Definition update_shop (imgs : BackupImages) (imageMapping : gmap string string) (shop : Shop)
    : Shop :=
  let shop1 :=
    if JS.truthy (Some (id shop)) && JS.truthy (logos imgs !! id shop) then
      match logos imgs !! id shop with
      | Some oldLogoPath =>
          if JS.truthy (imageMapping !! oldLogoPath) then
            mkShop (id shop) (name shop) (imageMapping !! oldLogoPath)
                   (mapImageUrl shop) (other_fields shop)
          else shop
      | None => shop
      end
    else shop in
  if JS.truthy (Some (id shop1)) && JS.truthy (maps imgs !! id shop1) then
    match maps imgs !! id shop1 with
    | Some oldMapPath =>
        if JS.truthy (imageMapping !! oldMapPath) then
          mkShop (id shop1) (name shop1) (logo shop1)
                 (imageMapping !! oldMapPath) (other_fields shop1)
        else shop1
    | None => shop1
    end
  else shop1.

Definition updateShopImageUrls (backupData : BackupData) (imageMapping : gmap string string)
    : BackupData :=
  mkBackupData (metadata backupData)
    (map (update_shop (images backupData) imageMapping) (shops backupData))
    (images backupData).

(** [storage.createShop(shopData)] *)
Definition createShop (d : ShopData) : M unit :=
  if insert_ok E d then emit (EvInsert d) else throw "insert failed".

(** [BackupService.restoreShopsToDatabase] (lines 577-592). *)
Fixpoint restoreShopsToDatabase_from (restoredCount : nat) (l : list Shop) : M nat :=
  match l with
  | [] => ret restoredCount
  | shop :: r =>
      let! c := catch (createShop (strip_id shop) ;;! ret (S restoredCount))
                      (fun _ => ret restoredCount) in
      restoreShopsToDatabase_from c r
  end.

Definition restoreShopsToDatabase (l : list Shop) : M nat := restoreShopsToDatabase_from 0 l.

(** What the handlers of [extractZipFile] (lines 411-444) do with one
    entry: [Next] when they call [zipfile.readEntry()] with nothing failed;
    [Fail m true] when they reject with [m] and still call [readEntry()]:
    a write stream emits ['close'] after its ['error']; [Fail m false] when
    they reject and read no further entry. yauzl itself refuses absolute
    names and names with a [..] segment with an ['error'] event. *)
Inductive Step := Next | Fail (msg : string) (reads_on : bool).

Definition extract_entry (extractDir : path) (e : ZipEntry) : M Step :=
  if negb (valid_entry_name (fileName e)) then ret (Fail "invalid relative path" false)
  else if JS.endsWithSlash (fileName e) then
    catch (FS.mkdir_p (join extractDir [fileName e]) ;;! ret Next)
          (fun m => ret (Fail m false))
  else
    match entry_data e with
    | EOpenError m => ret (Fail m false)
    | ENoStream => ret Next
    | EData c =>
        let filePath := join extractDir [fileName e] in
        catch (FS.mkdir_p (dirname filePath) ;;!
               catch (FS.writeFile filePath c ;;! ret Next)
                     (fun m => ret (Fail m true)))
              (fun m => ret (Fail m false))
    end.

(** How the promise of [extractZipFile] settles: resolved on ['end'], or
    rejected with an error, [bg] being the entries that the handlers still
    read and extract afterwards. *)
Inductive Settled := Resolved | Rejected (msg : string) (bg : list ZipEntry).

(** The entries, one after the other ([lazyEntries]), until the promise settles. *)
Fixpoint extract_entries (extractDir : path) (entries : list ZipEntry) : M Settled :=
  match entries with
  | [] => ret Resolved
  | e :: rest =>
      let! s := extract_entry extractDir e in
      match s with
      | Next => extract_entries extractDir rest
      | Fail m true => ret (Rejected m rest)
      | Fail m false => ret (Rejected m [])
      end
  end.

(** The entries read after the promise has rejected: the same handlers,
    whose further calls of [reject] have no effect. *)
Fixpoint extract_background (extractDir : path) (entries : list ZipEntry) : M unit :=
  match entries with
  | [] => ret tt
  | e :: rest =>
      let! s := extract_entry extractDir e in
      match s with
      | Next | Fail _ true => extract_background extractDir rest
      | Fail _ false => ret tt
      end
  end.

(** [BackupService.extractZipFile] (lines 394-453). The uploaded file is
    opened by yauzl ([None] when it is not a ZIP archive). *)
Definition extractZipFile_run (zipFilePath : path) (archive : option (list ZipEntry))
    (extractDir : path) : M Settled :=
  FS.mkdir_p extractDir ;;!
  let! _ := FS.readFile zipFilePath in
  match archive with
  | None => ret (Rejected "end of central directory record signature not found" [])
  | Some entries => extract_entries extractDir entries
  end.

(** The promise that [extractZipFile] returns. *)
Definition extractZipFile (zipFilePath : path) (archive : option (list ZipEntry))
    (extractDir : path) : M unit :=
  let! s := extractZipFile_run zipFilePath archive extractDir in
  match s with
  | Resolved => ret tt
  | Rejected m _ => throw m
  end.

(** [BackupService.parseBackupData] (lines 458-466). *)
Definition parseBackupData (jsonFilePath : path) : M (option BackupData) :=
  catch
    (let! jsonContent := FS.readFile jsonFilePath in
     match jsonContent with
     | CJson d => ret (Some d)
     | _ => throw "Unexpected token in JSON"
     end)
    (fun _ => ret None).

(** Longest path in the file system: [cleanupDirectory] never recurses
    deeper than that, so it serves as fuel. *)
Definition max_depth (f : gmap path FNode) : nat :=
  foldr (fun kv acc => Nat.max (length kv.1) acc) 0%nat (map_to_list f).

(** [BackupService.cleanupDirectory] (lines 621-642). *)
Fixpoint cleanupDirectory_fuel (fuel : nat) (dirPath : path) : M unit :=
  catch
    (let! ex := directoryExists dirPath in
     if ex then
       let! files := FS.readdir dirPath in
       (fix loop (l : list string) : M unit :=
          match l with
          | [] => ret tt
          | file :: r =>
              let filePath := join dirPath [file] in
              let! isDir := FS.stat_isDirectory filePath in
              (if isDir then
                 match fuel with
                 | O => ret tt
                 | S f => cleanupDirectory_fuel f filePath
                 end
               else FS.unlink filePath) ;;!
              loop r
          end) files ;;!
       FS.rmdir dirPath
     else ret tt)
    (fun _ => ret tt).

Definition cleanupDirectory (dirPath : path) : M unit :=
  fun w => cleanupDirectory_fuel (max_depth (fs w)) dirPath w.

(** [BackupService.cleanupFile] (lines 647-653). *)
Definition cleanupFile (filePath : path) : M unit :=
  catch (FS.unlink filePath) (fun _ => ret tt).

(** [try { body } finally { fin }] *)
Definition try_finally {A} (body : M A) (fin : M unit) : M A :=
  fun w => match body w with
           | (r, w1) =>
               match fin w1 with
               | (Ok _, w2) => (r, w2)
               | (Err e, w2) => (Err e, w2)
               end
           end.

Definition restore_dir : path := ["tmp"; "restore-" ++ JS.show_nat (now_ms E)].

Definition restore_message (n l m : nat) : string :=
  "Successfully restored " ++ JS.show_nat n ++ " shops with " ++ JS.show_nat l ++
  " logos and " ++ JS.show_nat m ++ " maps".

Definition CORRUPT_MSG : string :=
  "Invalid backup file: backup-data.json not found or corrupted".

Definition restore_failed (e : string) : RestoreResult :=
  mkRestoreResult false e (mkStats 0 0 0 [e]).

(** The [try] block of [restoreFromZip] after [await this.extractZipFile(...)]
    (lines 356-377). The statistics fields are filled only after the last
    step that can throw. *)
Definition restore_body (extractDir : path) : M RestoreResult :=
  let! backupData := parseBackupData (join extractDir ["backup-data.json"]) in
  match backupData with
  | None => throw CORRUPT_MSG
  | Some bd =>
      let! imageResults := uploadImagesFromBackup extractDir bd in
      let bd' := updateShopImageUrls bd (imageMapping imageResults) in
      let! shopsRestored := restoreShopsToDatabase (shops bd') in
      ret (mkRestoreResult true
             (restore_message shopsRestored (logosUploaded imageResults) (mapsUploaded imageResults))
             (mkStats shopsRestored (logosUploaded imageResults) (mapsUploaded imageResults)
                      (up_errors imageResults)))
  end.

(** [BackupService.restoreFromZip] (lines 337-389). The [try] block starts
    with [await this.extractZipFile(...)]. When that promise rejects with
    [e], the [catch] block records [e] and the [finally] block cleans up,
    while the entries [bg] the extraction still reads are extracted in the
    background: before the [finally] block or after it, as the event loop
    schedules them ([bg_after_finally E]). *)
Definition restoreFromZip (zipFilePath : path) (archive : option (list ZipEntry))
    : M RestoreResult :=
  let extractDir := restore_dir in
  let fin := cleanupDirectory extractDir ;;! cleanupFile zipFilePath in
  let! s := catch (extractZipFile_run zipFilePath archive extractDir)
                  (fun e => ret (Rejected e [])) in
  match s with
  | Resolved =>
      try_finally (catch (restore_body extractDir) (fun e => ret (restore_failed e))) fin
  | Rejected e bg =>
      if bg_after_finally E then
        let! r := try_finally (ret (restore_failed e)) fin in
        extract_background extractDir bg ;;!
        ret r
      else
        extract_background extractDir bg ;;!
        try_finally (ret (restore_failed e)) fin
  end.

End Restore.

(* ------------------------------------------------------------------ *)
(** ** Concrete scenarios used by the examples and witnesses *)

Module Scenario.

Definition shopA := mkShop "a1" "A" (Some "/objects/abc") None [].
Definition shopB := mkShop "b2" "B" (Some "fa-store") None [].
Definition shopC := mkShop "c3" "C" (Some "fas fa-crosshairs") (Some "https://x/y.jpg") [].

(** The first seeded shop of [MemStorage.initializeShops]. *)
Definition seed := mkShop "d4" "Damotlav" (Some "fas fa-crosshairs") None [].

Definition env_with (l : list Shop) (ins : ShopData -> bool) : Env :=
  mkEnv (Some l)
    (fun u => Resp true "OK" (Some "image/png") ("bytes of " ++ u))
    (fun _ => Resp true "OK" None "")
    (fun n => Ok ("https://storage.googleapis.com/bucket/.private/uploads/u" ++ JS.show_nat n ++ "?X=1"))
    ins ["home"; "runner"] "2024-01-02T03:04:05.678Z" 1700 "2024-01-02T03:04:05.912Z" false.

Definition env0 : Env := env_with [shopA; shopB; shopC] (fun _ => true).

(** Every GET answers 404. *)
Definition env404 : Env :=
  mkEnv (Some [shopA]) (fun _ => Resp false "Not Found" None "") (fun _ => Resp true "OK" None "")
    (fun _ => Err "unused") (fun _ => true) ["home"; "runner"] "2024-01-02T03:04:05.678Z" 1700
    "2024-01-02T03:04:05.912Z" false.

Definition zip : path := ["tmp"; "uploads"; "z"].

Definition world0 : World :=
  mkWorld (<[["tmp"] := FDir]> (<[["tmp"; "uploads"] := FDir]>
            (<[zip := FFile (CBlob "PK")]> ∅))) [] 0.

(** [env0] with one upload URL for every upload. *)
Definition env1 : Env :=
  mkEnv (Some [shopA; shopB; shopC])
    (fun u => Resp true "OK" (Some "image/png") ("bytes of " ++ u))
    (fun _ => Resp true "OK" None "")
    (fun _ => Ok "https://storage.googleapis.com/bucket/.private/uploads/u0?X=1")
    (fun _ => true) ["home"; "runner"] "2024-01-02T03:04:05.678Z" 1700 "2024-01-02T03:04:05.912Z" false.

Definition manifest (l : list Shop) : BackupData :=
  mkBackupData (mkMetadata "2024-01-02T03:04:05.678Z" "1.0" (length l) Full) l (mkImages ∅ ∅).

End Scenario.

(* ------------------------------------------------------------------ *)
(** * [MemStorage] (server/storage.ts, lines 26-267) *)
Module MemStorage.

(** A JavaScript [Map] with string keys: its entries in insertion order. *)
Definition JSMap (V : Type) : Type := list (string * V).

(** [m.get(k)] *)
Fixpoint map_get {V} (k : string) (m : JSMap V) : option V :=
  match m with
  | [] => None
  | (k', v) :: r => if String.eqb k k' then Some v else map_get k r
  end.

(** [m.set(k, v)]: a key already there keeps its place, a new key goes last. *)
Fixpoint map_set {V} (k : string) (v : V) (m : JSMap V) : JSMap V :=
  match m with
  | [] => [(k, v)]
  | (k', v') :: r => if String.eqb k k' then (k, v) :: r else (k', v') :: map_set k v r
  end.

(** [m.delete(k)]: whether the key was there, and the map without it. *)
Fixpoint map_delete {V} (k : string) (m : JSMap V) : bool * JSMap V :=
  match m with
  | [] => (false, [])
  | (k', v') :: r =>
      if String.eqb k k' then (true, r)
      else let (b, r') := map_delete k r in (b, (k', v') :: r')
  end.

(** [Array.from(m.values())] *)
Definition map_values {V} (m : JSMap V) : list V := map snd m.

(** The rows of [shared/schema.ts]. *)
Record User := mkUser { user_id : string; username : string; password : string }.
Record InsertUser := mkInsertUser { ins_username : string; ins_password : string }.

Record Shop := mkShop {
  id : string; name : string; description : string; logo : string; address : string;
  city : string; state : string; phone : string; email : string; website : option string;
  categories : list string; mapImageUrl : string; googleMapsUrl : string;
  latitude : option string; longitude : option string; isVerified : option string
}.

(** [InsertShop]: the row without its id; a nullable field left out is [None]. *)
Record InsertShop := mkInsertShop {
  i_name : string; i_description : string; i_logo : string; i_address : string;
  i_city : string; i_state : string; i_phone : string; i_email : string; i_website : option string;
  i_categories : list string; i_mapImageUrl : string; i_googleMapsUrl : string;
  i_latitude : option string; i_longitude : option string; i_isVerified : option string
}.

(** [UpdateShop]: every field of [InsertShop] may be left out ([None]). *)
Record UpdateShop := mkUpdateShop {
  u_name : option string; u_description : option string; u_logo : option string;
  u_address : option string; u_city : option string; u_state : option string;
  u_phone : option string; u_email : option string; u_website : option (option string);
  u_categories : option (list string); u_mapImageUrl : option string;
  u_googleMapsUrl : option string; u_latitude : option (option string);
  u_longitude : option (option string); u_isVerified : option (option string)
}.

Record Filters := mkFilters {
  f_search : option string; f_category : option string; f_city : option string; f_state : option string
}.

(** The two private maps of a [MemStorage]. *)
Record MemState := mkMem { users : JSMap User; shops : JSMap Shop }.

(** [{ ...a, ...b }] for a field: the value of [b] when [b] has the field. *)
Definition spread {A} (b : option A) (a : A) : A :=
  match b with Some x => x | None => a end.

Definition getUser (i : string) (st : MemState) : option User := map_get i (users st).

Definition getUserByUsername (un : string) (st : MemState) : option User :=
  List.find (fun u => String.eqb (username u) un) (map_values (users st)).

(** [createUser]; [i] is the [randomUUID()] of the call. *)
Definition createUser (i : string) (iu : InsertUser) (st : MemState) : User * MemState :=
  let user := mkUser i (ins_username iu) (ins_password iu) in
  (user, mkMem (map_set i user (users st)) (shops st)).

Definition getAllUsers (st : MemState) : list User := map_values (users st).

Definition deleteUser (i : string) (st : MemState) : bool * MemState :=
  let (b, us) := map_delete i (users st) in (b, mkMem us (shops st)).

Definition updateUserPassword (userId newPasswordHash : string) (st : MemState) : bool * MemState :=
  match map_get userId (users st) with
  | None => (false, st)
  | Some user =>
      let updatedUser := mkUser (user_id user) (username user) newPasswordHash in
      (true, mkMem (map_set userId updatedUser (users st)) (shops st))
  end.

Definition getUserWithPassword (i : string) (st : MemState) : option User := map_get i (users st).

Definition getShops (st : MemState) : list Shop := map_values (shops st).

Definition getShopById (i : string) (st : MemState) : option Shop := map_get i (shops st).

(** [createShop]; [i] is the [randomUUID()] of the call. *)
Definition createShop (i : string) (s : InsertShop) (st : MemState) : Shop * MemState :=
  let shop := mkShop i (i_name s) (i_description s) (i_logo s) (i_address s) (i_city s)
                (i_state s) (i_phone s) (i_email s) (i_website s) (i_categories s)
                (i_mapImageUrl s) (i_googleMapsUrl s) (i_latitude s) (i_longitude s)
                (i_isVerified s) in
  (shop, mkMem (users st) (map_set i shop (shops st))).

Definition updateShop (i : string) (u : UpdateShop) (st : MemState) : option Shop * MemState :=
  match map_get i (shops st) with
  | None => (None, st)
  | Some e =>
      let updatedShop :=
        mkShop (id e) (spread (u_name u) (name e)) (spread (u_description u) (description e))
          (spread (u_logo u) (logo e)) (spread (u_address u) (address e))
          (spread (u_city u) (city e)) (spread (u_state u) (state e))
          (spread (u_phone u) (phone e)) (spread (u_email u) (email e))
          (spread (u_website u) (website e)) (spread (u_categories u) (categories e))
          (spread (u_mapImageUrl u) (mapImageUrl e)) (spread (u_googleMapsUrl u) (googleMapsUrl e))
          (spread (u_latitude u) (latitude e)) (spread (u_longitude u) (longitude e))
          (spread (u_isVerified u) (isVerified e)) in
      (Some updatedShop, mkMem (users st) (map_set i updatedShop (shops st)))
  end.

Definition deleteShop (i : string) (st : MemState) : bool * MemState :=
  let (b, ss) := map_delete i (shops st) in (b, mkMem (users st) ss).

Section Filters.

(** [String.prototype.toLowerCase], whose Unicode case mapping is left abstract. *)
Variable toLowerCase : string -> string.

Definition search_hit (searchLower : string) (shop : Shop) : bool :=
  JS.includes (toLowerCase (name shop)) searchLower ||
  JS.includes (toLowerCase (description shop)) searchLower ||
  JS.includes (toLowerCase (city shop)) searchLower ||
  existsb (fun cat => JS.includes (toLowerCase cat) searchLower) (categories shop).

Definition getShopsByFilters (filters : Filters) (st : MemState) : list Shop :=
  let shops0 := map_values (shops st) in
  let shops1 :=
    if JS.truthy (f_search filters) then
      let searchLower := toLowerCase (default "" (f_search filters)) in
      List.filter (search_hit searchLower) shops0
    else shops0 in
  let shops2 :=
    if JS.truthy (f_category filters) then
      List.filter (fun shop => existsb (fun cat => String.eqb (toLowerCase cat)
                                         (toLowerCase (default "" (f_category filters))))
                                  (categories shop)) shops1
    else shops1 in
  let shops3 :=
    if JS.truthy (f_city filters) then
      List.filter (fun shop => String.eqb (toLowerCase (city shop))
                                 (toLowerCase (default "" (f_city filters)))) shops2
    else shops2 in
  if JS.truthy (f_state filters) then
    List.filter (fun shop => String.eqb (toLowerCase (state shop))
                               (toLowerCase (default "" (f_state filters)))) shops3
  else shops3.

End Filters.

End MemStorage.

(* ------------------------------------------------------------------ *)
(** * [ObjectStorageService] (server/objectStorage.ts), its path handling *)
Module ObjectStorage.

(** [s.split(sep)]: JavaScript keeps empty pieces. *)
Fixpoint split_on (sep : ascii) (s : string) : list string :=
  match s with
  | EmptyString => [EmptyString]
  | String c r =>
      let l := split_on sep r in
      if Ascii.eqb c sep then EmptyString :: l
      else match l with
           | h :: t => String c h :: t
           | [] => [String c EmptyString]
           end
  end.

(** [Array.from(new Set(l))]: the first occurrence of each element, in order. *)
Definition set_values (l : list string) : list string :=
  fold_left (fun acc x => if existsb (String.eqb x) acc then acc else (acc ++ [x])%list) l [].

Section Env.

(** [String.prototype.trim], whose Unicode white space is left abstract. *)
Variable trim : string -> string.

(** [getPublicObjectSearchPaths]; [env] is [PUBLIC_OBJECT_SEARCH_PATHS]. *)
Definition getPublicObjectSearchPaths (env : option string) : Res (list string) :=
  let pathsStr := match env with Some s => s | None => "" end in
  let paths := set_values (List.filter (fun p => negb (String.eqb p "")) (map trim (split_on ","%char pathsStr))) in
  if (length paths =? 0)%nat then
    Err "PUBLIC_OBJECT_SEARCH_PATHS not set. Object storage not configured properly."
  else Ok paths.

End Env.

(** [getPrivateObjectDir]; [env] is [PRIVATE_OBJECT_DIR]. *)
Definition getPrivateObjectDir (env : option string) : Res string :=
  let dir := match env with Some s => s | None => "" end in
  if String.eqb dir "" then Err "PRIVATE_OBJECT_DIR not set. Object storage not configured properly."
  else Ok dir.

(** [parseObjectPath] *)
Definition parseObjectPath (path : string) : Res (string * string) :=
  let path := if JS.startsWith path "/" then path else "/" ++ path in
  let pathParts := JS.split_slash path in
  if (length pathParts <? 3)%nat then Err "Invalid path: must contain at least a bucket name"
  else Ok (nth 1 pathParts "", JS.join_slash (skipn 2 pathParts)).

(** [s.slice(n)] *)
Definition slice (n : nat) (s : string) : string := String.substring n (String.length s - n) s.

(** [getObjectFile] (lines 120-140): the bucket and object name of the file
    it answers. [objExists b o] is the outcome of [file.exists()]: whether
    the object exists, or the error its promise rejects with. Before it,
    [objectStorageClient.bucket('')] throws "A bucket name is needed to use
    Cloud Storage." and [bucket.file('')] throws "A file name must be
    specified.". *)
Definition getObjectFile (objExists : string -> string -> Res bool) (objectPath : string)
    : Res (string * string) :=
  if negb (JS.startsWith objectPath "/objects/") then Err "Object not found"
  else
    let storagePath := slice 8 objectPath in
    match parseObjectPath storagePath with
    | Err e => Err e
    | Ok (bucketName, objectName) =>
        if String.eqb bucketName "" then Err "A bucket name is needed to use Cloud Storage."
        else if String.eqb objectName "" then Err "A file name must be specified."
        else
          match objExists bucketName objectName with
          | Err e => Err e
          | Ok true => Ok (bucketName, objectName)
          | Ok false => Err "Object not found"
          end
    end.

(** [getUploadURL], up to the call of [signObjectURL]: the bucket and the
    object name it signs a PUT URL for; [objectId] is [randomUUID()]. *)
Definition getUploadURL (env : option string) (type objectId : string) : Res (string * string) :=
  match getPrivateObjectDir env with
  | Err e => Err e
  | Ok privateObjectDir =>
      if String.eqb privateObjectDir "" then Err "Object storage not configured properly."
      else
        let fullPath := privateObjectDir ++ "/shops/" ++ type ++ "/" ++ objectId in
        parseObjectPath fullPath
  end.

(** [normalizeObjectPath]; [env] is [PRIVATE_OBJECT_DIR]. *)
Definition normalizeObjectPath (env : option string) (rawPath : string) : Res string :=
  if negb (JS.startsWith rawPath "https://storage.googleapis.com/") then Ok rawPath
  else
    match url_pathname rawPath with
    | Err e => Err e
    | Ok rawObjectPath =>
        match getPrivateObjectDir env with
        | Err e => Err e
        | Ok dir =>
            let objectEntityDir := if JS.endsWithSlash dir then dir else dir ++ "/" in
            if negb (JS.startsWith rawObjectPath objectEntityDir) then Ok rawObjectPath
            else Ok ("/objects/" ++ slice (String.length objectEntityDir) rawObjectPath)
        end
    end.

End ObjectStorage.

(* ------------------------------------------------------------------ *)
(** * The filter dropdown routes of [registerRoutes] (server/auth.ts) *)
Module ShopRoutes.
Import MemStorage.

(** [Array.prototype.sort] on strings: code unit order, which is the byte
    order for the ASCII strings of the examples. *)
Module StrLe <: Orders.TotalLeBool.
Definition t := string.
Definition leb := String.leb.
Lemma leb_total : forall a b, is_true (leb a b) \/ is_true (leb b a).
Proof. exact String.leb_total. Qed.
End StrLe.

Module StrSort := Mergesort.Sort StrLe.

(** GET /api/shops/categories, on the shops [storage.getShops()] returns. *)
Definition shopCategories (shops : list Shop) : list string :=
  StrSort.sort (ObjectStorage.set_values (flat_map categories shops)).

(** GET /api/shops/cities *)
Definition shopCities (shops : list Shop) : list string :=
  StrSort.sort (ObjectStorage.set_values (map city shops)).

(** GET /api/shops/states *)
Definition shopStates (shops : list Shop) : list string :=
  StrSort.sort (ObjectStorage.set_values (map state shops)).

End ShopRoutes.

(* ------------------------------------------------------------------ *)
(** * Authentication routes of [setupAuthRoutes] and [requireAuth]
    (server/auth.ts), on a [MemStorage] as the storage. *)
Module AuthRoutes.
Import MemStorage.

(** The answers of the handlers: a status with its message, or the user
    without its password ([userWithoutPassword]: the id and the name). *)
Inductive AuthResp :=
  | Status (code : nat) (message : string)
  | Created (code : nat) (message : string) (uid un : string)
  | LoginOk (message : string) (uid un : string)
  | Next (u : User).

Section Auth.

(** [bcrypt.hash(p, 10)] and [bcrypt.compare(p, h)]. *)
Variable hash : string -> string.
Variable compare : string -> string -> bool.

(** POST /api/auth/create-admin; [body] is [insertUserSchema.parse(req.body)]
    ([None] when it throws a ZodError), [i] the [randomUUID()] of
    [createUser]. *)
Definition createAdmin (i : string) (body : option InsertUser) (st : MemState) : AuthResp * MemState :=
  let existingUsers := getAllUsers st in
  if (0 <? length existingUsers)%nat then
    (Status 403 "Admin creation disabled. Admin users already exist. Use the authenticated admin panel to create additional users.", st)
  else
    match body with
    | None => (Status 400 "Invalid input", st)
    | Some userData =>
        match getUserByUsername (ins_username userData) st with
        | Some _ => (Status 409 "Username already exists", st)
        | None =>
            let hashedPassword := hash (ins_password userData) in
            let (newUser, st') := createUser i (mkInsertUser (ins_username userData) hashedPassword) st in
            (Created 201 "Initial admin user created successfully" (user_id newUser) (username newUser), st')
        end
    end.

(** POST /api/auth/login; [body] is the two strings of [req.body] ([None]
    when one is missing); [sess] is [req.session.userId], which the handler
    returns updated. *)
Definition login (body : option (string * string)) (sess : option string) (st : MemState)
    : AuthResp * option string :=
  match body with
  | None => (Status 400 "Invalid input", sess)
  | Some (un, pw) =>
      if (String.length un =? 0)%nat || (String.length pw =? 0)%nat then (Status 400 "Invalid input", sess)
      else
        match getUserByUsername un st with
        | None => (Status 401 "Invalid credentials", sess)
        | Some user =>
            if compare pw (password user) then
              (LoginOk "Login successful" (user_id user) (username user), Some (user_id user))
            else (Status 401 "Invalid credentials", sess)
        end
  end.

End Auth.

(** [requireAuth]: [Next u] stands for [next()] with [req.user = u]. *)
Definition requireAuth (sess : option string) (st : MemState) : AuthResp :=
  if negb (JS.truthy sess) then Status 401 "Authentication required"
  else
    match getUser (default "" sess) st with
    | None => Status 401 "User not found"
    | Some user => Next user
    end.

End AuthRoutes.

(* ------------------------------------------------------------------ *)
(** A small store: one shop of the sample data of [initializeShops] under
    the id ["u1"], and one user. *)
Module MemScenario.
Import MemStorage.

Definition stoneBeyers : InsertShop :=
  mkInsertShop "Stone Beyers" "Armas de caza y tiro deportivo" "fas fa-bullseye"
    "Calle Libertad 567, Col. Americana" "Guadalajara" "Jalisco" "+52 (33) 2345-6789"
    "contacto@stonebeyers.mx" (Some "www.stonebeyers.mx") ["Caza"; "Municiones"; "Mantenimiento"]
    "https://images.unsplash.com/photo-1578662996442-48f60103fc96"
    "https://maps.google.com/?q=20.6597,-103.3496" (Some "20.6597") (Some "-103.3496") (Some "true").

Definition renameShop : UpdateShop :=
  mkUpdateShop (Some "Stone Beyers MX") None None None None None None None None None None None None None None.

(** A stand-in for [bcrypt.hash] and [bcrypt.compare]. *)
Definition bhash (p : string) : string := "bcrypt:" ++ p.
Definition bcompare (p h : string) : bool := String.eqb (bhash p) h.

Definition mem1 : MemState :=
  mkMem [("a1", mkUser "a1" "admin" (bhash "secret"))] (snd (createShop "u1" stoneBeyers (mkMem [] []))).(shops).

End MemScenario.

(* ================================================================== *)
(** * Properties *)

(** ** Trace invariants: effects a computation may add to the trace *)
Module TraceInv.

Definition inv (P : Event -> Prop) {A} (c : M A) : Prop :=
  forall w ev, In ev (trace (snd (c w))) -> In ev (trace w) \/ P ev.

Section Rules.
Variable P : Event -> Prop.

Lemma ret_inv {A} (a : A) : inv P (ret a).
Proof. intros w ev H. now left. Qed.

Lemma throw_inv {A} m : inv P (@throw A m).
Proof. intros w ev H. now left. Qed.

Lemma bind_inv {A B} (c : M A) (k : A -> M B) :
  inv P c -> (forall a, inv P (k a)) -> inv P (bind c k).
Proof.
  intros Hc Hk w ev H. unfold bind in H.
  destruct (c w) as [[a|e] w'] eqn:Ec.
  - destruct (Hk a w' ev H) as [H1|H1]; [|now right].
    specialize (Hc w ev). rewrite Ec in Hc. now apply Hc.
  - specialize (Hc w ev). rewrite Ec in Hc. now apply Hc.
Qed.

Lemma catch_inv {A} (c : M A) (h : string -> M A) :
  inv P c -> (forall e, inv P (h e)) -> inv P (catch c h).
Proof.
  intros Hc Hh w ev H. unfold catch in H.
  destruct (c w) as [[a|e] w'] eqn:Ec.
  - specialize (Hc w ev). rewrite Ec in Hc. now apply Hc.
  - destruct (Hh e w' ev H) as [H1|H1]; [|now right].
    specialize (Hc w ev). rewrite Ec in Hc. now apply Hc.
Qed.

Lemma emit_inv e : P e -> inv P (emit e).
Proof.
  intros He w ev H. simpl in H. apply in_app_or in H as [H|[<-|[]]]; auto.
Qed.

Lemma match_res_inv {A B} (r : Res A) (f : A -> M B) (g : string -> M B) :
  (forall a, inv P (f a)) -> (forall e, inv P (g e)) ->
  inv P (match r with Ok a => f a | Err e => g e end).
Proof. destruct r; auto. Qed.

Lemma get_fs_inv : inv P get_fs.
Proof. intros w ev H. now left. Qed.

Lemma mkdir_p_inv p : inv P (FS.mkdir_p p).
Proof. intros w ev H. unfold FS.mkdir_p in H. destruct (FS.mkdir_aux _ _ _); now left. Qed.

Lemma writeFile_inv p c : inv P (FS.writeFile p c).
Proof.
  intros w ev H. unfold FS.writeFile in H.
  destruct (fs w !! p) as [[]|]; repeat case_match; now left.
Qed.

Lemma readFile_inv p : inv P (FS.readFile p).
Proof. intros w ev H. unfold FS.readFile in H. repeat case_match; now left. Qed.

Lemma readdir_inv p : inv P (FS.readdir p).
Proof. intros w ev H. unfold FS.readdir in H. case_match; now left. Qed.

Lemma stat_inv p : inv P (FS.stat_isDirectory p).
Proof. intros w ev H. unfold FS.stat_isDirectory in H. repeat case_match; now left. Qed.

Lemma unlink_inv p : inv P (FS.unlink p).
Proof. intros w ev H. unfold FS.unlink in H. repeat case_match; now left. Qed.

Lemma rmdir_inv p : inv P (FS.rmdir p).
Proof. intros w ev H. unfold FS.rmdir in H. repeat case_match; now left. Qed.

Lemma upload_url_inv E : inv P (getObjectEntityUploadURL E).
Proof. intros w ev H. unfold getObjectEntityUploadURL in H. case_match; now left. Qed.

Lemma if_inv {A} (b : bool) (c1 c2 : M A) : inv P c1 -> inv P c2 -> inv P (if b then c1 else c2).
Proof. destruct b; auto. Qed.

End Rules.

Create HintDb trinv.
#[export] Hint Resolve ret_inv throw_inv catch_inv get_fs_inv mkdir_p_inv writeFile_inv
  readFile_inv readdir_inv stat_inv unlink_inv rmdir_inv upload_url_inv : trinv.

(** Decompose a computation into its primitive steps. *)
Ltac inv_step :=
  match goal with
  | |- inv _ (bind _ _) => apply bind_inv; [|intro]
  | |- inv _ (catch _ _) => apply catch_inv; [|intro]
  | |- inv _ (if _ then _ else _) => apply if_inv
  | |- inv _ (match ?x with _ => _ end) => destruct x
  | |- inv _ _ => solve [eauto with trinv]
  end.

Ltac inv_auto := repeat inv_step.

End TraceInv.

Module RestoreTrace.
Import TraceInv.

Section Inv.
Variable P : Event -> Prop.
Variable E : Env.
Hypothesis HP_put : forall u b, P (EvPut u "image/jpeg" b).
Hypothesis HP_ins : forall d, P (EvInsert d).

Lemma fetch_put_inv u b : inv P (fetch_put E u b).
Proof. unfold fetch_put. apply bind_inv; [apply emit_inv, HP_put|]. intros _. inv_auto. Qed.

Lemma extract_path_inv u : inv P (extractObjectPathFromUrl u).
Proof. unfold extractObjectPathFromUrl. inv_auto. Qed.

Lemma upload_one_inv k dir r f : inv P (upload_one E k dir r f).
Proof.
  unfold upload_one. inv_auto; try apply fetch_put_inv; try apply extract_path_inv.
Qed.

Lemma upload_loop_inv k dir files : forall r, inv P (upload_loop E k dir r files).
Proof.
  induction files as [|f rest IH]; intros r; simpl; inv_auto.
  apply upload_one_inv.
Qed.

Lemma uploadImages_inv d bd : inv P (uploadImagesFromBackup E d bd).
Proof.
  unfold uploadImagesFromBackup, upload_kind, directoryExists.
  inv_auto; apply upload_loop_inv.
Qed.

Lemma createShop_inv d : inv P (createShop E d).
Proof. unfold createShop. inv_auto. apply emit_inv, HP_ins. Qed.

Lemma restoreShops_inv l : forall c, inv P (restoreShopsToDatabase_from E c l).
Proof.
  induction l as [|s r IH]; intros c; simpl; inv_auto. apply createShop_inv.
Qed.

Lemma extract_entry_inv d e : inv P (extract_entry d e).
Proof. unfold extract_entry. inv_auto. Qed.

Lemma extract_entries_inv d l : inv P (extract_entries d l).
Proof. induction l as [|e r IH]; simpl; inv_auto; auto using extract_entry_inv. Qed.

Lemma extract_background_inv d l : inv P (extract_background d l).
Proof. induction l as [|e r IH]; simpl; inv_auto; auto using extract_entry_inv. Qed.

Lemma cleanup_fuel_inv fuel : forall d, inv P (cleanupDirectory_fuel fuel d).
Proof.
  induction fuel as [|f IH]; intros d; simpl; unfold directoryExists; inv_auto;
    (induction a0 as [|x r IHr]; [inv_auto|]; inv_auto; auto).
Qed.

Lemma cleanupDirectory_inv d : inv P (cleanupDirectory d).
Proof. intros w ev H. exact (cleanup_fuel_inv _ d w ev H). Qed.

Lemma try_finally_inv {A} (b : M A) (f : M unit) : inv P b -> inv P f -> inv P (try_finally b f).
Proof.
  intros Hb Hf w ev H. unfold try_finally in H.
  destruct (b w) as [r w1] eqn:Eb.
  assert (Hw1 : In ev (trace w1) -> In ev (trace w) \/ P ev).
  { intros Hi. specialize (Hb w ev). rewrite Eb in Hb. now apply Hb. }
  destruct (f w1) as [[u|e] w2] eqn:Ef; simpl in H;
    (specialize (Hf w1 ev); rewrite Ef in Hf; destruct (Hf H) as [H1|H1];
     [now apply Hw1 | now right]).
Qed.

Lemma restoreFromZip_inv zip arch : inv P (restoreFromZip E zip arch).
Proof.
  assert (Hfin : inv P (cleanupDirectory (restore_dir E) ;;! cleanupFile zip)).
  { apply bind_inv; [apply cleanupDirectory_inv|]. intros _. unfold cleanupFile. inv_auto. }
  unfold restoreFromZip. apply bind_inv.
  - unfold extractZipFile_run. inv_auto. apply extract_entries_inv.
  - intros s. destruct s as [|e bg].
    + apply try_finally_inv; [|exact Hfin].
      unfold restore_body, parseBackupData. inv_auto; auto using uploadImages_inv.
      apply restoreShops_inv.
    + apply if_inv.
      * apply bind_inv; [apply try_finally_inv; [inv_auto|exact Hfin]|]. intros r.
        apply bind_inv; [apply extract_background_inv|]. intros _. inv_auto.
      * apply bind_inv; [apply extract_background_inv|]. intros _.
        apply try_finally_inv; [inv_auto|exact Hfin].
Qed.

End Inv.
End RestoreTrace.

Definition put_is_jpeg (ev : Event) : Prop :=
  match ev with
  | EvPut _ ct _ => ct = "image/jpeg"
  | _ => True
  end.

(** Concrete runs: a full backup of three shops and its restore. *)
Module Run.
Import Scenario.

Definition backup0 := createFullBackup env0 world0.

Definition archive0 : list ZipEntry :=
  match fst backup0 with
  | Ok (ZipResponse _ es) => es
  | _ => []
  end.

Definition restore0 := restoreFromZip env0 zip (Some archive0) (snd backup0).

Definition backup1 := createFullBackup env1 world0.

Definition archive1 : list ZipEntry :=
  match fst backup1 with Ok (ZipResponse _ es) => es | _ => [] end.

Definition filename1 : string :=
  match fst backup1 with Ok (ZipResponse fn _) => fn | _ => "" end.

Definition restore1 := restoreFromZip env1 zip (Some archive1) (snd backup1).

End Run.

(** C10: every PUT that a restore sends to object storage carries the
    header [Content-Type: image/jpeg], whatever the file (logo or map,
    .png, .gif or .webp name): any PUT event in the trace after
    [restoreFromZip] either was there before or has that header. *)
Theorem restore_put_content_type_jpeg :
  forall (E : Env) (zipFilePath : path) (archive : option (list ZipEntry)) (w : World)
         (u ct : string) (b : Content),
    In (EvPut u ct b) (trace (snd (restoreFromZip E zipFilePath archive w))) ->
    In (EvPut u ct b) (trace w) \/ ct = "image/jpeg".
Proof.
  intros E zipFilePath archive w u ct b H.
  destruct (RestoreTrace.restoreFromZip_inv put_is_jpeg E ltac:(reflexivity) ltac:(constructor)
              zipFilePath archive w _ H) as [H1|H1]; auto.
Qed.

Lemma restore_put_content_type_jpeg_witness :
  nth_error (trace (snd Run.restore0)) 2 =
    Some (EvPut "https://storage.googleapis.com/bucket/.private/uploads/u0?X=1" "image/jpeg"
                (CBlob "bytes of http://localhost:5000/objects/abc")) /\
  (In (EvPut "https://storage.googleapis.com/bucket/.private/uploads/u0?X=1" "image/jpeg"
                (CBlob "bytes of http://localhost:5000/objects/abc")) (trace (snd Run.backup0))
   \/ "image/jpeg" = "image/jpeg").
Proof.
  assert (H : nth_error (trace (snd Run.restore0)) 2 =
    Some (EvPut "https://storage.googleapis.com/bucket/.private/uploads/u0?X=1" "image/jpeg"
                (CBlob "bytes of http://localhost:5000/objects/abc"))) by (vm_compute; reflexivity).
  split; [exact H|].
  apply (restore_put_content_type_jpeg Scenario.env0 Scenario.zip (Some Run.archive0) (snd Run.backup0)).
  exact (nth_error_In _ _ H).
Defined.

(** ** Asset Fetcher ([downloadImage]) *)

(** The reference shapes of the spec, as [downloadImage] tests them. *)
Definition is_stored_ref (u : string) : bool := JS.startsWith u "/objects/".
Definition is_local_ref (u : string) : bool :=
  JS.startsWith u "/" && negb (JS.startsWith u "/objects/").
Definition is_external_ref (u : string) : bool :=
  negb (JS.startsWith u "/") && JS.startsWith u "http".
Definition is_symbolic_ref (u : string) : bool :=
  negb (JS.startsWith u "/") && negb (JS.startsWith u "http").

(** URL actually fetched for a stored or external reference. *)
Definition fetch_target (u : string) : string :=
  if is_stored_ref u then "http://localhost:5000" ++ u else u.

Definition http_failure (r : HttpResp) : Prop :=
  match r with
  | NetError _ => True
  | Resp ok _ _ _ => ok = false
  end.

Lemma stored_is_slash u : JS.startsWith u "/objects/" = true -> JS.startsWith u "/" = true.
Proof.
  unfold JS.startsWith. destruct u as [|c r]; [discriminate|].
  cbn [String.prefix]. destruct (ascii_dec "/" c); [|discriminate].
  intros _. destruct r; reflexivity.
Qed.

(** C6: [downloadImage] is total: it always returns a value (a file name
    or null) and never throws; a symbolic reference gives null at once and
    leaves the world untouched; a stored or external reference whose fetch
    fails (network error or non-success status) gives null; a local
    reference whose file is absent gives null. *)
Theorem downloadImage_total :
  forall (E : Env) (imageUrl : string) (destinationDir : path) (filename : string) (w : World),
    (exists o w', downloadImage E imageUrl destinationDir filename w = (Ok o, w')) /\
    (is_symbolic_ref imageUrl = true ->
       downloadImage E imageUrl destinationDir filename w = (Ok None, w)) /\
    ((is_stored_ref imageUrl || is_external_ref imageUrl) = true ->
       http_failure (http_get E (fetch_target imageUrl)) ->
       fst (downloadImage E imageUrl destinationDir filename w) = Ok None) /\
    (is_local_ref imageUrl = true ->
       fs w !! join (cwd E) ["client"; "public"; JS.substring1 imageUrl] = None ->
       fst (downloadImage E imageUrl destinationDir filename w) = Ok None).
Proof.
  intros E u dir fn w. unfold is_symbolic_ref, is_stored_ref, is_external_ref, is_local_ref,
    fetch_target.
  split; [|split; [|split]].
  - unfold downloadImage, catch.
    destruct (_ w) as [[o|e] w'] eqn:Eq; eauto.
  - intros Hs. apply andb_prop in Hs as [H1 H2].
    apply negb_true_iff in H1, H2.
    unfold downloadImage, catch. rewrite H1, H2.
    destruct (JS.startsWith u "/objects/") eqn:Eo; [|reflexivity].
    apply stored_is_slash in Eo. congruence.
  - intros Hr Hf. unfold is_stored_ref in Hf.
    destruct (JS.startsWith u "/objects/") eqn:Eo; simpl in Hr, Hf.
    + destruct (http_get E ("http://localhost:5000" ++ u)) as [m|[|] st ct b] eqn:Eh;
        simpl in Hf; try discriminate;
        cbv [downloadImage catch bind fetch_get emit throw ret]; rewrite Eo, Eh; reflexivity.
    + apply andb_prop in Hr as [H1 H2]. apply negb_true_iff in H1.
      destruct (http_get E u) as [m|[|] st ct b] eqn:Eh; simpl in Hf; try discriminate;
        cbv [downloadImage catch bind fetch_get emit throw ret]; rewrite Eo, H1, H2, Eh;
        reflexivity.
  - intros Hl Hmiss. apply andb_prop in Hl as [H1 H2]. apply negb_true_iff in H2.
    unfold downloadImage, catch, bind. rewrite H2, H1. simpl.
    unfold FS.readFile. rewrite Hmiss. reflexivity.
Qed.

Lemma downloadImage_total_witness :
  downloadImage Scenario.env0 "fas fa-crosshairs" ["tmp"] "d4_logo" Scenario.world0
    = (Ok None, Scenario.world0) /\
  fst (downloadImage Scenario.env404 "/objects/missing" ["tmp"] "x_logo" Scenario.world0) = Ok None.
Proof.
  split.
  - apply (proj1 (proj2 (downloadImage_total Scenario.env0 "fas fa-crosshairs" ["tmp"]
                           "d4_logo" Scenario.world0))).
    reflexivity.
  - apply (proj1 (proj2 (proj2 (downloadImage_total Scenario.env404 "/objects/missing" ["tmp"]
                                  "x_logo" Scenario.world0)))); reflexivity.
Defined.

(** ** Data-only backup *)

(** C8: when the shop list [R] can be read, [createDataBackup] leaves the
    world untouched (no fetch, no file) and answers a JSON manifest with
    [totalShops = |R|], the shops of [R], an empty image index and the
    backup type [data-only]. *)
Theorem createDataBackup_manifest :
  forall (E : Env) (R : list Shop) (w : World),
    db_shops E = Some R ->
    exists fn bd,
      createDataBackup E w = (Ok (JsonResponse fn bd), w) /\
      totalShops (metadata bd) = length R /\
      backupType (metadata bd) = DataOnly /\
      shops bd = R /\
      logos (images bd) = ∅ /\ maps (images bd) = ∅.
Proof.
  intros E R w HR. unfold createDataBackup, catch, bind, getShops. rewrite HR.
  cbv [ret]. do 2 eexists. split; [reflexivity|]. simpl. auto.
Qed.

Lemma createDataBackup_manifest_witness :
  db_shops Scenario.env0 = Some [Scenario.shopA; Scenario.shopB; Scenario.shopC] /\
  exists fn bd,
    createDataBackup Scenario.env0 Scenario.world0 = (Ok (JsonResponse fn bd), Scenario.world0) /\
    totalShops (metadata bd) = length [Scenario.shopA; Scenario.shopB; Scenario.shopC] /\
    backupType (metadata bd) = DataOnly /\
    shops bd = [Scenario.shopA; Scenario.shopB; Scenario.shopC] /\
    logos (images bd) = ∅ /\ maps (images bd) = ∅.
Proof.
  split; [reflexivity|].
  apply (createDataBackup_manifest Scenario.env0 _ Scenario.world0). reflexivity.
Defined.

(** ** Backup statistics *)

(** C9 (code bug): the first seeded shop has the icon-font logo
    ["fas fa-crosshairs"], a symbolic reference that [downloadImage] skips
    without a fetch; [getBackupStats] still counts it among the shops with
    a logo image, since it only excludes the literal ["fa-store"]. *)
Theorem getBackupStats_counts_symbolic_logo :
  fst (getBackupStats (Scenario.env_with [Scenario.seed] (fun _ => true)) Scenario.world0)
    = Ok (mkBackupStats 1 1 0 "0KB") /\
  is_symbolic_ref "fas fa-crosshairs" = true /\
  downloadImage (Scenario.env_with [Scenario.seed] (fun _ => true)) "fas fa-crosshairs"
    ["tmp"] "d4_logo" Scenario.world0 = (Ok None, Scenario.world0).
Proof. vm_compute. auto. Qed.

(** ** Insert failures during restore *)

Definition C2_archive : list ZipEntry :=
  [mkEntry "backup-data.json" (EData (CJson (Scenario.manifest [Scenario.shopA])))].

(** C2 (code bug): when the insert of the only shop of the manifest fails,
    [restoreFromZip] reports success with no shop restored and an empty
    [errors] list: [restoreShopsToDatabase] only logs the failure. *)
Theorem restore_insert_failure_not_recorded :
  fst (restoreFromZip (Scenario.env_with [] (fun _ => false)) Scenario.zip (Some C2_archive)
         Scenario.world0)
    = Ok (mkRestoreResult true (restore_message 0 0 0) (mkStats 0 0 0 [])).
Proof. vm_compute. reflexivity. Qed.

(** ** Monad laws and the outcome of [restoreFromZip] *)
Module MonadFacts.

Lemma bind_assoc {A B C} (c : M A) (k1 : A -> M B) (k2 : B -> M C) w :
  bind (bind c k1) k2 w = bind c (fun a => bind (k1 a) k2) w.
Proof. unfold bind. destruct (c w) as [[a|e] w']; reflexivity. Qed.

Lemma bind_ret_l {A B} (a : A) (k : A -> M B) w : bind (ret a) k w = k a w.
Proof. reflexivity. Qed.


Lemma bind_ok {A B} (c : M A) (k : A -> M B) w a w1 :
  c w = (Ok a, w1) -> bind c k w = k a w1.
Proof. intros H. unfold bind. rewrite H. reflexivity. Qed.


Lemma catch_ok {A} (c : M A) (h : string -> M A) w a w1 :
  c w = (Ok a, w1) -> catch c h w = (Ok a, w1).
Proof. intros H. unfold catch. rewrite H. reflexivity. Qed.

Lemma catch_err {A} (c : M A) (h : string -> M A) w e w1 :
  c w = (Err e, w1) -> catch c h w = h e w1.
Proof. intros H. unfold catch. rewrite H. reflexivity. Qed.

Lemma try_finally_ok {A} (body : M A) fin w r w1 w2 :
  body w = (r, w1) -> fin w1 = (Ok tt, w2) -> try_finally body fin w = (r, w2).
Proof. intros H1 H2. unfold try_finally. rewrite H1, H2. reflexivity. Qed.

End MonadFacts.

Module RestoreFacts.
Import MonadFacts.

Section WithEnv.
Variable E : Env.

Lemma catch_unit_ok (c : M unit) w : exists w', catch c (fun _ => ret tt) w = (Ok tt, w').
Proof. unfold catch. destruct (c w) as [[[]|e] w']; eauto. Qed.

Lemma cleanup_fuel_ok fuel d w : exists w', cleanupDirectory_fuel fuel d w = (Ok tt, w').
Proof. destruct fuel; apply catch_unit_ok. Qed.

Lemma finalizer_ok d z w :
  exists w', (cleanupDirectory d ;;! cleanupFile z) w = (Ok tt, w').
Proof.
  unfold bind, cleanupDirectory.
  destruct (cleanup_fuel_ok (max_depth (fs w)) d w) as [w1 ->].
  apply catch_unit_ok.
Qed.







(** The promise of [extractZipFile] resolves exactly when its entry loop
    gets to the end. *)
Lemma extractZipFile_ok zip archive d w w1 :
  extractZipFile zip archive d w = (Ok tt, w1) <->
  extractZipFile_run zip archive d w = (Ok Resolved, w1).
Proof.
  unfold extractZipFile, bind.
  destruct (extractZipFile_run zip archive d w) as [[[|m bg]|e] w2]; cbv [ret throw];
    split; intros H; congruence.
Qed.



(** The entries left to the background are the entries after the one that failed. *)
Lemma extract_entries_bg dir es w m bg w1 :
  extract_entries dir es w = (Ok (Rejected m bg), w1) -> forall x, In x bg -> In x es.
Proof.
  revert w. induction es as [|e es IH]; intros w H x Hx.
  - cbv [extract_entries ret] in H. discriminate.
  - cbn [extract_entries] in H. unfold bind in H.
    destruct (extract_entry dir e w) as [[s|m'] w2]; [|discriminate].
    destruct s as [|m'' [|]].
    + right. exact (IH w2 H x Hx).
    + cbv [ret] in H. injection H as _ <- _. right. exact Hx.
    + cbv [ret] in H. injection H as _ <- _. destruct Hx.
Qed.

End WithEnv.
End RestoreFacts.

(** ** Extraction errors *)








Module PathFacts.

Fixpoint no_slash (s : string) : bool :=
  match s with
  | EmptyString => true
  | String c r => negb (Ascii.eqb c "/"%char) && no_slash r
  end.

(** Segments [normalize] keeps as they are. *)
Definition seg_ok (x : string) : bool :=
  negb (String.eqb x EmptyString || String.eqb x "." || String.eqb x "..").

Lemma no_slash_app a b : no_slash (a ++ b) = no_slash a && no_slash b.
Proof. induction a as [|c r IH]; simpl; [reflexivity|]. rewrite IH. apply andb_assoc. Qed.

Lemma split_slash_no_slash s : no_slash s = true -> JS.split_slash s = [s].
Proof.
  induction s as [|c r IH]; simpl; [reflexivity|].
  intros H. apply andb_prop in H as [H1 H2]. apply negb_true_iff in H1.
  rewrite H1, (IH H2). reflexivity.
Qed.

Lemma split_slash_no_slash_all s : Forall (fun x => no_slash x = true) (JS.split_slash s).
Proof.
  induction s as [|c r IH]; simpl; [repeat constructor|].
  destruct (Ascii.eqb c "/"%char) eqn:Ec; [constructor; [reflexivity|exact IH]|].
  destruct (JS.split_slash r) as [|h t]; [repeat constructor; simpl; rewrite Ec; reflexivity|].
  inversion IH; subst. constructor; [simpl; rewrite Ec; assumption|assumption].
Qed.

Lemma last_forall {A} (P : A -> Prop) (l : list A) d : Forall P l -> P d -> P (List.last l d).
Proof.
  intros H Hd. induction H as [|x l Hx Hl IH]; [exact Hd|].
  destruct l; [exact Hx|exact IH].
Qed.

Lemma substring_no_slash n m s : no_slash s = true -> no_slash (String.substring n m s) = true.
Proof.
  revert n m. induction s as [|c r IH]; intros n m H.
  - destruct n, m; reflexivity.
  - simpl in H. apply andb_prop in H as [H1 H2].
    destruct n; [destruct m; simpl; [reflexivity|rewrite H1; apply IH, H2]|].
    simpl. apply IH, H2.
Qed.

Lemma lower_ascii_slash c : Ascii.eqb (JS.lower_ascii c) "/"%char = Ascii.eqb c "/"%char.
Proof. destruct c as [[] [] [] [] [] [] [] []]; reflexivity. Qed.

Lemma toLowerCase_no_slash s : no_slash (JS.toLowerCase s) = no_slash s.
Proof. induction s as [|c r IH]; simpl; [reflexivity|]. rewrite lower_ascii_slash, IH. reflexivity. Qed.

Lemma extname_no_slash s : no_slash (extname s) = true.
Proof.
  unfold extname.
  assert (Hb : no_slash (List.last (JS.split_slash s) EmptyString) = true).
  { apply (last_forall (fun x => no_slash x = true)); [apply split_slash_no_slash_all|reflexivity]. }
  destruct (last_dot_aux _ 0 None) as [[|i]|]; try reflexivity.
  apply substring_no_slash, Hb.
Qed.

Lemma normalize_rev_ok acc l :
  Forall (fun x => seg_ok x = true) l -> normalize_rev acc l = (rev l ++ acc)%list.
Proof.
  revert acc. induction l as [|x l IH]; intros acc H; [reflexivity|].
  inversion H as [|? ? Hx Hl]; subst. simpl. unfold seg_ok in Hx.
  apply negb_true_iff in Hx. apply orb_false_iff in Hx as [Hx H3].
  apply orb_false_iff in Hx as [H1 H2]. rewrite H1, H2, H3. simpl.
  rewrite IH by exact Hl. rewrite <- app_assoc. reflexivity.
Qed.

Lemma normalize_ok l : Forall (fun x => seg_ok x = true) l -> normalize l = l.
Proof.
  intros H. unfold normalize. rewrite normalize_rev_ok by exact H.
  rewrite app_nil_r. apply rev_involutive.
Qed.

Lemma join_ok base parts :
  Forall (fun x => seg_ok x = true) base ->
  Forall (fun x => no_slash x = true /\ seg_ok x = true) parts ->
  join base parts = (base ++ parts)%list.
Proof.
  intros Hb Hp. unfold join.
  assert (Hc : concat (map JS.split_slash parts) = parts).
  { induction Hp as [|x l [Hx _] _ IH]; [reflexivity|].
    simpl. rewrite split_slash_no_slash by exact Hx. simpl. f_equal. exact IH. }
  rewrite Hc. apply normalize_ok. apply Forall_app; split; [exact Hb|].
  eapply Forall_impl; [exact Hp|]. intros x [_ H]; exact H.
Qed.

Lemma seg_ok_long x : 3 <= String.length x -> seg_ok x = true.
Proof.
  intros H. unfold seg_ok.
  destruct (String.eqb_spec x EmptyString) as [->|]; [simpl in H; lia|].
  destruct (String.eqb_spec x ".") as [->|]; [simpl in H; lia|].
  destruct (String.eqb_spec x "..") as [->|]; [simpl in H; lia|].
  reflexivity.
Qed.

Lemma length_app (a b : string) : String.length (a ++ b) = String.length a + String.length b.
Proof. induction a; simpl; [reflexivity|]. rewrite IHa. reflexivity. Qed.

Lemma strip_prefix_app (p r : path) : FS.strip_prefix p (p ++ r)%list = Some r.
Proof.
  induction p as [|x p IH]; [reflexivity|]. simpl. rewrite String.eqb_refl. exact IH.
Qed.

Lemma strip_prefix_Some p k r : FS.strip_prefix p k = Some r -> k = (p ++ r)%list.
Proof.
  revert k. induction p as [|x p IH]; intros k H; simpl in H.
  - simpl; congruence.
  - destruct k as [|y k]; [discriminate|].
    destruct (String.eqb_spec x y) as [->|]; [|discriminate].
    simpl. f_equal. apply IH, H.
Qed.

End PathFacts.

Module FsFacts.

(** How a computation may change the file system, as a relation between
    the file system before and after it. *)
Definition pres (R : gmap path FNode -> gmap path FNode -> Prop) {A} (c : M A) : Prop :=
  forall w, R (fs w) (fs (snd (c w))).

Definition fs_same {A} (c : M A) : Prop := forall w, fs (snd (c w)) = fs w.

Section Rules.
Variable R : gmap path FNode -> gmap path FNode -> Prop.
Context `{!PreOrder R}.

Lemma pres_ret {A} (a : A) : pres R (ret a).
Proof. intros w. reflexivity. Qed.

Lemma pres_throw {A} m : pres R (@throw A m).
Proof. intros w. reflexivity. Qed.

Lemma pres_bind {A B} (c : M A) (k : A -> M B) :
  pres R c -> (forall a, pres R (k a)) -> pres R (bind c k).
Proof.
  intros Hc Hk w. unfold bind. specialize (Hc w).
  destruct (c w) as [[a|e] w'] eqn:E; simpl in *; [|exact Hc].
  etransitivity; [exact Hc|apply Hk].
Qed.

Lemma pres_catch {A} (c : M A) (h : string -> M A) :
  pres R c -> (forall e, pres R (h e)) -> pres R (catch c h).
Proof.
  intros Hc Hh w. unfold catch. specialize (Hc w).
  destruct (c w) as [[a|e] w'] eqn:E; simpl in *; [exact Hc|].
  etransitivity; [exact Hc|apply Hh].
Qed.

Lemma pres_same {A} (c : M A) : fs_same c -> pres R c.
Proof. intros H w. rewrite H. reflexivity. Qed.

End Rules.

Lemma same_emit e : fs_same (emit e).
Proof. intros w. reflexivity. Qed.

Lemma same_readFile p : fs_same (FS.readFile p).
Proof. intros w. unfold FS.readFile. repeat case_match; reflexivity. Qed.

Lemma same_readdir p : fs_same (FS.readdir p).
Proof. intros w. unfold FS.readdir. case_match; reflexivity. Qed.

Lemma same_stat p : fs_same (FS.stat_isDirectory p).
Proof. intros w. unfold FS.stat_isDirectory. repeat case_match; reflexivity. Qed.

Lemma same_bind {A B} (c : M A) (k : A -> M B) :
  fs_same c -> (forall a, fs_same (k a)) -> fs_same (bind c k).
Proof.
  intros Hc Hk w. unfold bind. specialize (Hc w).
  destruct (c w) as [[a|e] w'] eqn:E; simpl in *; [|exact Hc].
  rewrite Hk. exact Hc.
Qed.

Lemma same_catch {A} (c : M A) (h : string -> M A) :
  fs_same c -> (forall e, fs_same (h e)) -> fs_same (catch c h).
Proof.
  intros Hc Hh w. unfold catch. specialize (Hc w).
  destruct (c w) as [[a|e] w'] eqn:E; simpl in *; [exact Hc|].
  rewrite Hh. exact Hc.
Qed.

Lemma same_ret {A} (a : A) : fs_same (ret a).
Proof. intros w. reflexivity. Qed.

Lemma same_throw {A} m : fs_same (@throw A m).
Proof. intros w. reflexivity. Qed.

Create HintDb fssame.
#[export] Hint Resolve same_emit same_readFile same_readdir same_stat same_bind same_catch
  same_ret same_throw : fssame.

Ltac same_step :=
  match goal with
  | |- fs_same (bind _ _) => apply same_bind; [|intro]
  | |- fs_same (catch _ _) => apply same_catch; [|intro]
  | |- fs_same (match ?x with _ => _ end) => destruct x
  | |- fs_same (if ?x then _ else _) => destruct x
  | |- _ => progress (eauto with fssame)
  end.

Section Env.
Variable E : Env.

Lemma same_directoryExists p : fs_same (directoryExists p).
Proof. unfold directoryExists. repeat same_step. Qed.

Lemma same_getURL : fs_same (getObjectEntityUploadURL E).
Proof. intros w. unfold getObjectEntityUploadURL. case_match; reflexivity. Qed.

Lemma same_fetch_put u b : fs_same (fetch_put E u b).
Proof. unfold fetch_put. repeat same_step. Qed.

Lemma same_fetch_get u : fs_same (fetch_get E u).
Proof. unfold fetch_get. repeat same_step. Qed.

Lemma same_extract u : fs_same (extractObjectPathFromUrl u).
Proof. unfold extractObjectPathFromUrl. repeat same_step. Qed.

Lemma same_upload_one k dir r f : fs_same (upload_one E k dir r f).
Proof.
  unfold upload_one. apply same_catch; [|intros; apply same_ret].
  apply same_bind; [apply same_getURL|intros u].
  apply same_bind; [apply same_readFile|intros b].
  apply same_bind; [apply same_fetch_put|intros resp].
  destruct resp as [|[|] ? ? ?]; repeat same_step; apply same_extract.
Qed.

Lemma same_upload_loop k dir r files : fs_same (upload_loop E k dir r files).
Proof.
  revert r. induction files as [|f rest IH]; intros r; simpl; [apply same_ret|].
  apply same_bind; [apply same_upload_one|intros; apply IH].
Qed.

Lemma same_upload_kind k d r : fs_same (upload_kind E k d r).
Proof.
  unfold upload_kind. apply same_bind; [apply same_directoryExists|intros []];
    [|apply same_ret].
  apply same_bind; [apply same_readdir|intros; apply same_upload_loop].
Qed.

Lemma same_uploadImages d bd : fs_same (uploadImagesFromBackup E d bd).
Proof.
  unfold uploadImagesFromBackup. apply same_bind; [apply same_upload_kind|intros; apply same_upload_kind].
Qed.

Lemma same_createShop d : fs_same (createShop E d).
Proof. unfold createShop. repeat same_step. Qed.

Lemma same_restoreShops_from n l : fs_same (restoreShopsToDatabase_from E n l).
Proof.
  revert n. induction l as [|s l IH]; intros n; simpl; [apply same_ret|].
  apply same_bind; [|intros; apply IH].
  apply same_catch; [|intros; apply same_ret].
  apply same_bind; [apply same_createShop|intros; apply same_ret].
Qed.

Lemma same_parse p : fs_same (parseBackupData p).
Proof. unfold parseBackupData. repeat same_step. Qed.

End Env.

End FsFacts.

Module FsWf.
Import FsFacts.

(** Every proper prefix of a key is a directory. *)
Definition wf (f : gmap path FNode) : Prop :=
  forall (k : path) x v, f !! (k ++ [x])%list = Some v -> k = [] \/ f !! k = Some FDir.

Definition wf_rel (f f' : gmap path FNode) : Prop := wf f -> wf f'.

#[export] Instance wf_rel_preorder : PreOrder wf_rel.
Proof. split; [intros f H; exact H|intros f g h H1 H2 H; auto]. Qed.

Definition is_file (v : FNode) : bool := match v with FFile _ => true | FDir => false end.

(** Files stay files and directories stay directories. *)
Definition grows (f f' : gmap path FNode) : Prop :=
  forall (k : path) v, f !! k = Some v -> exists v', f' !! k = Some v' /\ is_file v' = is_file v.

#[export] Instance grows_preorder : PreOrder grows.
Proof.
  split.
  - intros f k v H. eauto.
  - intros f g h H1 H2 k v H. destruct (H1 k v H) as [v1 [Hv1 E1]].
    destruct (H2 k v1 Hv1) as [v2 [Hv2 E2]]. exists v2. split; [exact Hv2|congruence].
Qed.

Lemma wf_prefix f k r v :
  wf f -> f !! (k ++ r)%list = Some v -> r <> [] -> k = [] \/ f !! k = Some FDir.
Proof.
  intros Hwf. revert v. induction r as [|x r IH] using rev_ind; intros v H Hr; [congruence|].
  rewrite app_assoc in H. destruct (Hwf _ _ _ H) as [H1|H1].
  - left. apply app_eq_nil in H1. tauto.
  - destruct r as [|y r'].
    + rewrite app_nil_r in H1. right. exact H1.
    + apply (IH FDir H1). discriminate.
Qed.

(** [mkdir_aux] only adds directories, on the prefixes of the target. *)
Lemma mkdir_aux_spec pre rest f f' :
  FS.mkdir_aux pre rest f = Ok f' ->
  (forall k : path, f' !! k = f !! k \/
             (f !! k = None /\ f' !! k = Some FDir /\
              exists r1 r2 : path, r1 <> [] /\ rest = (r1 ++ r2)%list /\ k = (pre ++ r1)%list)) /\
  (rest <> [] -> f' !! (pre ++ rest)%list = Some FDir).
Proof.
  revert pre f. induction rest as [|x rest IH]; intros pre f H; simpl in H.
  - injection H as <-. split; [auto|congruence].
  - destruct (f !! (pre ++ [x])%list) as [[|c]|] eqn:Eq; [| discriminate |].
    + destruct (IH _ _ H) as [H1 H2]. split.
      * intros k. destruct (H1 k) as [->|[Hn [Hd [r1 [r2 [Hr1 [-> ->]]]]]]]; [auto|].
        right. split; [exact Hn|]. split; [exact Hd|].
        exists (x :: r1), r2. split; [discriminate|]. split; [reflexivity|].
        rewrite <- app_assoc. reflexivity.
      * intros _. destruct rest as [|y rest].
        -- destruct (H1 (pre ++ [x])%list) as [->|[Hn _]]; congruence.
        -- rewrite <- (H2 ltac:(discriminate)). rewrite <- app_assoc. reflexivity.
    + destruct (IH _ _ H) as [H1 H2]. split.
      * intros k. destruct (H1 k) as [Hk|[Hn [Hd [r1 [r2 [Hr1 [-> ->]]]]]]].
        -- destruct (decide (k = pre ++ [x])%list) as [->|Hne].
           ++ right. split; [exact Eq|]. split; [rewrite Hk; apply lookup_insert_eq|].
              exists [x], rest. split; [discriminate|]. auto.
           ++ left. rewrite Hk. apply lookup_insert_ne. congruence.
        -- right. rewrite lookup_insert_None in Hn. destruct Hn as [Hn _].
           split; [exact Hn|]. split; [exact Hd|].
           exists (x :: r1), r2. split; [discriminate|]. split; [reflexivity|].
           rewrite <- app_assoc. reflexivity.
      * intros _. destruct rest as [|y rest].
        -- destruct (H1 (pre ++ [x])%list) as [->|[Hn _]].
           ++ apply lookup_insert_eq.
           ++ rewrite lookup_insert_eq in Hn. discriminate.
        -- rewrite <- (H2 ltac:(discriminate)). rewrite <- app_assoc. reflexivity.
Qed.


Lemma mkdir_p_spec p w :
  (exists f', FS.mkdir_aux [] p (fs w) = Ok f' /\
              FS.mkdir_p p w = (Ok tt, mkWorld f' (trace w) (upload_calls w))) \/
  (exists e, FS.mkdir_aux [] p (fs w) = Err e /\ FS.mkdir_p p w = (Err e, w)).
Proof.
  unfold FS.mkdir_p. destruct (FS.mkdir_aux [] p (fs w)) as [f'|e]; [left|right]; eauto.
Qed.


Lemma pres_grows_mkdir p : pres grows (FS.mkdir_p p).
Proof.
  intros w. destruct (mkdir_p_spec p w) as [[f' [H1 ->]]|[e [H1 ->]]]; [|reflexivity].
  destruct (mkdir_aux_spec _ _ _ _ H1) as [H _]. cbn [fs snd].
  intros k v Hk. destruct (H k) as [He|[Hn _]].
  - exists v. rewrite He. auto.
  - rewrite Hn in Hk. discriminate.
Qed.

Lemma writeFile_spec p c w :
  (FS.writeFile p c w = (Ok tt, mkWorld (<[p := FFile c]> (fs w)) (trace w) (upload_calls w)) /\
   fs w !! p <> Some FDir /\ FS.is_dir (fs w) (dirname p) = true /\ p <> []) \/
  (exists e, FS.writeFile p c w = (Err e, w)).
Proof.
  unfold FS.writeFile. destruct (fs w !! p) as [[|c0]|] eqn:Ep; [right; eauto| |];
    (destruct (FS.is_dir (fs w) (dirname p)) eqn:Ed; [|right; eauto]);
    (destruct (bool_decide (p <> [])) eqn:Eb; [|right; eauto]); simpl;
    apply bool_decide_eq_true in Eb; left; repeat split; auto; congruence.
Qed.




Lemma pres_grows_writeFile p c : pres grows (FS.writeFile p c).
Proof.
  intros w. destruct (writeFile_spec p c w) as [[-> [Hnd _]]|[e ->]]; [|reflexivity].
  cbn [fs snd]. intros k v Hk. destruct (decide (k = p)) as [->|Hne].
  - rewrite lookup_insert_eq. exists (FFile c). split; [reflexivity|].
    destruct v; [congruence|reflexivity].
  - rewrite lookup_insert_ne by congruence. eauto.
Qed.

End FsWf.

Module FsClean.
Import FsFacts FsWf PathFacts.

Definition seg_clean (x : string) : bool := no_slash x && seg_ok x.

(** Every segment of every key is a plain file name. *)
Definition clean_keys (f : gmap path FNode) : Prop :=
  forall k v, f !! k = Some v -> Forall (fun x => seg_clean x = true) k.

Definition below_b (d k : path) : bool :=
  match FS.strip_prefix d k with Some _ => true | None => false end.

(** The file system without the keys for which [P] holds. *)
Definition rm_set (P : path -> bool) (f : gmap path FNode) : gmap path FNode :=
  filter (fun kv : path * FNode => P kv.1 = false) f.

Lemma lookup_rm_set P f k : rm_set P f !! k = if P k then None else f !! k.
Proof.
  unfold rm_set. rewrite map_lookup_filter.
  destruct (f !! k) as [v|]; simpl; [|destruct (P k); reflexivity].
  case_guard as Hg; simpl in Hg; destruct (P k); simpl; congruence.
Qed.

Lemma rm_set_rm_set P Q f : rm_set P (rm_set Q f) = rm_set (fun k => Q k || P k) f.
Proof.
  apply map_eq. intros k. rewrite !lookup_rm_set.
  destruct (Q k), (P k); reflexivity.
Qed.

Lemma below_b_app d r : below_b d (d ++ r)%list = true.
Proof. unfold below_b. rewrite strip_prefix_app. reflexivity. Qed.

Lemma below_b_refl p : below_b p p = true.
Proof. rewrite <- (app_nil_r p) at 2. apply below_b_app. Qed.

Lemma below_b_spec d k : below_b d k = true <-> exists r, k = (d ++ r)%list.
Proof.
  unfold below_b. split.
  - destruct (FS.strip_prefix d k) as [r|] eqn:E; [|discriminate]. intros _.
    exists r. apply strip_prefix_Some, E.
  - intros [r ->]. rewrite strip_prefix_app. reflexivity.
Qed.

Lemma elem_of_children f p n : n ∈ FS.children f p <-> exists v, f !! (p ++ [n])%list = Some v.
Proof.
  unfold FS.children. rewrite list_elem_of_omap. split.
  - intros [[k v] [Hin Hs]]. simpl in Hs.
    destruct (FS.strip_prefix p k) as [[|x [|y r]]|] eqn:E; try discriminate.
    injection Hs as ->. apply strip_prefix_Some in E. subst k.
    exists v. apply elem_of_map_to_list, Hin.
  - intros [v Hv]. exists ((p ++ [n])%list, v). split.
    + apply elem_of_map_to_list, Hv.
    + simpl. rewrite strip_prefix_app. reflexivity.
Qed.

Lemma NoDup_omap_inj {A B} (g : A -> option B) (l : list A) :
  NoDup l ->
  (forall x y z, x ∈ l -> y ∈ l -> g x = Some z -> g y = Some z -> x = y) ->
  NoDup (omap g l).
Proof.
  induction 1 as [|x l Hx Hl IH]; intros Hinj; [constructor|]. simpl.
  assert (IH' : NoDup (omap g l)).
  { apply IH. intros a b z Ha Hb. apply Hinj; apply elem_of_cons; right; assumption. }
  destruct (g x) as [z|] eqn:Eg; [|exact IH'].
  constructor; [|exact IH'].
  intros Hz. apply list_elem_of_omap in Hz as [y [Hy Hgy]].
  assert (x = y) as <- by (apply (Hinj x y z); [apply elem_of_cons; left; reflexivity|apply elem_of_cons; right; exact Hy|exact Eg|exact Hgy]).
  contradiction.
Qed.

Lemma NoDup_children f p : NoDup (FS.children f p).
Proof.
  unfold FS.children. apply NoDup_omap_inj; [apply NoDup_map_to_list|].
  intros [k1 v1] [k2 v2] z H1 H2 G1 G2. simpl in G1, G2.
  destruct (FS.strip_prefix p k1) as [[|a [|b r]]|] eqn:E1; try discriminate.
  destruct (FS.strip_prefix p k2) as [[|c [|e r]]|] eqn:E2; try discriminate.
  apply strip_prefix_Some in E1, E2. injection G1 as <-. injection G2 as ->. subst.
  apply elem_of_map_to_list in H1, H2. rewrite H1 in H2. injection H2 as ->. reflexivity.
Qed.

Lemma max_depth_ge f k v : f !! k = Some v -> length k <= max_depth f.
Proof.
  intros H. apply elem_of_map_to_list in H. unfold max_depth.
  induction (map_to_list f) as [|[k' v'] l IH]; simpl.
  - apply elem_of_nil in H. contradiction.
  - apply elem_of_cons in H as [H|H].
    + injection H as -> ->. simpl. lia.
    + specialize (IH H). lia.
Qed.

Lemma wf_rm_below d f : wf f -> wf (rm_set (below_b d) f).
Proof.
  intros Hwf k x v. rewrite !lookup_rm_set.
  destruct (below_b d (k ++ [x])%list) eqn:Eb; [discriminate|]. intros Hk.
  destruct (Hwf _ _ _ Hk) as [->|Hd]; [left; reflexivity|right].
  destruct (below_b d k) eqn:Ek; [|exact Hd].
  apply below_b_spec in Ek as [r ->]. rewrite <- app_assoc, below_b_app in Eb. discriminate.
Qed.

Lemma clean_rm_set P f : clean_keys f -> clean_keys (rm_set P f).
Proof. intros H k v. rewrite lookup_rm_set. destruct (P k); [discriminate|apply H]. Qed.

(** Below a file there is nothing. *)
Lemma wf_file_leaf f k c r :
  wf f -> k <> [] -> f !! k = Some (FFile c) -> r <> [] -> f !! (k ++ r)%list = None.
Proof.
  intros Hwf Hne Hk Hr. destruct (f !! (k ++ r)%list) eqn:E; [|reflexivity].
  destruct (wf_prefix _ _ _ _ Hwf E Hr) as [->|Hd]; congruence.
Qed.

Lemma existsb_false_iff {A} (g : A -> bool) l : existsb g l = false <-> forall x, x ∈ l -> g x = false.
Proof.
  induction l as [|y l IH]; simpl.
  - split; [intros _ x Hx; apply elem_of_nil in Hx; contradiction|reflexivity].
  - rewrite orb_false_iff, IH. split.
    + intros [H1 H2] x Hx. apply elem_of_cons in Hx as [->|Hx]; auto.
    + intros H. split; [apply H, list_elem_of_here|intros x Hx; apply H, list_elem_of_further, Hx].
Qed.

Lemma existsb_true_iff {A} (g : A -> bool) l : existsb g l = true <-> exists x, x ∈ l /\ g x = true.
Proof.
  rewrite existsb_exists. split; intros [x [H1 H2]]; exists x; split; auto;
    apply list_elem_of_In; assumption.
Qed.

Lemma join_clean_child d n :
  Forall (fun x => seg_clean x = true) (d ++ [n])%list -> join d [n] = (d ++ [n])%list.
Proof.
  intros H. apply Forall_app in H as [Hd Hn]. apply join_ok.
  - eapply Forall_impl; [exact Hd|]. intros x Hx. apply andb_prop in Hx. tauto.
  - eapply Forall_impl; [exact Hn|]. intros x Hx. apply andb_prop in Hx. tauto.
Qed.

Lemma stat_spec p w v :
  p <> [] -> fs w !! p = Some v -> FS.stat_isDirectory p w = (Ok (negb (is_file v)), w).
Proof.
  intros Hp Hv. unfold FS.stat_isDirectory. destruct p; [congruence|]. rewrite Hv.
  destruct v; reflexivity.
Qed.

Lemma stat_none p w :
  p <> [] -> fs w !! p = None -> exists e, FS.stat_isDirectory p w = (Err e, w).
Proof.
  intros Hp Hv. unfold FS.stat_isDirectory. destruct p; [congruence|]. rewrite Hv. eauto.
Qed.

Definition height (d : path) (fuel : nat) (f : gmap path FNode) : Prop :=
  forall r, r <> [] -> f !! (d ++ r)%list = Some FDir -> length r <= fuel.

Definition cleanup_pre (d : path) (fuel : nat) (w : World) : Prop :=
  wf (fs w) /\ clean_keys (fs w) /\ d <> [] /\ fs w !! d = Some FDir /\ height d fuel (fs w).

Definition cleanup_post (d : path) (w : World) : World :=
  mkWorld (rm_set (below_b d) (fs w)) (trace w) (upload_calls w).

Section Loop.
Variable fuel : nat.
Variable d : path.

(** The inner [for] loop of [cleanupDirectory_fuel], by name. *)
Fixpoint cleanup_loop (l : list string) : M unit :=
  match l with
  | [] => ret tt
  | file :: r =>
      let filePath := join d [file] in
      let! isDir := FS.stat_isDirectory filePath in
      (if isDir then
         match fuel with
         | O => ret tt
         | S f => cleanupDirectory_fuel f filePath
         end
       else FS.unlink filePath) ;;!
      cleanup_loop r
  end.

Hypothesis IHf : match fuel with
                 | O => True
                 | S f => forall d' w, cleanup_pre d' f w ->
                            cleanupDirectory_fuel f d' w = (Ok tt, cleanup_post d' w)
                 end.

Lemma below_child_ne (n m : string) r : m <> n -> below_b (d ++ [n]) (d ++ [m] ++ r)%list = false.
Proof.
  intros Hne. destruct (below_b _ _) eqn:E; [|reflexivity].
  apply below_b_spec in E as [r' E]. rewrite <- app_assoc in E.
  apply app_inv_head in E. simpl in E. injection E as E. congruence.
Qed.

Lemma cleanup_loop_spec l : forall w,
  wf (fs w) -> clean_keys (fs w) -> d <> [] -> NoDup l ->
  (forall n, n ∈ l -> is_Some (fs w !! (d ++ [n])%list)) -> height d fuel (fs w) ->
  cleanup_loop l w =
    (Ok tt, mkWorld (rm_set (fun k => existsb (fun n => below_b (d ++ [n]) k) l) (fs w))
                    (trace w) (upload_calls w)).
Proof.
  induction l as [|n l IH]; intros w Hwf Hcl Hd Hnd Hin Hh.
  - simpl. f_equal. destruct w as [f t u]. f_equal. apply map_eq. intros k.
    rewrite lookup_rm_set. reflexivity.
  - apply NoDup_cons in Hnd as [Hnl Hnd].
    destruct (Hin n (list_elem_of_here _ _)) as [v Hv].
    assert (Hj : join d [n] = (d ++ [n])%list) by (apply join_clean_child, (Hcl _ _ Hv)).
    assert (Hne : (d ++ [n])%list <> []) by (destruct d; discriminate).
    (* the state after the child [n] is removed *)
    set (w1 := cleanup_post (d ++ [n])%list w).
    assert (Hstep : (if negb (is_file v) then
                       match fuel with O => ret tt | S f => cleanupDirectory_fuel f (d ++ [n])%list end
                     else FS.unlink (d ++ [n])%list) w = (Ok tt, w1)).
    { destruct v as [|c]; simpl.
      - destruct fuel as [|f] eqn:Ef.
        + exfalso. specialize (Hh [n] ltac:(discriminate) Hv). simpl in Hh. lia.
        + apply IHf. repeat split; auto.
          intros r Hr Hk. rewrite <- app_assoc in Hk. specialize (Hh ([n] ++ r)%list ltac:(discriminate) Hk).
          simpl in Hh. lia.
      - unfold FS.unlink. rewrite Hv. unfold w1, cleanup_post. f_equal. f_equal.
        apply map_eq. intros k. rewrite lookup_rm_set, lookup_delete.
        destruct (decide (d ++ [n] = k)%list) as [<-|Hk]; [rewrite below_b_refl; reflexivity|].
        destruct (below_b (d ++ [n]) k) eqn:Eb; [|reflexivity].
        apply below_b_spec in Eb as [r ->]. destruct r as [|y r]; [rewrite app_nil_r in Hk; congruence|].
        apply (wf_file_leaf _ _ c); auto; discriminate. }
    simpl cleanup_loop. rewrite Hj. cbv [bind]. rewrite (stat_spec _ _ _ Hne Hv).
    rewrite Hstep. rewrite IH.
    + unfold w1, cleanup_post. simpl. rewrite rm_set_rm_set. reflexivity.
    + apply wf_rm_below, Hwf.
    + apply clean_rm_set, Hcl.
    + exact Hd.
    + exact Hnd.
    + intros m Hm. unfold w1, cleanup_post. simpl. rewrite lookup_rm_set.
      pose proof (below_child_ne n m [] ltac:(intros ->; contradiction)) as Hb.
      rewrite app_nil_r in Hb. rewrite Hb.
      apply Hin, list_elem_of_further, Hm.
    + intros r Hr Hk. unfold w1, cleanup_post in Hk. simpl in Hk. rewrite lookup_rm_set in Hk.
      destruct (below_b _ _); [discriminate|]. apply (Hh r Hr Hk).
Qed.

End Loop.

Lemma cleanup_unfold fuel d w :
  cleanupDirectory_fuel fuel d w =
  catch (let! ex := directoryExists d in
         if ex then (let! files := FS.readdir d in cleanup_loop fuel d files ;;! FS.rmdir d)
         else ret tt)
        (fun _ => ret tt) w.
Proof. destruct fuel; reflexivity. Qed.

Lemma children_rm_children f d :
  FS.children (rm_set (fun k => existsb (fun n => below_b (d ++ [n]) k) (FS.children f d)) f) d = [].
Proof.
  destruct (FS.children _ d) as [|x l] eqn:Ech; [reflexivity|exfalso].
  assert (Hx : x ∈ FS.children (rm_set (fun k => existsb (fun n => below_b (d ++ [n]) k)
                                          (FS.children f d)) f) d)
    by (rewrite Ech; apply list_elem_of_here).
  apply elem_of_children in Hx as [v Hv]. rewrite lookup_rm_set in Hv.
  destruct (existsb _ _) eqn:Ex; [discriminate|].
  pose proof (proj1 (existsb_false_iff _ _) Ex x) as Ex'. cbv beta in Ex'. rewrite below_b_refl in Ex'.
  assert (true = false); [apply Ex', elem_of_children; eauto|discriminate].
Qed.

Lemma rm_children_dir f d :
  wf f -> d <> [] ->
  delete d (rm_set (fun k => existsb (fun n => below_b (d ++ [n]) k) (FS.children f d)) f) =
  rm_set (below_b d) f.
Proof.
  intros Hwf Hd. apply map_eq. intros k.
  rewrite lookup_delete, !lookup_rm_set.
  destruct (decide (d = k)) as [<-|Hk]; [rewrite below_b_refl; reflexivity|].
  destruct (below_b d k) eqn:Eb.
  - apply below_b_spec in Eb as [r ->]. destruct r as [|x r]; [rewrite app_nil_r in Hk; congruence|].
    destruct (f !! (d ++ x :: r)%list) as [v|] eqn:Ev; [|destruct (existsb _ _); reflexivity].
    replace (existsb _ _) with true; [reflexivity|]. symmetry. apply existsb_true_iff.
    exists x. split.
    + apply elem_of_children. destruct r as [|y r]; [eauto|].
      destruct (wf_prefix f (d ++ [x])%list (y :: r) v Hwf) as [He|He].
      * rewrite <- app_assoc. exact Ev.
      * discriminate.
      * destruct d; discriminate.
      * eauto.
    + change (x :: r) with ([x] ++ r)%list. rewrite app_assoc. apply below_b_app.
  - replace (existsb _ _) with false; [reflexivity|]. symmetry. apply existsb_false_iff.
    intros n _. destruct (below_b (d ++ [n]) k) eqn:E; [|reflexivity].
    apply below_b_spec in E as [r ->]. rewrite <- app_assoc, below_b_app in Eb. discriminate.
Qed.

Lemma cleanup_fuel_spec fuel : forall d w,
  cleanup_pre d fuel w -> cleanupDirectory_fuel fuel d w = (Ok tt, cleanup_post d w).
Proof.
  induction fuel as [|f IH]; intros d w [Hwf [Hcl [Hd [Hdir Hh]]]];
  [pose (fu := O) | pose (fu := S f)];
  (assert (HIH : match fu with O => True | S f => forall d' w, cleanup_pre d' f w ->
                   cleanupDirectory_fuel f d' w = (Ok tt, cleanup_post d' w) end)
     by (subst fu; first [exact I | exact IH]));
  change (cleanupDirectory_fuel fu d w = (Ok tt, cleanup_post d w));
  change (height d fu (fs w)) in Hh; clearbody fu;
  rewrite cleanup_unfold;
  (assert (Hde : directoryExists d w = (Ok true, w))
     by (unfold directoryExists, catch; rewrite (stat_spec _ _ _ Hd Hdir); reflexivity));
  (assert (Hrd : FS.readdir d w = (Ok (FS.children (fs w) d), w))
     by (unfold FS.readdir; destruct d; [congruence|]; simpl; rewrite Hdir; reflexivity));
  (assert (Hloop := cleanup_loop_spec fu d HIH (FS.children (fs w) d) w
                      Hwf Hcl Hd (NoDup_children _ _)
                      ltac:(intros n Hn; apply elem_of_children in Hn as [v Hv]; rewrite Hv; eauto) Hh));
  (assert (Hrm : FS.rmdir d (mkWorld (rm_set (fun k => existsb (fun n => below_b (d ++ [n]) k)
                                        (FS.children (fs w) d)) (fs w)) (trace w) (upload_calls w))
                 = (Ok tt, cleanup_post d w))
     by (unfold FS.rmdir; cbn [fs trace upload_calls]; rewrite lookup_rm_set;
         replace (existsb (fun n => below_b (d ++ [n]) d) (FS.children (fs w) d)) with false;
         [rewrite Hdir, children_rm_children; unfold cleanup_post; rewrite rm_children_dir by assumption;
          reflexivity|];
         symmetry; apply existsb_false_iff; intros n _; destruct (below_b _ d) eqn:E; [|reflexivity];
         apply below_b_spec in E as [r E]; apply (f_equal (@List.length string)) in E;
         rewrite !List.length_app in E; simpl in E; lia));
  cbv [catch bind]; rewrite Hde; cbv beta iota; rewrite Hrd; cbv beta iota;
  rewrite Hloop; cbv beta iota; rewrite Hrm; reflexivity.
Qed.

End FsClean.

Module FsRestore.
Import FsFacts FsWf PathFacts FsClean.

Definition imp (P : gmap path FNode -> Prop) (f f' : gmap path FNode) : Prop := P f -> P f'.

#[export] Instance imp_preorder P : PreOrder (imp P).
Proof. split; [intros f H; exact H|intros f g h H1 H2 H; auto]. Qed.

Lemma wf_below_absent f d r : wf f -> d <> [] -> f !! d = None -> f !! (d ++ r)%list = None.
Proof.
  intros Hwf Hd Hn. destruct r as [|x r]; [rewrite app_nil_r; exact Hn|].
  destruct (f !! (d ++ x :: r)%list) eqn:E; [|reflexivity].
  destruct (wf_prefix _ _ _ _ Hwf E ltac:(discriminate)) as [->|H]; congruence.
Qed.

Lemma rm_set_absent f d : wf f -> d <> [] -> f !! d = None -> rm_set (below_b d) f = f.
Proof.
  intros Hwf Hd Hn. apply map_eq. intros k. rewrite lookup_rm_set.
  destruct (below_b d k) eqn:E; [|reflexivity].
  apply below_b_spec in E as [r ->]. symmetry. apply wf_below_absent; assumption.
Qed.


Lemma cleanupDirectory_absent d w :
  wf (fs w) -> d <> [] -> fs w !! d = None -> cleanupDirectory d w = (Ok tt, cleanup_post d w).
Proof.
  intros Hwf Hd Hn. unfold cleanupDirectory. rewrite cleanup_unfold.
  destruct (stat_none _ _ Hd Hn) as [e He].
  cbv [catch bind directoryExists]. rewrite He. cbv [ret]. unfold cleanup_post.
  rewrite rm_set_absent by assumption. destruct w; reflexivity.
Qed.

Lemma cleanupDirectory_dir d w :
  wf (fs w) -> clean_keys (fs w) -> d <> [] -> fs w !! d = Some FDir ->
  cleanupDirectory d w = (Ok tt, cleanup_post d w).
Proof.
  intros Hwf Hcl Hd Hdir. unfold cleanupDirectory. apply cleanup_fuel_spec.
  repeat split; try assumption.
  intros r _ Hr. apply max_depth_ge in Hr. rewrite List.length_app in Hr. lia.
Qed.








Lemma digit_not_slash k : k < 10 -> Ascii.eqb (ascii_of_nat (48 + k)) "/"%char = false.
Proof. intros H. do 10 (destruct k as [|k]; [reflexivity|]). lia. Qed.

Lemma digits_no_slash fuel n acc :
  no_slash acc = true -> no_slash (JS.digits_aux fuel n acc) = true.
Proof.
  revert n acc. induction fuel as [|f IH]; intros n acc H; [exact H|]. cbn [JS.digits_aux].
  set (c := ascii_of_nat (48 + n mod 10)).
  assert (Hc : Ascii.eqb c "/"%char = false) by (apply digit_not_slash, Nat.mod_upper_bound; lia).
  assert (Hd : no_slash (String c EmptyString ++ acc) = true)
    by (change (negb (Ascii.eqb c "/"%char) && no_slash acc = true); rewrite Hc; exact H).
  destruct (n <? 10)%nat; [exact Hd|apply IH, Hd].
Qed.

Lemma restore_dir_clean E : Forall (fun x => seg_clean x = true) (restore_dir E).
Proof.
  unfold restore_dir. constructor; [reflexivity|]. constructor; [|constructor]. unfold seg_clean.
  unfold JS.show_nat. rewrite no_slash_app, digits_no_slash by reflexivity.
  rewrite seg_ok_long; [reflexivity|]. rewrite length_app. change (String.length "restore-") with 8. lia.
Qed.


Definition nojson (q : path) (f : gmap path FNode) : Prop :=
  forall bd, f !! q <> Some (FFile (CJson bd)).



Lemma pres_nojson_mkdir q p : pres (imp (nojson q)) (FS.mkdir_p p).
Proof.
  intros w Hq. destruct (mkdir_p_spec p w) as [[f' [H1 ->]]|[e [H1 ->]]]; [|exact Hq].
  cbn [fs snd]. destruct (mkdir_aux_spec _ _ _ _ H1) as [H _]. intros bd.
  destruct (H q) as [->|[_ [-> _]]]; [apply Hq|discriminate].
Qed.

Lemma pres_nojson_writeFile q p c :
  (p = q -> forall bd, c <> CJson bd) -> pres (imp (nojson q)) (FS.writeFile p c).
Proof.
  intros Hc w Hq. destruct (writeFile_spec p c w) as [[-> _]|[e ->]]; [|exact Hq].
  cbn [fs snd]. intros bd. destruct (decide (q = p)) as [->|Hne].
  - rewrite lookup_insert_eq. intros He. injection He as He. apply (Hc eq_refl bd), He.
  - rewrite lookup_insert_ne by congruence. apply Hq.
Qed.

Section Extract.
Variable R : gmap path FNode -> gmap path FNode -> Prop.
Context `{!PreOrder R}.

(** What extracting one entry needs of [R]. *)
Definition entry_pres (d : path) (e : ZipEntry) : Prop :=
  valid_entry_name (fileName e) = true ->
  pres R (FS.mkdir_p (join d [fileName e])) /\
  pres R (FS.mkdir_p (dirname (join d [fileName e]))) /\
  (forall c, entry_data e = EData c -> pres R (FS.writeFile (join d [fileName e]) c)).

Lemma pres_extract_entry d e : entry_pres d e -> pres R (extract_entry d e).
Proof.
  intros He. unfold extract_entry. cbv zeta.
  destruct (valid_entry_name (fileName e)) eqn:Ev; cbn [negb]; [|exact (pres_ret R _)].
  destruct (He Ev) as [H1 [H2 H3]].
  destruct (JS.endsWithSlash (fileName e)).
  - exact (pres_catch R _ _ (pres_bind R _ _ H1 (fun _ => pres_ret R _)) (fun _ => pres_ret R _)).
  - destruct (entry_data e) as [c|m|] eqn:Ed; [|exact (pres_ret R _)|exact (pres_ret R _)].
    exact (pres_catch R _ _
             (pres_bind R _ _ H2 (fun _ =>
                pres_catch R _ _ (pres_bind R _ _ (H3 c eq_refl) (fun _ => pres_ret R _))
                  (fun _ => pres_ret R _)))
             (fun _ => pres_ret R _)).
Qed.

Lemma pres_extract_entries d es :
  Forall (entry_pres d) es -> pres R (extract_entries d es).
Proof.
  induction es as [|e es IH]; intros Hall; [exact (pres_ret R _)|].
  apply Forall_cons in Hall as [He Hes]. specialize (IH Hes). cbn [extract_entries].
  apply (pres_bind R _ _ (pres_extract_entry d e He)). intros [|m [|]]; [exact IH|exact (pres_ret R _)|exact (pres_ret R _)].
Qed.


Lemma pres_extractZipFile_run zip arch d :
  pres R (FS.mkdir_p d) -> (forall es, arch = Some es -> Forall (entry_pres d) es) ->
  pres R (extractZipFile_run zip arch d).
Proof.
  intros Hd Ha. unfold extractZipFile_run.
  refine (pres_bind R _ _ Hd (fun _ => pres_bind R _ _ (pres_same R _ (same_readFile _)) (fun _ => _))).
  destruct arch as [es|]; [apply pres_extract_entries, Ha; reflexivity|exact (pres_ret R _)].
Qed.

Lemma pres_extractZipFile zip arch d :
  pres R (FS.mkdir_p d) -> (forall es, arch = Some es -> Forall (entry_pres d) es) ->
  pres R (extractZipFile zip arch d).
Proof.
  intros Hd Ha. unfold extractZipFile.
  apply (pres_bind R _ _ (pres_extractZipFile_run zip arch d Hd Ha)).
  intros [|m bg]; [exact (pres_ret R _)|exact (pres_throw R _)].
Qed.

End Extract.



Lemma entry_pres_nojson d q es :
  (forall e c, In e es -> join d [fileName e] = q -> entry_data e <> EData (CJson c)) ->
  Forall (entry_pres (imp (nojson q)) d) es.
Proof.
  intros H. apply Forall_forall. intros e He _.
  split; [apply pres_nojson_mkdir|]. split; [apply pres_nojson_mkdir|].
  intros c Hc. apply pres_nojson_writeFile. intros Hq bd ->.
  apply (H e bd); [apply list_elem_of_In, He|exact Hq|exact Hc].
Qed.


Lemma prefix_cases (a b r s : path) :
  (a ++ r = b ++ s)%list -> below_b a b = true \/ below_b b a = true.
Proof.
  revert b. induction a as [|x a IH]; intros b H; [left; reflexivity|].
  destruct b as [|y b]; [right; reflexivity|]. simpl in H. injection H as -> H.
  unfold below_b in *. simpl. rewrite String.eqb_refl. apply IH, H.
Qed.


Definition same_at (q : path) (f f' : gmap path FNode) : Prop := f' !! q = f !! q.

#[export] Instance same_at_preorder q : PreOrder (same_at q).
Proof. split; [intros f; reflexivity|intros f g h H1 H2; unfold same_at in *; congruence]. Qed.

Lemma pres_same_at_mkdir q p : below_b q p = false -> pres (same_at q) (FS.mkdir_p p).
Proof.
  intros Hq w. destruct (mkdir_p_spec p w) as [[f' [H1 ->]]|[e [H1 ->]]]; [|reflexivity].
  cbn [fs snd]. destruct (mkdir_aux_spec _ _ _ _ H1) as [H _]. unfold same_at.
  destruct (H q) as [He|[_ [_ [r1 [r2 [_ [-> Hk]]]]]]]; [exact He|].
  simpl in Hk. subst q. rewrite below_b_app in Hq. discriminate.
Qed.

Lemma pres_same_at_writeFile q p c : p <> q -> pres (same_at q) (FS.writeFile p c).
Proof.
  intros Hq w. destruct (writeFile_spec p c w) as [[-> _]|[e ->]]; [|reflexivity].
  cbn [fs snd]. unfold same_at. apply lookup_insert_ne, Hq.
Qed.



Lemma parse_none q w : nojson q (fs w) -> parseBackupData q w = (Ok None, w).
Proof.
  intros Hq. unfold parseBackupData, catch, bind, FS.readFile.
  destruct (fs w !! q) as [[|[b|t|bd]]|] eqn:E; try reflexivity.
  exfalso. apply (Hq bd), E.
Qed.




(** Executable checks of [wf] and [clean_keys]. *)
Definition wf_b (f : gmap path FNode) : bool :=
  forallb (fun kv : path * FNode =>
             match removelast kv.1 with
             | [] => true
             | k => match f !! k with Some FDir => true | _ => false end
             end) (map_to_list f).

Definition clean_b (f : gmap path FNode) : bool :=
  forallb (fun kv : path * FNode => forallb seg_clean kv.1) (map_to_list f).

Lemma wf_b_spec f : wf_b f = true -> wf f.
Proof.
  unfold wf_b. rewrite forallb_forall. intros H k x v Hk.
  apply elem_of_map_to_list, list_elem_of_In in Hk. specialize (H _ Hk). simpl in H.
  rewrite removelast_last in H. destruct k as [|y k]; [left; reflexivity|right].
  destruct (f !! (y :: k)) as [[|]|]; congruence.
Qed.

Lemma clean_b_spec f : clean_b f = true -> clean_keys f.
Proof.
  unfold clean_b. rewrite forallb_forall. intros H k v Hk.
  apply elem_of_map_to_list, list_elem_of_In in Hk. specialize (H _ Hk). simpl in H.
  apply Forall_forall. intros x Hx. rewrite forallb_forall in H. apply H, list_elem_of_In, Hx.
Qed.

(** What every extraction step keeps: well-formedness, clean keys, the
    node at [zip], and every existing node with its kind. *)
Definition ext_rel (zip : path) (f f' : gmap path FNode) : Prop :=
  wf_rel f f' /\ imp clean_keys f f' /\ same_at zip f f' /\ grows f f'.

#[export] Instance ext_rel_preorder zip : PreOrder (ext_rel zip).
Proof.
  split.
  - intros f. split; [reflexivity|split; [reflexivity|split; reflexivity]].
  - intros f g h [a1 [b1 [c1 d1]]] [a2 [b2 [c2 d2]]].
    split; [|split; [|split]]; etransitivity; eassumption.
Qed.





(** An archive without a manifest whose second file entry names a path
    that the first entry made a directory, followed by one more file. *)
Definition C5_archive : list ZipEntry :=
  [mkEntry "images/" (EData (CBlob ""));
   mkEntry "images" (EData (CBlob "old"));
   mkEntry "late/x.txt" (EData (CBlob "x"))].

(** [Scenario.env0] where the event loop runs the entries read after the
    write error once the [finally] block has finished. *)
Definition C5_env : Env :=
  mkEnv (db_shops Scenario.env0) (http_get Scenario.env0) (http_put Scenario.env0)
    (upload_url Scenario.env0) (insert_ok Scenario.env0) (cwd Scenario.env0)
    (now_iso Scenario.env0) (now_ms Scenario.env0) (now_iso_later Scenario.env0) true.

(** C5 (code bug): the write stream of [images] fails with [EISDIR]; the
    extraction promise rejects, the restore answers [success = false] and
    its [finally] block removes the extraction directory and the archive.
    The write stream still emits [close], so yauzl reads [late/x.txt] and
    writes it, recreating the extraction directory: when that write comes
    after the cleanup, the extraction directory and a file below it are
    left behind. When it comes before, nothing is left. *)
Theorem restore_background_write_survives_cleanup :
  fst (restoreFromZip C5_env Scenario.zip (Some C5_archive) Scenario.world0)
    = Ok (restore_failed "EISDIR: illegal operation on a directory, open") /\
  fs (snd (restoreFromZip C5_env Scenario.zip (Some C5_archive) Scenario.world0))
    !! Scenario.zip = None /\
  fs (snd (restoreFromZip C5_env Scenario.zip (Some C5_archive) Scenario.world0))
    !! restore_dir C5_env = Some FDir /\
  fs (snd (restoreFromZip C5_env Scenario.zip (Some C5_archive) Scenario.world0))
    !! (restore_dir C5_env ++ ["late"; "x.txt"])%list = Some (FFile (CBlob "x")) /\
  fs (snd (restoreFromZip Scenario.env0 Scenario.zip (Some C5_archive) Scenario.world0))
    !! restore_dir Scenario.env0 = None /\
  fs (snd (restoreFromZip Scenario.env0 Scenario.zip (Some C5_archive) Scenario.world0))
    !! (restore_dir Scenario.env0 ++ ["late"; "x.txt"])%list = None.
Proof. vm_compute. repeat split. Qed.

End FsRestore.


Module BackupFacts.
Import FsFacts FsWf PathFacts FsClean FsRestore.

Ltac grow_step :=
  match goal with
  | |- pres grows (catch _ _) => refine (pres_catch grows _ _ _ _); [|intros ?]
  | |- pres grows (bind _ _) => refine (pres_bind grows _ _ _ _); [|intros ?]
  | |- pres grows (ret _) => exact (pres_ret grows _)
  | |- pres grows (throw _) => exact (pres_throw grows _)
  | |- pres grows (FS.writeFile _ _) => apply pres_grows_writeFile
  | |- pres grows (FS.mkdir_p _) => apply pres_grows_mkdir
  | |- pres grows (FS.readFile _) => exact (pres_same grows _ (same_readFile _))
  | |- pres grows (fetch_get _ _) => exact (pres_same grows _ (same_fetch_get _ _))
  | |- pres grows (save_image _ _ _ _) => unfold save_image
  | |- pres grows (match ?x with _ => _ end) => destruct x
  | |- pres grows (if ?x then _ else _) => destruct x
  end.

Section Env.
Variable E : Env.

Lemma pres_grows_downloadImage u dir name : pres grows (downloadImage E u dir name).
Proof. unfold downloadImage. repeat grow_step. Qed.

Lemma save_image_ok dir name c ext w o w' :
  save_image dir name c ext w = (Ok o, w') ->
  o = Some (name ++ ext) /\ fs w' !! join dir [name ++ ext] = Some (FFile c).
Proof.
  unfold save_image, bind.
  destruct (writeFile_spec (join dir [name ++ ext]) c w) as [[-> _]|[e ->]]; [|discriminate].
  intros H. injection H as <- <-. split; [reflexivity|]. apply lookup_insert_eq.
Qed.

Lemma ext_from_response_no_slash ct u : no_slash (ext_from_response ct u) = true.
Proof.
  unfold ext_from_response.
  repeat match goal with |- context [if ?b then _ else _] => destruct b end; reflexivity.
Qed.

(** A file name returned by [downloadImage] is the requested name plus an
    extension, and the file is in the destination directory. *)
Lemma downloadImage_some u dir name w fn w' :
  downloadImage E u dir name w = (Ok (Some fn), w') ->
  exists ext c, fn = name ++ ext /\ no_slash ext = true /\
                fs w' !! join dir [fn] = Some (FFile c).
Proof.
  assert (Hs : forall c ext w0,
             no_slash ext = true ->
             match save_image dir name c ext w0 with
             | (Ok a, w1) => (Ok a, w1)
             | (Err _, w1) => ret None w1
             end = (Ok (Some fn), w') ->
             exists ext c, fn = name ++ ext /\ no_slash ext = true /\
                           fs w' !! join dir [fn] = Some (FFile c)).
  { intros c ext w0 Hx. destruct (save_image dir name c ext w0) as [[o|e] w1] eqn:Es;
      [|discriminate]. intros H. injection H as -> ->.
    apply save_image_ok in Es as [Ho Hf]. injection Ho as ->. eauto. }
  unfold downloadImage, catch.
  destruct (JS.startsWith u "/objects/").
  - cbv [bind fetch_get emit]. destruct (http_get E _) as [m|[|] st ct b]; cbv [throw ret];
      try discriminate. apply Hs, ext_from_response_no_slash.
  - destruct (JS.startsWith u "/").
    + cbv [bind catch]. destruct (FS.readFile _ _) as [[b|e] w1]; cbv [ret]; [|discriminate].
      apply Hs. destruct (String.eqb _ _); [reflexivity|].
      rewrite toLowerCase_no_slash. apply extname_no_slash.
    + destruct (JS.startsWith u "http"); [|cbv [ret]; discriminate].
      cbv [bind fetch_get emit]. destruct (http_get E _) as [m|[|] st ct b]; cbv [throw ret];
        try discriminate. apply Hs, ext_from_response_no_slash.
Qed.

Lemma downloadImage_ok u dir name w : exists o w', downloadImage E u dir name w = (Ok o, w').
Proof. unfold downloadImage, catch. destruct (_ w) as [[o|e] w']; eauto. Qed.


(** The path a local reference is read from. *)
Definition local_path (u : string) : path := join (cwd E) ["client"; "public"; JS.substring1 u].

(** A per-asset fetch failure of the Asset Fetcher: a stored or external
    reference whose GET fails, or a local reference whose file is absent
    (and lies outside the backup directory [B]). *)
Definition fetch_fails (B : path) (f : gmap path FNode) (u : string) : Prop :=
  ((is_stored_ref u || is_external_ref u) = true /\ http_failure (http_get E (fetch_target u))) \/
  (is_local_ref u = true /\ below_b B (local_path u) = false /\
   forall c, f !! local_path u <> Some (FFile c)).


Lemma downloadImage_fails B u dir name w :
  fetch_fails B (fs w) u -> fst (downloadImage E u dir name w) = Ok None.
Proof.
  intros [[Hr Hf]|[Hl [_ Hmiss]]];
    unfold fetch_target, is_stored_ref, is_external_ref, is_local_ref in *.
  - destruct (JS.startsWith u "/objects/") eqn:Eo; simpl in Hr, Hf.
    + destruct (http_get E ("http://localhost:5000" ++ u)) as [m|[|] st ct b] eqn:Eh;
        simpl in Hf; try discriminate;
        cbv [downloadImage catch bind fetch_get emit throw ret]; rewrite Eo, Eh; reflexivity.
    + apply andb_prop in Hr as [H1 H2]. apply negb_true_iff in H1.
      destruct (http_get E u) as [m|[|] st ct b] eqn:Eh; simpl in Hf; try discriminate;
        cbv [downloadImage catch bind fetch_get emit throw ret]; rewrite Eo, H1, H2, Eh;
        reflexivity.
  - apply andb_prop in Hl as [H1 H2]. apply negb_true_iff in H2.
    unfold downloadImage, catch, bind. rewrite H2, H1. cbn [negb].
    unfold FS.readFile. fold (local_path u).
    destruct (fs w !! local_path u) as [[|c]|] eqn:Em; [reflexivity| |reflexivity].
    exfalso. apply (Hmiss c). reflexivity.
Qed.

(** Files outside [B] are never created. *)
Definition no_new_files (B : path) (f f' : gmap path FNode) : Prop :=
  forall k c, below_b B k = false -> f' !! k = Some (FFile c) -> exists c', f !! k = Some (FFile c').

#[export] Instance no_new_files_preorder B : PreOrder (no_new_files B).
Proof.
  split; [intros f k c _ H; eauto|].
  intros f g h H1 H2 k c Hk Hh. destruct (H2 k c Hk Hh) as [c' Hg]. exact (H1 k c' Hk Hg).
Qed.


Lemma pres_nnf_save B dir name c ext :
  below_b B (join dir [name ++ ext]) = true -> pres (no_new_files B) (save_image dir name c ext).
Proof.
  intros Hb. unfold save_image.
  refine (pres_bind _ _ _ _ (fun _ => pres_ret _ _)). intros w.
  destruct (writeFile_spec (join dir [name ++ ext]) c w) as [[-> _]|[e ->]]; [|reflexivity].
  cbn [fs snd]. intros k c' Hk Hl. rewrite lookup_insert_ne in Hl by congruence. eauto.
Qed.

Lemma pres_nnf_downloadImage B u dir name :
  (forall ext, no_slash ext = true -> below_b B (join dir [name ++ ext]) = true) ->
  pres (no_new_files B) (downloadImage E u dir name).
Proof.
  intros Hd. unfold downloadImage.
  repeat match goal with
  | |- pres _ (catch _ _) => refine (pres_catch _ _ _ _ _); [|intros ?]
  | |- pres _ (bind _ _) => refine (pres_bind _ _ _ _ _); [|intros ?]
  | |- pres _ (ret _) => exact (pres_ret _ _)
  | |- pres _ (throw _) => exact (pres_throw _ _)
  | |- pres _ (FS.readFile _) => exact (pres_same _ _ (same_readFile _))
  | |- pres _ (fetch_get _ _) => exact (pres_same _ _ (same_fetch_get _ _))
  | |- pres _ (save_image _ _ _ _) => apply pres_nnf_save, Hd
  | |- pres _ (match ?x with _ => _ end) => destruct x
  | |- pres _ (if ?x then _ else _) => destruct x
  end.
  - apply ext_from_response_no_slash.
  - destruct (String.eqb _ _); [reflexivity|]. rewrite toLowerCase_no_slash. apply extname_no_slash.
  - apply ext_from_response_no_slash.
Qed.

Lemma fetch_fails_mono B f f' u : no_new_files B f f' -> fetch_fails B f u -> fetch_fails B f' u.
Proof.
  intros Hn [H|[Hl [Hb Hm]]]; [left; exact H|right]. split; [exact Hl|]. split; [exact Hb|].
  intros c Hc. destruct (Hn _ _ Hb Hc) as [c' Hc']. exact (Hm c' Hc').
Qed.


Lemma image_path B kind name ext :
  Forall (fun x => seg_clean x = true) B -> seg_clean kind = true ->
  no_slash name = true -> 4 <= String.length name -> no_slash ext = true ->
  join (join B ["images"; kind]) [name ++ ext] = (B ++ ["images"; kind; (name ++ ext)%string])%list /\
  seg_clean (name ++ ext) = true.
Proof.
  intros HB Hk Hn Hl He.
  assert (HB' : Forall (fun x => seg_ok x = true) B)
    by (eapply Forall_impl; [exact HB|]; intros x Hx; apply andb_prop in Hx; tauto).
  apply andb_prop in Hk as [Hk1 Hk2].
  assert (Hf : seg_clean (name ++ ext) = true).
  { unfold seg_clean. rewrite no_slash_app, Hn, He, seg_ok_long; [reflexivity|].
    rewrite length_app. lia. }
  split; [|exact Hf].
  rewrite (join_ok B ["images"; kind]) by (exact HB' || (repeat constructor; assumption)).
  rewrite join_ok.
  - rewrite <- app_assoc. reflexivity.
  - apply Forall_app. split; [exact HB'|]. repeat constructor. exact Hk2.
  - apply andb_prop in Hf as [Hf1 Hf2]. repeat constructor; assumption.
Qed.

(** Every index entry names a file of the backup tree. *)
Definition files_ok (B : path) (imgs : BackupImages) (f : gmap path FNode) : Prop :=
  (forall k p, logos imgs !! k = Some p -> exists fn c,
      p = "images/logos/" ++ fn /\ seg_clean fn = true /\
      f !! (B ++ ["images"; "logos"; fn])%list = Some (FFile c)) /\
  (forall k p, maps imgs !! k = Some p -> exists fn c,
      p = "images/maps/" ++ fn /\ seg_clean fn = true /\
      f !! (B ++ ["images"; "maps"; fn])%list = Some (FFile c)).

Lemma grows_file f f' k c : grows f f' -> f !! k = Some (FFile c) -> exists c', f' !! k = Some (FFile c').
Proof. intros Hg Hk. destruct (Hg k _ Hk) as [[|c'] [H1 H2]]; [discriminate|eauto]. Qed.

Lemma files_ok_grows B imgs f f' : grows f f' -> files_ok B imgs f -> files_ok B imgs f'.
Proof.
  intros Hg [Hl Hm]. split.
  - intros k p Hk. destruct (Hl k p Hk) as [fn [c [H1 [H2 H3]]]].
    destruct (grows_file _ _ _ _ Hg H3) as [c' H4]. eauto.
  - intros k p Hk. destruct (Hm k p Hk) as [fn [c [H1 [H2 H3]]]].
    destruct (grows_file _ _ _ _ Hg H3) as [c' H4]. eauto.
Qed.


Lemma name_suffix_ok (i sfx : string) :
  no_slash i = true -> no_slash sfx = true -> 4 <= String.length sfx ->
  no_slash (i ++ sfx) = true /\ 4 <= String.length (i ++ sfx).
Proof. intros H1 H2 H3. rewrite no_slash_app, H1, H2, length_app. split; [reflexivity|lia]. Qed.

(** One iteration of the image loop of [createFullBackup]. *)
Lemma backup_shop_images_spec B imgs s w :
  Forall (fun x => seg_clean x = true) B -> no_slash (id s) = true -> files_ok B imgs (fs w) ->
  exists imgs' w',
    backup_shop_images E B imgs s w = (Ok imgs', w') /\
    grows (fs w) (fs w') /\ no_new_files B (fs w) (fs w') /\ files_ok B imgs' (fs w') /\
    (forall k, k <> id s -> logos imgs' !! k = logos imgs !! k /\ maps imgs' !! k = maps imgs !! k) /\
    (forall l, logo s = Some l -> fetch_fails B (fs w) l -> logos imgs' !! id s = logos imgs !! id s) /\
    (forall m, mapImageUrl s = Some m -> fetch_fails B (fs w) m -> maps imgs' !! id s = maps imgs !! id s).
Proof.
  intros HB Hid Hok.
  destruct (name_suffix_ok (id s) "_logo" Hid eq_refl ltac:(simpl; lia)) as [HnL HlL].
  destruct (name_suffix_ok (id s) "_map" Hid eq_refl ltac:(simpl; lia)) as [HnM HlM].
  assert (HdL : forall ext, no_slash ext = true ->
            below_b B (join (join B ["images"; "logos"]) [(id s ++ "_logo") ++ ext]) = true)
    by (intros ext Hx; rewrite (proj1 (image_path B "logos" _ ext HB eq_refl HnL HlL Hx));
        apply below_b_app).
  assert (HdM : forall ext, no_slash ext = true ->
            below_b B (join (join B ["images"; "maps"]) [(id s ++ "_map") ++ ext]) = true)
    by (intros ext Hx; rewrite (proj1 (image_path B "maps" _ ext HB eq_refl HnM HlM Hx));
        apply below_b_app).
  unfold backup_shop_images.
  match goal with |- context [catch (bind ?c1 ?k) _ w] => set (L := c1); set (K := k) end.
  assert (HL : exists imgs1 w1, L w = (Ok imgs1, w1) /\ grows (fs w) (fs w1) /\
            no_new_files B (fs w) (fs w1) /\ files_ok B imgs1 (fs w1) /\ maps imgs1 = maps imgs /\
            (forall k, k <> id s -> logos imgs1 !! k = logos imgs !! k) /\
            (forall l, logo s = Some l -> fetch_fails B (fs w) l -> logos imgs1 !! id s = logos imgs !! id s)).
  { unfold L. clear K L.
    destruct (logo s) as [l|] eqn:El;
      [destruct (JS.truthy (Some l) && negb (String.eqb l FA_STORE))|];
      [|exists imgs, w; do 3 (split; [reflexivity|]); split; [exact Hok|];
        split; [reflexivity|]; split; intros; reflexivity..].
    cbv [bind].
    pose proof (downloadImage_fails B l (join B ["images"; "logos"]) (id s ++ "_logo") w) as Hfail.
    pose proof (pres_grows_downloadImage l (join B ["images"; "logos"]) (id s ++ "_logo") w) as Hg.
    pose proof (pres_nnf_downloadImage B l (join B ["images"; "logos"]) (id s ++ "_logo") HdL w) as Hn.
    destruct (downloadImage E l (join B ["images"; "logos"]) (id s ++ "_logo") w) as [[o|e] w1] eqn:Ed;
      [|destruct (downloadImage_ok l (join B ["images"; "logos"]) (id s ++ "_logo") w) as [o' [w' Ho]];
        congruence].
    cbn [fst snd] in Hfail, Hg, Hn. destruct o as [fn|].
    - apply downloadImage_some in Ed as [ext [c [-> [Hx Hf]]]].
      destruct (image_path B "logos" _ ext HB eq_refl HnL HlL Hx) as [Hp Hc].
      exists (mkImages (<[id s := "images/logos/" ++ ((id s ++ "_logo") ++ ext)]> (logos imgs)) (maps imgs)), w1.
      split; [reflexivity|]. split; [exact Hg|]. split; [exact Hn|].
      split; [|split; [reflexivity|split]].
      + destruct (files_ok_grows _ _ _ _ Hg Hok) as [Ok1 Ok2]. split; [|exact Ok2].
        intros k p. cbn [logos]. destruct (decide (k = id s)) as [->|Hk].
        * rewrite lookup_insert_eq. intros Hp'. injection Hp' as <-. rewrite Hp in Hf. eauto.
        * rewrite lookup_insert_ne by congruence. apply Ok1.
      + intros k Hk. cbn [logos]. apply lookup_insert_ne. congruence.
      + intros l' Hl' Hff. injection Hl' as <-. specialize (Hfail Hff). discriminate.
    - exists imgs, w1. split; [reflexivity|]. split; [exact Hg|]. split; [exact Hn|].
      split; [apply (files_ok_grows _ _ _ _ Hg Hok)|]. split; [reflexivity|]. split; auto. }
  destruct HL as [imgs1 [w1 [HLw [Hg1 [Hn1 [Hok1 [Hm1 [Hk1 Hf1]]]]]]]].
  assert (HM : exists imgs' w', K imgs1 w1 = (Ok imgs', w') /\ grows (fs w1) (fs w') /\
            no_new_files B (fs w1) (fs w') /\ files_ok B imgs' (fs w') /\ logos imgs' = logos imgs1 /\
            (forall k, k <> id s -> maps imgs' !! k = maps imgs1 !! k) /\
            (forall m, mapImageUrl s = Some m -> fetch_fails B (fs w1) m -> maps imgs' !! id s = maps imgs1 !! id s)).
  { unfold K. clear K L HLw. cbv beta.
    destruct (mapImageUrl s) as [m|] eqn:Em;
      [destruct (JS.truthy (Some m))|];
      [|exists imgs1, w1; do 3 (split; [reflexivity|]); split; [exact Hok1|];
        split; [reflexivity|]; split; intros; reflexivity..].
    cbv [bind].
    pose proof (downloadImage_fails B m (join B ["images"; "maps"]) (id s ++ "_map") w1) as Hfail.
    pose proof (pres_grows_downloadImage m (join B ["images"; "maps"]) (id s ++ "_map") w1) as Hg.
    pose proof (pres_nnf_downloadImage B m (join B ["images"; "maps"]) (id s ++ "_map") HdM w1) as Hn.
    destruct (downloadImage E m (join B ["images"; "maps"]) (id s ++ "_map") w1) as [[o|e] w2] eqn:Ed;
      [|destruct (downloadImage_ok m (join B ["images"; "maps"]) (id s ++ "_map") w1) as [o' [w' Ho]];
        congruence].
    cbn [fst snd] in Hfail, Hg, Hn. destruct o as [fn|].
    - apply downloadImage_some in Ed as [ext [c [-> [Hx Hf]]]].
      destruct (image_path B "maps" _ ext HB eq_refl HnM HlM Hx) as [Hp Hc].
      exists (mkImages (logos imgs1) (<[id s := "images/maps/" ++ ((id s ++ "_map") ++ ext)]> (maps imgs1))), w2.
      split; [reflexivity|]. split; [exact Hg|]. split; [exact Hn|].
      split; [|split; [reflexivity|split]].
      + destruct (files_ok_grows _ _ _ _ Hg Hok1) as [Ok1 Ok2]. split; [exact Ok1|].
        intros k p. cbn [maps]. destruct (decide (k = id s)) as [->|Hk].
        * rewrite lookup_insert_eq. intros Hp'. injection Hp' as <-. rewrite Hp in Hf. eauto.
        * rewrite lookup_insert_ne by congruence. apply Ok2.
      + intros k Hk. cbn [maps]. apply lookup_insert_ne. congruence.
      + intros m' Hm' Hff. injection Hm' as <-. specialize (Hfail Hff). discriminate.
    - exists imgs1, w2. split; [reflexivity|]. split; [exact Hg|]. split; [exact Hn|].
      split; [apply (files_ok_grows _ _ _ _ Hg Hok1)|]. split; [reflexivity|]. split; auto. }
  destruct HM as [imgs' [w' [HMw [Hg2 [Hn2 [Hok2 [Hl2 [Hk2 Hf2]]]]]]]].
  exists imgs', w'. split.
  { cbv [catch bind]. rewrite HLw. rewrite HMw. reflexivity. }
  split; [etransitivity; eassumption|]. split; [etransitivity; eassumption|]. split; [exact Hok2|].
  split; [|split].
  - intros k Hk. rewrite Hl2, Hk2, Hm1 by exact Hk. auto.
  - intros l Hl Hff. rewrite Hl2. apply (Hf1 l); assumption.
  - intros m Hm Hff. rewrite (Hf2 m Hm (fetch_fails_mono _ _ _ _ Hn1 Hff)), Hm1. reflexivity.
Qed.


Lemma backup_loop_spec B R : forall imgs w,
  Forall (fun x => seg_clean x = true) B -> Forall (fun s => no_slash (id s) = true) R ->
  files_ok B imgs (fs w) ->
  exists imgs' w',
    backup_images_loop E B imgs R w = (Ok imgs', w') /\
    grows (fs w) (fs w') /\ no_new_files B (fs w) (fs w') /\ files_ok B imgs' (fs w') /\
    (forall k, Forall (fun s => id s <> k) R ->
       logos imgs' !! k = logos imgs !! k /\ maps imgs' !! k = maps imgs !! k) /\
    (forall pre s post, R = (pre ++ s :: post)%list -> Forall (fun t => id t <> id s) (pre ++ post) ->
       (forall l, logo s = Some l -> fetch_fails B (fs w) l -> logos imgs' !! id s = logos imgs !! id s) /\
       (forall m, mapImageUrl s = Some m -> fetch_fails B (fs w) m -> maps imgs' !! id s = maps imgs !! id s)).
Proof.
  induction R as [|t R IH]; intros imgs w HB HR Hok.
  - exists imgs, w. do 3 (split; [reflexivity|]). split; [exact Hok|]. split; [auto|].
    intros pre s post Hp. destruct pre; discriminate.
  - apply Forall_cons in HR as [Ht HR].
    destruct (backup_shop_images_spec B imgs t w HB Ht Hok)
      as [imgs1 [w1 [Hw1 [Hg1 [Hn1 [Hok1 [Hk1 [Hl1 Hm1]]]]]]]].
    destruct (IH imgs1 w1 HB HR Hok1) as [imgs' [w' [Hw' [Hg' [Hn' [Hok' [Hk' Hf']]]]]]].
    exists imgs', w'. split; [cbn [backup_images_loop]; cbv [bind]; rewrite Hw1; exact Hw'|].
    split; [etransitivity; eassumption|]. split; [etransitivity; eassumption|].
    split; [exact Hok'|]. split.
    + intros k Hk. apply Forall_cons in Hk as [Hk Hks].
      destruct (Hk' k Hks) as [-> ->]. apply Hk1. congruence.
    + intros [|u pre] s post Hp Hu; simpl in Hp; injection Hp as -> Hp.
      * simpl in Hu. subst R. destruct (Hk' (id s) Hu) as [Ha Hb]. rewrite Ha, Hb.
        split; [apply Hl1|apply Hm1].
      * simpl in Hu. apply Forall_cons in Hu as [Hu Hus].
        destruct (Hf' pre s post Hp Hus) as [Ha Hb]. destruct (Hk1 (id s) ltac:(congruence)) as [Hc Hd].
        split.
        -- intros l Hl Hff. rewrite (Ha l Hl (fetch_fails_mono _ _ _ _ Hn1 Hff)). exact Hc.
        -- intros m Hm Hff. rewrite (Hb m Hm (fetch_fails_mono _ _ _ _ Hn1 Hff)). exact Hd.
Qed.


End Env.

Lemma archive_entries_file f B r c :
  r <> [] -> f !! (B ++ r)%list = Some (FFile c) ->
  In (mkEntry (JS.join_slash r) (EData c)) (archive_entries f B).
Proof.
  intros Hr Hf. apply list_elem_of_In. unfold archive_entries. apply list_elem_of_omap.
  exists ((B ++ r)%list, FFile c). split; [apply elem_of_map_to_list; exact Hf|].
  cbn [fst snd]. rewrite strip_prefix_app. destruct r; [congruence|reflexivity].
Qed.

Lemma replace_colon_dot_no_slash s : no_slash s = true -> no_slash (JS.replace_colon_dot s) = true.
Proof.
  induction s as [|c r IH]; [reflexivity|]. cbn [no_slash JS.replace_colon_dot].
  intros H. apply andb_prop in H as [Hc Hr]. rewrite (IH Hr), andb_true_r.
  destruct (Ascii.eqb c ":"%char || Ascii.eqb c "."%char); [reflexivity|exact Hc].
Qed.

Lemma backup_dir_clean E : no_slash (now_iso E) = true -> Forall (fun x => seg_clean x = true) (backup_dir E).
Proof.
  intros H. unfold backup_dir. constructor; [reflexivity|]. constructor; [|constructor].
  unfold seg_clean. rewrite no_slash_app, (replace_colon_dot_no_slash _ H). reflexivity.
Qed.



Lemma join_clean1 B n :
  Forall (fun x => seg_clean x = true) B -> seg_clean n = true -> join B [n] = (B ++ [n])%list.
Proof.
  intros HB Hn. apply andb_prop in Hn as [Hn1 Hn2]. apply join_ok; [|repeat constructor; assumption].
  eapply Forall_impl; [exact HB|]. intros x Hx. apply andb_prop in Hx. tauto.
Qed.


Ltac step_fail H :=
  match type of H with
  | context [FS.mkdir_p ?p ?w0] =>
      let f := fresh "f" in let e := fresh "e" in let Ew := fresh "Ew" in
      destruct (mkdir_p_spec p w0) as [[f [_ Ew]]|[e [_ Ew]]]; rewrite Ew in H;
      cbv beta iota in H; [|discriminate H]
  | context [FS.writeFile ?p ?c ?w0] =>
      let e := fresh "e" in let Ew := fresh "Ew" in
      destruct (writeFile_spec p c w0) as [[Ew _]|[e Ew]]; rewrite Ew in H;
      cbv beta iota in H; [|discriminate H]
  end.




End BackupFacts.

(** ** The restore pipeline after a successful extraction *)
Module RestoreRun.
Import FsFacts FsWf PathFacts FsClean FsRestore.

(** Computations that leave the trace of effects as it is. *)
Definition keeps {A} (c : M A) : Prop := forall w, trace (snd (c w)) = trace w.

Lemma keeps_ret {A} (a : A) : keeps (ret a).
Proof. intros w. reflexivity. Qed.

Lemma keeps_throw {A} m : keeps (@throw A m).
Proof. intros w. reflexivity. Qed.

Lemma keeps_bind {A B} (c : M A) (k : A -> M B) : keeps c -> (forall a, keeps (k a)) -> keeps (bind c k).
Proof.
  intros Hc Hk w. specialize (Hc w). unfold bind.
  destruct (c w) as [[a|e] w']; simpl in *; [rewrite Hk|]; exact Hc.
Qed.

Lemma keeps_catch {A} (c : M A) (h : string -> M A) : keeps c -> (forall e, keeps (h e)) -> keeps (catch c h).
Proof.
  intros Hc Hh w. specialize (Hc w). unfold catch.
  destruct (c w) as [[a|e] w']; simpl in *; [|rewrite Hh]; exact Hc.
Qed.

Lemma keeps_if {A} (b : bool) (c1 c2 : M A) : keeps c1 -> keeps c2 -> keeps (if b then c1 else c2).
Proof. destruct b; auto. Qed.

Lemma keeps_stat p : keeps (FS.stat_isDirectory p).
Proof. intros w. unfold FS.stat_isDirectory. repeat case_match; reflexivity. Qed.

Lemma keeps_readdir p : keeps (FS.readdir p).
Proof. intros w. unfold FS.readdir. case_match; reflexivity. Qed.

Lemma keeps_unlink p : keeps (FS.unlink p).
Proof. intros w. unfold FS.unlink. repeat case_match; reflexivity. Qed.

Lemma keeps_rmdir p : keeps (FS.rmdir p).
Proof. intros w. unfold FS.rmdir. repeat case_match; reflexivity. Qed.

Create HintDb keeps.
#[export] Hint Resolve keeps_ret keeps_throw keeps_stat keeps_readdir keeps_unlink keeps_rmdir : keeps.

Ltac keeps_step :=
  match goal with
  | |- keeps (bind _ _) => apply keeps_bind; [|intro]
  | |- keeps (catch _ _) => apply keeps_catch; [|intro]
  | |- keeps (if _ then _ else _) => apply keeps_if
  | |- keeps (match ?x with _ => _ end) => destruct x
  | |- keeps _ => solve [eauto with keeps]
  end.

Lemma keeps_cleanup_fuel fuel : forall d, keeps (cleanupDirectory_fuel fuel d).
Proof.
  induction fuel as [|f IH]; intros d; simpl; unfold directoryExists; repeat keeps_step;
    (induction a0 as [|x r IHr]; [repeat keeps_step|]; repeat keeps_step; auto).
Qed.

Lemma keeps_finalizer d z : keeps (cleanupDirectory d ;;! cleanupFile z).
Proof.
  apply keeps_bind; [|intros _; unfold cleanupFile; repeat keeps_step].
  intros w. exact (keeps_cleanup_fuel _ d w).
Qed.


Section Upload.
Variable E : Env.

(** Whether the [n]-th upload of the run goes through: an upload URL, a
    successful PUT and a URL [extractObjectPathFromUrl] can parse. *)
Definition upload_okb (n : nat) : bool :=
  match upload_url E n with
  | Ok u =>
      match http_put E u with
      | Resp true _ _ _ => match url_pathname u with Ok _ => true | Err _ => false end
      | _ => false
      end
  | Err _ => false
  end.

(** Whether the upload of [file] of [dir], as the [n]-th upload, succeeds:
    the file can be read and the upload goes through. *)
Definition upload_ok_at (f : gmap path FNode) (dir : path) (n : nat) (file : string) : bool :=
  match f !! join dir [file] with
  | Some (FFile _) => upload_okb n
  | _ => false
  end.

(** The files of a loop whose upload fails, the first one being the [n]-th upload. *)
Fixpoint failed_files (f : gmap path FNode) (dir : path) (n : nat) (files : list string) : list string :=
  match files with
  | [] => []
  | x :: r => ((if upload_ok_at f dir n x then [] else [x]) ++ failed_files f dir (S n) r)%list
  end.

Definition image_key (k : ImageKind) (file : string) : string :=
  "images/" ++ kind_dir k ++ "/" ++ file.

(** The two messages [uploadImagesFromBackup] records for a failed upload. *)
Definition upload_error_msg (k : ImageKind) (file m : string) : Prop :=
  m = "Failed to upload " ++ kind_word k ++ ": " ++ file \/
  exists e, m = "Error uploading " ++ kind_word k ++ " " ++ file ++ ": " ++ e.

Lemma upload_one_ok k dir r file w :
  upload_ok_at (fs w) dir (upload_calls w) file = true ->
  exists u op c,
    upload_url E (upload_calls w) = Ok u /\ (forall w0, extractObjectPathFromUrl u w0 = (Ok op, w0)) /\
    fs w !! join dir [file] = Some (FFile c) /\
    upload_one E k dir r file w =
      (Ok (bump k r (image_key k file) op),
       mkWorld (fs w) (trace w ++ [EvPut u "image/jpeg" c])%list (S (upload_calls w))).
Proof.
  unfold upload_ok_at, upload_okb.
  destruct (fs w !! join dir [file]) as [[|c]|] eqn:Ef; try discriminate.
  destruct (upload_url E (upload_calls w)) as [u|e] eqn:Eu; try discriminate.
  destruct (http_put E u) as [m|[] st ct b] eqn:Eh; try discriminate.
  destruct (url_pathname u) as [pn|e] eqn:Ep; try discriminate. intros _.
  eexists u, _, c. split; [reflexivity|]. split.
  { intros w0. unfold extractObjectPathFromUrl. rewrite Ep. reflexivity. }
  split; [reflexivity|].
  unfold upload_one, catch, bind, getObjectEntityUploadURL. rewrite Eu. cbn [fs trace upload_calls].
  unfold FS.readFile. cbn [fs]. rewrite Ef. unfold fetch_put, emit, bind. cbn [fs trace upload_calls].
  rewrite Eh. unfold ret, extractObjectPathFromUrl. rewrite Ep. reflexivity.
Qed.

Lemma upload_one_fail k dir r file w :
  upload_ok_at (fs w) dir (upload_calls w) file = false ->
  exists m ev, upload_error_msg k file m /\
    upload_one E k dir r file w =
      (Ok (add_error r m), mkWorld (fs w) (trace w ++ ev)%list (S (upload_calls w))).
Proof.
  unfold upload_ok_at, upload_okb, upload_one, catch, bind, getObjectEntityUploadURL.
  unfold upload_error_msg.
  destruct (upload_url E (upload_calls w)) as [u|e] eqn:Eu.
  2:{ intros _. destruct (fs w !! join dir [file]) as [[|c]|];
      eexists _, []; rewrite app_nil_r; (split; [right; eexists; reflexivity|reflexivity]). }
  unfold FS.readFile. cbn [fs trace upload_calls].
  destruct (fs w !! join dir [file]) as [[|c]|] eqn:Ef.
  1,3: intros _; eexists _, []; rewrite app_nil_r; (split; [right; eexists; reflexivity|reflexivity]).
  unfold fetch_put, emit, bind. cbn [fs trace upload_calls].
  destruct (http_put E u) as [m|[] st ct b] eqn:Eh.
  - intros _. eexists _, _. split; [right; eexists; reflexivity|reflexivity].
  - destruct (url_pathname u) as [pn|e] eqn:Ep; [discriminate|]. intros _.
    unfold extractObjectPathFromUrl. rewrite Ep. eexists _, _. split; [right; eexists; reflexivity|reflexivity].
  - intros _. eexists _, _. split; [left; reflexivity|reflexivity].
Qed.


Lemma string_app_cancel_l (p a b : string) : (p ++ a = p ++ b)%string -> a = b.
Proof. induction p as [|c p IH]; simpl; [auto|]. intros H. injection H as H. exact (IH H). Qed.

Lemma image_key_inj k x y : image_key k x = image_key k y -> x = y.
Proof.
  unfold image_key. intros H.
  apply string_app_cancel_l, string_app_cancel_l, string_app_cancel_l in H. exact H.
Qed.

Lemma upload_loop_spec k dir files : forall r w,
  NoDup files ->
  exists r' ev,
    upload_loop E k dir r files w =
      (Ok r', mkWorld (fs w) (trace w ++ ev)%list (upload_calls w + length files)) /\
    (exists errs, up_errors r' = (up_errors r ++ errs)%list /\
       Forall2 (upload_error_msg k) (failed_files (fs w) dir (upload_calls w) files) errs) /\
    (forall key, (forall x, In x files -> key <> image_key k x) ->
       imageMapping r' !! key = imageMapping r !! key) /\
    (forall pre x post, files = (pre ++ x :: post)%list ->
       (upload_ok_at (fs w) dir (upload_calls w + length pre) x = false ->
          imageMapping r' !! image_key k x = imageMapping r !! image_key k x) /\
       (upload_ok_at (fs w) dir (upload_calls w + length pre) x = true ->
          exists u op, upload_url E (upload_calls w + length pre) = Ok u /\
            (forall w0, extractObjectPathFromUrl u w0 = (Ok op, w0)) /\
            imageMapping r' !! image_key k x = Some op)).
Proof.
  induction files as [|x rest IH]; intros r w Hd.
  - exists r, []. split; [rewrite app_nil_r, Nat.add_0_r; destruct w; reflexivity|].
    split; [exists []; rewrite app_nil_r; split; [reflexivity|constructor]|].
    split; [reflexivity|]. intros [|y pre] z post Hp; discriminate.
  - apply NoDup_cons in Hd as [Hx Hd].
    assert (Hkx : forall y, In y rest -> image_key k x <> image_key k y).
    { intros y Hy Heq. apply image_key_inj in Heq. subst y. apply Hx, list_elem_of_In, Hy. }
    destruct (upload_ok_at (fs w) dir (upload_calls w) x) eqn:Eok.
    + destruct (upload_one_ok k dir r x w Eok) as [u [op [c [Eu [Eop [Ef Hone]]]]]].
      destruct (IH (bump k r (image_key k x) op)
                 (mkWorld (fs w) (trace w ++ [EvPut u "image/jpeg" c]) (S (upload_calls w))) Hd) as [r' [ev [Hl [[errs [He Hf]] [Hu Hi]]]]].
      cbn [fs trace upload_calls] in Hl, Hf, Hi.
      exists r', ([EvPut u "image/jpeg" c] ++ ev)%list. split.
      { cbn [upload_loop]. unfold bind at 1. rewrite Hone, Hl. cbn [length].
        rewrite app_assoc, Nat.add_succ_r. reflexivity. }
      split; [exists errs; split; [exact He|]; cbn [failed_files]; rewrite Eok; exact Hf|].
      split.
      { intros key Hkey. rewrite Hu by (intros y Hy; apply Hkey; right; exact Hy).
        cbn [bump imageMapping]. apply lookup_insert_ne. intros Heq. apply (Hkey x); [left|]; auto. }
      intros [|y pre] z post Hp; cbn [length] in *.
      * injection Hp as <- <-. rewrite Nat.add_0_r. split; [congruence|]. intros _.
        exists u, op. split; [exact Eu|]. split; [exact Eop|].
        rewrite Hu by exact Hkx. cbn [bump imageMapping]. apply lookup_insert_eq.
      * injection Hp as <- Hp. rewrite Nat.add_succ_r, <- Nat.add_succ_l.
        destruct (Hi pre z post Hp) as [Hi1 Hi2]. split; [|exact Hi2].
        intros Hz. rewrite (Hi1 Hz). cbn [bump imageMapping]. apply lookup_insert_ne.
        intros Heq. apply image_key_inj in Heq. subst z. apply Hx. subst rest.
        apply list_elem_of_In, in_or_app. right. left. reflexivity.
    + destruct (upload_one_fail k dir r x w Eok) as [m [ev0 [Hm Hone]]].
      destruct (IH (add_error r m) (mkWorld (fs w) (trace w ++ ev0) (S (upload_calls w))) Hd) as [r' [ev [Hl [[errs [He Hf]] [Hu Hi]]]]].
      cbn [fs trace upload_calls] in Hl, Hf, Hi.
      exists r', (ev0 ++ ev)%list. split.
      { cbn [upload_loop]. unfold bind at 1. rewrite Hone, Hl. cbn [length].
        rewrite app_assoc, Nat.add_succ_r. reflexivity. }
      split.
      { exists (m :: errs). split; [rewrite He; cbn [add_error up_errors]; rewrite <- app_assoc; reflexivity|].
        cbn [failed_files]. rewrite Eok. constructor; [exact Hm|exact Hf]. }
      split.
      { intros key Hkey. rewrite Hu by (intros y Hy; apply Hkey; right; exact Hy). reflexivity. }
      intros [|y pre] z post Hp; cbn [length] in *.
      * injection Hp as <- <-. rewrite Nat.add_0_r. split; [|congruence]. intros _.
        rewrite Hu by exact Hkx. reflexivity.
      * injection Hp as <- Hp. rewrite Nat.add_succ_r, <- Nat.add_succ_l.
        exact (Hi pre z post Hp).
Qed.


(** The directory [uploadImagesFromBackup] lists for a kind of image. *)
Definition upload_dir (D : path) (k : ImageKind) : path := join D ["images"; kind_dir k].

(** The files the upload loop of a kind goes through: the listing of its
    directory, or nothing when it is not a directory. *)
Definition image_files (f : gmap path FNode) (D : path) (k : ImageKind) : list string :=
  match f !! upload_dir D k with
  | Some FDir => FS.children f (upload_dir D k)
  | _ => []
  end.

(** The uploads of a restore that fail, with their kind, the first one being
    the [n]-th upload of the run. *)
Definition failed_uploads (f : gmap path FNode) (D : path) (n : nat) : list (ImageKind * string) :=
  (map (pair KLogo) (failed_files f (upload_dir D KLogo) n (image_files f D KLogo)) ++
   map (pair KMap) (failed_files f (upload_dir D KMap) (n + length (image_files f D KLogo))
                      (image_files f D KMap)))%list.

Lemma upload_kind_loop k D r w :
  upload_dir D k <> [] ->
  upload_kind E k D r w = upload_loop E k (upload_dir D k) r (image_files (fs w) D k) w.
Proof.
  unfold upload_kind, image_files, directoryExists, catch, bind, FS.stat_isDirectory.
  fold (upload_dir D k). destruct (upload_dir D k) as [|a p]; [congruence|]. intros _.
  destruct (fs w !! (a :: p)) as [[|c]|] eqn:Ef; cbn iota beta; try reflexivity.
  unfold FS.readdir, FS.is_dir. rewrite Ef. reflexivity.
Qed.

Lemma failed_files_app f dir n a b :
  failed_files f dir n (a ++ b) = (failed_files f dir n a ++ failed_files f dir (n + length a) b)%list.
Proof.
  revert n. induction a as [|x a IH]; intros n; simpl; [rewrite Nat.add_0_r; reflexivity|].
  rewrite IH, app_assoc, Nat.add_succ_r. reflexivity.
Qed.

Lemma failed_files_incl f dir n l y : In y (failed_files f dir n l) -> In y l.
Proof.
  revert n. induction l as [|x l IH]; intros n; simpl; [auto|].
  destruct (upload_ok_at f dir n x); simpl; [|intros [->|H]; [left; reflexivity|]]; eauto.
Qed.

Lemma failed_files_at f dir n pre x post :
  NoDup (pre ++ x :: post)%list ->
  In x (failed_files f dir n (pre ++ x :: post)) <-> upload_ok_at f dir (n + length pre) x = false.
Proof.
  intros Hd. apply NoDup_app in Hd as [_ [Hpre Hpost]]. apply NoDup_cons in Hpost as [Hpost _].
  assert (Hxp : ~ In x pre) by (intros Hi; apply (Hpre x); [apply list_elem_of_In, Hi|apply list_elem_of_here]).
  rewrite failed_files_app. simpl. rewrite in_app_iff.
  destruct (upload_ok_at f dir (n + length pre) x); simpl; split.
  - intros [H|H]; apply failed_files_incl in H; [contradiction|]. exfalso. apply Hpost, list_elem_of_In, H.
  - discriminate.
  - reflexivity.
  - intros _. right. left. reflexivity.
Qed.

Lemma image_key_kind k k' x y : image_key k x = image_key k' y -> k = k' /\ x = y.
Proof.
  intros H. destruct k, k'; try (split; [reflexivity|exact (image_key_inj _ _ _ H)]);
    unfold image_key in H; simpl in H; discriminate.
Qed.


Lemma NoDup_image_files f D k : NoDup (image_files f D k).
Proof. unfold image_files. destruct (f !! upload_dir D k) as [[|c]|]; [apply NoDup_children|constructor..]. Qed.

Lemma Forall2_map_pair k (F errs : list string) :
  Forall2 (upload_error_msg k) F errs ->
  Forall2 (fun a m => upload_error_msg a.1 a.2 m) (map (pair k) F) errs.
Proof. induction 1; simpl; constructor; auto. Qed.

Lemma in_failed_uploads f D n k x :
  In (k, x) (failed_uploads f D n) ->
  (k = KLogo /\ In x (failed_files f (upload_dir D KLogo) n (image_files f D KLogo))) \/
  (k = KMap /\ In x (failed_files f (upload_dir D KMap) (n + length (image_files f D KLogo)) (image_files f D KMap))).
Proof.
  unfold failed_uploads. rewrite in_app_iff, !in_map_iff.
  intros [[y [Hy Hi]]|[y [Hy Hi]]]; injection Hy as <- <-; auto.
Qed.

Lemma uploadImages_spec D bd w :
  upload_dir D KLogo <> [] -> upload_dir D KMap <> [] ->
  exists r ev,
    uploadImagesFromBackup E D bd w =
      (Ok r, mkWorld (fs w) (trace w ++ ev)%list
               (upload_calls w + length (image_files (fs w) D KLogo) + length (image_files (fs w) D KMap))) /\
    Forall2 (fun a m => upload_error_msg a.1 a.2 m) (failed_uploads (fs w) D (upload_calls w)) (up_errors r) /\
    (forall k x, In (k, x) (failed_uploads (fs w) D (upload_calls w)) -> imageMapping r !! image_key k x = None) /\
    (forall k x, In x (image_files (fs w) D k) -> ~ In (k, x) (failed_uploads (fs w) D (upload_calls w)) ->
       exists n u op, upload_url E n = Ok u /\ (forall w0, extractObjectPathFromUrl u w0 = (Ok op, w0)) /\
         imageMapping r !! image_key k x = Some op).
Proof.
  intros HL HM. unfold uploadImagesFromBackup, bind. rewrite upload_kind_loop by exact HL.
  destruct (upload_loop_spec KLogo (upload_dir D KLogo) (image_files (fs w) D KLogo) (mkUploadResult 0 0 ∅ []) w (NoDup_image_files _ _ _))
    as [r1 [ev1 [Hl1 [[errs1 [He1 Hf1]] [Hu1 Hi1]]]]].
  rewrite Hl1, upload_kind_loop by exact HM. cbn [fs trace upload_calls].
  destruct (upload_loop_spec KMap (upload_dir D KMap) (image_files (fs w) D KMap) r1
              (mkWorld (fs w) (trace w ++ ev1) (upload_calls w + length (image_files (fs w) D KLogo))) (NoDup_image_files _ _ _))
    as [r2 [ev2 [Hl2 [[errs2 [He2 Hf2]] [Hu2 Hi2]]]]].
  cbn [fs trace upload_calls] in Hl2, Hf2, Hi2.
  exists r2, (ev1 ++ ev2)%list. split; [rewrite Hl2, app_assoc; reflexivity|].
  assert (Hlm : forall x, imageMapping r2 !! image_key KLogo x = imageMapping r1 !! image_key KLogo x).
  { intros x. apply Hu2. intros y _ Heq. apply image_key_kind in Heq as [Hk _]. discriminate. }
  assert (Hml : forall x, imageMapping r1 !! image_key KMap x = None).
  { intros x. rewrite Hu1; [apply lookup_empty|]. intros y _ Heq. apply image_key_kind in Heq as [Hk _]. discriminate. }
  split; [|split].
  - rewrite He2, He1. unfold failed_uploads. apply Forall2_app; apply Forall2_map_pair; assumption.
  - intros k x Hx. apply in_failed_uploads in Hx as [[-> Hx]|[-> Hx]].
    + pose proof (failed_files_incl _ _ _ _ _ Hx) as Hin. destruct (in_split _ _ Hin) as [pre [post Hp]].
      assert (Hd : NoDup (image_files (fs w) D KLogo)) by apply NoDup_image_files.  rewrite Hp in Hd, Hx.
      apply failed_files_at in Hx; [|exact Hd].
      rewrite Hlm, (proj1 (Hi1 pre x post Hp) Hx). apply lookup_empty.
    + pose proof (failed_files_incl _ _ _ _ _ Hx) as Hin. destruct (in_split _ _ Hin) as [pre [post Hp]].
      assert (Hd : NoDup (image_files (fs w) D KMap)) by apply NoDup_image_files.  rewrite Hp in Hd, Hx.
      apply failed_files_at in Hx; [|exact Hd].
      rewrite (proj1 (Hi2 pre x post Hp) Hx). apply Hml.
  - intros k x Hin Hnf. destruct k.
    + destruct (in_split _ _ Hin) as [pre [post Hp]].
      destruct (upload_ok_at (fs w) (upload_dir D KLogo) (upload_calls w + length pre) x) eqn:Eok.
      * destruct (proj2 (Hi1 pre x post Hp) Eok) as [u [op [Hu [Hop Hm]]]].
        exists (upload_calls w + length pre), u, op. split; [exact Hu|]. split; [exact Hop|].
        rewrite Hlm. exact Hm.
      * exfalso. apply Hnf. unfold failed_uploads. apply in_or_app. left. apply in_map. rewrite Hp.
        apply failed_files_at; [rewrite <- Hp; apply NoDup_image_files|exact Eok].
    + destruct (in_split _ _ Hin) as [pre [post Hp]].
      destruct (upload_ok_at (fs w) (upload_dir D KMap) (upload_calls w + length (image_files (fs w) D KLogo) + length pre) x) eqn:Eok.
      * destruct (proj2 (Hi2 pre x post Hp) Eok) as [u [op [Hu [Hop Hm]]]].
        exists (upload_calls w + length (image_files (fs w) D KLogo) + length pre), u, op. auto.
      * exfalso. apply Hnf. unfold failed_uploads. apply in_or_app. right. apply in_map. rewrite Hp.
        apply failed_files_at; [rewrite <- Hp; apply NoDup_image_files|exact Eok].
Qed.


Lemma restoreShops_all_ok c l w :
  (forall d, insert_ok E d = true) ->
  restoreShopsToDatabase_from E c l w =
    (Ok (c + length l), mkWorld (fs w) (trace w ++ map (fun s => EvInsert (strip_id s)) l)%list (upload_calls w)).
Proof.
  intros Hins. revert c w. induction l as [|s l IH]; intros c w.
  - rewrite Nat.add_0_r, app_nil_r. destruct w; reflexivity.
  - cbn [restoreShopsToDatabase_from]. unfold bind at 1, catch, bind, createShop. rewrite Hins.
    unfold emit, ret. rewrite IH. cbn [fs trace upload_calls length map].
    rewrite <- app_assoc, Nat.add_succ_r. reflexivity.
Qed.

(** [restore_body] once the archive is extracted and its manifest parses. *)
Lemma restore_body_after_extract D w1 bd :
  upload_dir D KLogo <> [] -> upload_dir D KMap <> [] ->
  fs w1 !! join D ["backup-data.json"] = Some (FFile (CJson bd)) ->
  (forall d, insert_ok E d = true) ->
  exists r w2,
    uploadImagesFromBackup E D bd w1 = (Ok r, w2) /\
    restore_body E D w1 =
      (Ok (mkRestoreResult true
             (restore_message (length (shops bd)) (logosUploaded r) (mapsUploaded r))
             (mkStats (length (shops bd)) (logosUploaded r) (mapsUploaded r) (up_errors r))),
       mkWorld (fs w2)
         (trace w2 ++ map (fun s => EvInsert (strip_id (update_shop (images bd) (imageMapping r) s))) (shops bd))%list
         (upload_calls w2)).
Proof.
  intros HL HM Hj Hins.
  destruct (uploadImages_spec D bd w1 HL HM) as [r [ev [Hu _]]].
  eexists r, _. split; [exact Hu|].
  unfold restore_body, parseBackupData. cbv beta iota delta [bind catch ret throw FS.readFile]. rewrite Hj.
  cbv beta iota. rewrite Hu. cbv beta iota.
  unfold restoreShopsToDatabase. rewrite restoreShops_all_ok by exact Hins.
  unfold updateShopImageUrls. cbn [shops images]. rewrite length_map, map_map. reflexivity.
Qed.

(** Once the archive is extracted, the outcome of [restoreFromZip] is that
    of its body, and the finally block keeps the trace of effects. *)
Lemma restoreFromZip_after_body zip arch w w1 res w3 :
  extractZipFile zip arch (restore_dir E) w = (Ok tt, w1) ->
  restore_body E (restore_dir E) w1 = (Ok res, w3) ->
  exists w', restoreFromZip E zip arch w = (Ok res, w') /\ trace w' = trace w3.
Proof.
  intros Hx Hb. apply RestoreFacts.extractZipFile_ok in Hx.
  unfold restoreFromZip. cbv zeta.
  rewrite (MonadFacts.bind_ok _ _ _ _ _
             (MonadFacts.catch_ok _ (fun e => ret (Rejected e [])) _ _ _ Hx)).
  cbv beta iota.
  destruct (RestoreFacts.finalizer_ok (restore_dir E) zip w3) as [w' Hf].
  exists w'.
  rewrite (MonadFacts.try_finally_ok _ _ _ _ _ _
             (MonadFacts.catch_ok _ (fun e => ret (restore_failed e)) _ _ _ Hb) Hf).
  split; [reflexivity|].
  pose proof (keeps_finalizer (restore_dir E) zip w3) as Hk. rewrite Hf in Hk. exact Hk.
Qed.


Lemma upload_dir_clean D k :
  Forall (fun x => seg_clean x = true) D -> upload_dir D k = (D ++ ["images"; kind_dir k])%list.
Proof.
  intros HD. apply join_ok.
  - eapply Forall_impl; [exact HD|]. intros x Hx. apply andb_prop in Hx. tauto.
  - destruct k; repeat constructor.
Qed.

Lemma upload_dir_nonempty D k : Forall (fun x => seg_clean x = true) D -> upload_dir D k <> [].
Proof. intros HD. rewrite upload_dir_clean by exact HD. intros H. apply app_eq_nil in H as [_ H]. discriminate. Qed.

(** The index and the shop field of a kind of image. *)
Definition kind_index (k : ImageKind) (imgs : BackupImages) : gmap string string :=
  match k with KLogo => logos imgs | KMap => maps imgs end.

Definition kind_field (k : ImageKind) (s : Shop) : option string :=
  match k with KLogo => logo s | KMap => mapImageUrl s end.

(** [updateShopImageUrls] leaves a field whose indexed path has no upload. *)
Lemma update_shop_keeps imgs m s k p :
  kind_index k imgs !! id s = Some p -> m !! p = None ->
  kind_field k (update_shop imgs m s) = kind_field k s.
Proof.
  intros Hi Hm. unfold update_shop. destruct k; cbn [kind_index kind_field] in *.
  - rewrite Hi, Hm. cbn [JS.truthy andb].
    destruct (JS.truthy (Some (id s))); cbn [andb];
      repeat (case_match; cbn [logo id] in *; try reflexivity).
  - assert (Hs : forall s1 : Shop, id s1 = id s -> mapImageUrl s1 = mapImageUrl s ->
             mapImageUrl (if JS.truthy (Some (id s1)) && JS.truthy (maps imgs !! id s1) then
                match maps imgs !! id s1 with
                | Some oldMapPath =>
                    if JS.truthy (m !! oldMapPath) then
                      mkShop (id s1) (name s1) (logo s1) (m !! oldMapPath) (other_fields s1)
                    else s1
                | None => s1
                end else s1) = mapImageUrl s).
    { intros s1 H1 H2. rewrite H1, Hi, Hm. cbn [JS.truthy].
      destruct (negb (id s =? "") && negb (p =? "")); exact H2. }
    apply Hs; repeat (case_match; cbn [id mapImageUrl]; try reflexivity).
Qed.

End Upload.


(** C4: in a restore whose archive extracts and whose manifest parses, when
    exactly one upload fails, that of the file [x] of kind [k] (a logo or a
    map), and every insert succeeds, [restoreFromZip] reports success,
    counts every shop of the manifest as restored, and its [errors] array
    holds exactly one message, which names [x]. Every shop is inserted, and
    a shop whose index entry of kind [k] is the path of [x] keeps its
    original reference in that field. *)
Theorem restore_one_failed_upload E zip es w w1 bd k x :
  extractZipFile zip (Some es) (restore_dir E) w = (Ok tt, w1) ->
  fs w1 !! join (restore_dir E) ["backup-data.json"] = Some (FFile (CJson bd)) ->
  (forall d, insert_ok E d = true) ->
  failed_uploads E (fs w1) (restore_dir E) (upload_calls w1) = [(k, x)] ->
  exists nl nm msg m evs w',
    restoreFromZip E zip (Some es) w =
      (Ok (mkRestoreResult true (restore_message (length (shops bd)) nl nm)
             (mkStats (length (shops bd)) nl nm [msg])), w') /\
    upload_error_msg k x msg /\
    trace w' = (trace w1 ++ evs ++
                map (fun s => EvInsert (strip_id (update_shop (images bd) m s))) (shops bd))%list /\
    (forall s, kind_index k (images bd) !! id s = Some (image_key k x) ->
       kind_field k (update_shop (images bd) m s) = kind_field k s).
Proof.
  intros Hx Hj Hins Hf.
  pose proof (upload_dir_nonempty _ KLogo (restore_dir_clean E)) as HL.
  pose proof (upload_dir_nonempty _ KMap (restore_dir_clean E)) as HM.
  destruct (restore_body_after_extract E (restore_dir E) w1 bd HL HM Hj Hins)
    as [r [w2 [Hu Hb]]].
  destruct (uploadImages_spec E (restore_dir E) bd w1 HL HM) as [r' [ev [Hu' [Herr [Hnone _]]]]].
  rewrite Hu in Hu'. injection Hu' as <- ->.
  destruct (restoreFromZip_after_body E zip (Some es) w w1 _ _ Hx Hb) as [w' [Hr Ht]].
  rewrite Hf in Herr. inversion Herr as [|a msg l1 l2 Hmsg Hnil Ha Hl]. subst.
  inversion Hnil. subst.
  exists (logosUploaded r), (mapsUploaded r), msg, (imageMapping r), ev, w'.
  split; [rewrite Hr, <- Hl; reflexivity|]. split; [exact Hmsg|].
  split; [rewrite Ht; cbn [trace]; rewrite app_assoc; reflexivity|].
  intros s Hs. apply (update_shop_keeps _ _ _ _ _ Hs). apply Hnone. rewrite Hf. left. reflexivity.
Qed.


Definition C4_data : BackupData :=
  mkBackupData (mkMetadata "2024-01-02T03:04:05.678Z" "1.0" 1 Full) [Scenario.shopA]
    (mkImages {[ "a1" := "images/logos/a1_logo.png" ]} ∅).

Definition C4_archive : list ZipEntry :=
  [mkEntry "backup-data.json" (EData (CJson C4_data));
   mkEntry "images/logos/a1_logo.png" (EData (CBlob "png bytes"))].

(** No upload URL can be obtained. *)
Definition C4_env : Env :=
  mkEnv (Some []) (fun _ => Resp true "OK" None "") (fun _ => Resp true "OK" None "")
    (fun _ => Err "signing failed") (fun _ => true) ["home"; "runner"] "2024-01-02T03:04:05.678Z" 1700
    "2024-01-02T03:04:05.912Z" false.

Definition C4_w1 : World :=
  snd (extractZipFile Scenario.zip (Some C4_archive) (restore_dir C4_env) Scenario.world0).

Lemma restore_one_failed_upload_witness :
  extractZipFile Scenario.zip (Some C4_archive) (restore_dir C4_env) Scenario.world0 = (Ok tt, C4_w1) /\
  fs C4_w1 !! join (restore_dir C4_env) ["backup-data.json"] = Some (FFile (CJson C4_data)) /\
  failed_uploads C4_env (fs C4_w1) (restore_dir C4_env) (upload_calls C4_w1) = [(KLogo, "a1_logo.png")] /\
  exists nl nm msg m evs w',
    restoreFromZip C4_env Scenario.zip (Some C4_archive) Scenario.world0 =
      (Ok (mkRestoreResult true (restore_message 1 nl nm) (mkStats 1 nl nm [msg])), w') /\
    upload_error_msg KLogo "a1_logo.png" msg /\
    trace w' = (trace C4_w1 ++ evs ++ [EvInsert (strip_id (update_shop (images C4_data) m Scenario.shopA))])%list /\
    logo (update_shop (images C4_data) m Scenario.shopA) = Some "/objects/abc".
Proof.
  assert (H1 : extractZipFile Scenario.zip (Some C4_archive) (restore_dir C4_env) Scenario.world0 = (Ok tt, C4_w1))
    by (vm_compute; reflexivity).
  assert (H2 : fs C4_w1 !! join (restore_dir C4_env) ["backup-data.json"] = Some (FFile (CJson C4_data)))
    by (vm_compute; reflexivity).
  assert (H3 : failed_uploads C4_env (fs C4_w1) (restore_dir C4_env) (upload_calls C4_w1) = [(KLogo, "a1_logo.png")])
    by (vm_compute; reflexivity).
  split; [exact H1|]. split; [exact H2|]. split; [exact H3|].
  destruct (restore_one_failed_upload C4_env Scenario.zip C4_archive Scenario.world0 C4_w1 C4_data KLogo "a1_logo.png"
              H1 H2 (fun _ => eq_refl) H3) as [nl [nm [msg [m [evs [w' [Hr [Hm [Ht Hk]]]]]]]]].
  exists nl, nm, msg, m, evs, w'. split; [exact Hr|]. split; [exact Hm|]. split; [exact Ht|].
  exact (Hk Scenario.shopA eq_refl).
Defined.

End RestoreRun.
(** ** Entry names of an archive of clean paths *)
Module EntryNames.
Import PathFacts FsClean FsRestore.

Lemma str_app_cons x (a b : string) : (String x a ++ b)%string = String x (a ++ b).
Proof. reflexivity. Qed.

Lemma str_app_assoc (a b c : string) : (a ++ (b ++ c))%string = ((a ++ b) ++ c)%string.
Proof. induction a as [|x a IH]; [reflexivity|]. rewrite !str_app_cons, IH. reflexivity. Qed.


Lemma split_slash_sep a b :
  no_slash a = true -> JS.split_slash (a ++ String "/" b) = a :: JS.split_slash b.
Proof.
  induction a as [|c a IH]; intros H; [reflexivity|].
  cbn [no_slash] in H. apply andb_prop in H as [H1 H2]. apply negb_true_iff in H1.
  rewrite str_app_cons. cbn [JS.split_slash]. rewrite IH by exact H2. rewrite H1. reflexivity.
Qed.









Lemma clean_seg_ok r :
  Forall (fun x => seg_clean x = true) r -> Forall (fun x => seg_ok x = true) r.
Proof. intros H. eapply Forall_impl; [exact H|]. intros x Hx. apply andb_prop in Hx. tauto. Qed.






End EntryNames.

(** ** Extracting the archive of a directory into a fresh directory *)
Module ExtractMirror.
Import FsFacts FsWf PathFacts FsClean FsRestore EntryNames.


Section Mirror.
Variables (F : gmap path FNode) (B D : path).
Hypothesis HwfF : wf F.
Hypothesis HclF : clean_keys F.
Hypothesis HB : B <> [].
Hypothesis HD : Forall (fun x => seg_clean x = true) D.
Hypothesis HDne : D <> [].
















End Mirror.

End ExtractMirror.

(** ** What a full backup leaves in the file system *)
Module BackupRun.
Import FsFacts FsWf PathFacts FsClean FsRestore BackupFacts.

Lemma join_images B kind :
  Forall (fun x => seg_clean x = true) B -> seg_clean kind = true ->
  join B ["images"; kind] = (B ++ ["images"; kind])%list.
Proof.
  intros HB Hk. apply andb_prop in Hk as [Hk1 Hk2]. apply join_ok.
  - eapply Forall_impl; [exact HB|]. intros x Hx. apply andb_prop in Hx. tauto.
  - repeat constructor; assumption.
Qed.

Section Pres.
Variable Rel : gmap path FNode -> gmap path FNode -> Prop.
Context `{!PreOrder Rel}.
Variable E : Env.
Hypothesis HB : Forall (fun x => seg_clean x = true) (backup_dir E).
Hypothesis Hmk : forall q, List.length q <= 2 -> Forall (fun x => seg_clean x = true) q ->
  pres Rel (FS.mkdir_p (backup_dir E ++ q)).
Hypothesis Hwr : forall r c, r <> [] -> Forall (fun x => seg_clean x = true) r ->
  pres Rel (FS.writeFile (backup_dir E ++ r) c).

Lemma pres_save_in kind name c ext :
  seg_clean kind = true -> no_slash name = true -> 4 <= String.length name -> no_slash ext = true ->
  pres Rel (save_image (join (backup_dir E) ["images"; kind]) name c ext).
Proof.
  intros Hk Hn Hl Hx. unfold save_image.
  destruct (image_path (backup_dir E) kind name ext HB Hk Hn Hl Hx) as [Hp Hc].
  refine (pres_bind Rel _ _ _ (fun _ => pres_ret Rel _)). rewrite Hp.
  apply Hwr; [discriminate|]. repeat constructor; assumption.
Qed.

Lemma pres_downloadImage_in u kind name :
  seg_clean kind = true -> no_slash name = true -> 4 <= String.length name ->
  pres Rel (downloadImage E u (join (backup_dir E) ["images"; kind]) name).
Proof.
  intros Hk Hn Hl. unfold downloadImage.
  repeat match goal with
  | |- pres _ (catch _ _) => refine (pres_catch Rel _ _ _ _); [|intros ?]
  | |- pres _ (bind _ _) => refine (pres_bind Rel _ _ _ _); [|intros ?]
  | |- pres _ (ret _) => exact (pres_ret Rel _)
  | |- pres _ (throw _) => exact (pres_throw Rel _)
  | |- pres _ (FS.readFile _) => exact (pres_same Rel _ (same_readFile _))
  | |- pres _ (fetch_get _ _) => exact (pres_same Rel _ (same_fetch_get _ _))
  | |- pres _ (save_image _ _ _ _) => apply pres_save_in; [exact Hk|exact Hn|exact Hl|]
  | |- pres _ (match ?x with _ => _ end) => destruct x
  | |- pres _ (if ?x then _ else _) => destruct x
  end.
  - apply ext_from_response_no_slash.
  - destruct (String.eqb _ _); [reflexivity|]. rewrite toLowerCase_no_slash. apply extname_no_slash.
  - apply ext_from_response_no_slash.
Qed.

Lemma pres_backup_shop_images imgs s :
  no_slash (id s) = true -> pres Rel (backup_shop_images E (backup_dir E) imgs s).
Proof.
  intros Hid.
  destruct (name_suffix_ok (id s) "_logo" Hid eq_refl ltac:(simpl; lia)) as [HnL HlL].
  destruct (name_suffix_ok (id s) "_map" Hid eq_refl ltac:(simpl; lia)) as [HnM HlM].
  unfold backup_shop_images.
  repeat match goal with
  | |- pres _ (catch _ _) => refine (pres_catch Rel _ _ _ _); [|intros ?]
  | |- pres _ (bind _ _) => refine (pres_bind Rel _ _ _ _); [|intros ?]
  | |- pres _ (ret _) => exact (pres_ret Rel _)
  | |- pres _ (downloadImage _ _ _ (id s ++ "_logo")) => apply pres_downloadImage_in; [reflexivity|exact HnL|exact HlL]
  | |- pres _ (downloadImage _ _ _ (id s ++ "_map")) => apply pres_downloadImage_in; [reflexivity|exact HnM|exact HlM]
  | |- pres _ (match ?x with _ => _ end) => destruct x
  | |- pres _ (if ?x then _ else _) => destruct x
  end.
Qed.

Lemma pres_backup_loop imgs R :
  Forall (fun s => no_slash (id s) = true) R -> pres Rel (backup_images_loop E (backup_dir E) imgs R).
Proof.
  intros HR. revert imgs. induction HR as [|s R Hs HR IH]; intros imgs; [exact (pres_ret Rel _)|].
  cbn [backup_images_loop]. refine (pres_bind Rel _ _ (pres_backup_shop_images imgs s Hs) (fun _ => IH _)).
Qed.

Lemma pres_createFullBackup :
  (forall R, db_shops E = Some R -> Forall (fun s => no_slash (id s) = true) R) ->
  pres Rel (createFullBackup E).
Proof.
  intros HR. unfold createFullBackup, getShops.
  refine (pres_catch Rel _ _ _ (fun _ => pres_ret Rel _)).
  destruct (db_shops E) as [R|] eqn:Edb; [|intros w; cbv [bind throw]; reflexivity].
  match goal with |- pres Rel (bind (ret R) ?k) =>
    assert (Hk : pres Rel (k R)); [cbv beta|exact (fun w => Hk w)] end.
  rewrite (join_ok (backup_dir E) ["images"]), join_images, join_images, join_clean1, join_clean1
    by (reflexivity || exact HB || (eapply Forall_impl; [exact HB|]; intros x Hx; apply andb_prop in Hx; tauto)
        || (repeat constructor)).
  rewrite <- (app_nil_r (backup_dir E)) at 1.
  refine (pres_bind Rel _ _ (Hmk [] ltac:(simpl; lia) ltac:(constructor)) (fun _ => _)).
  refine (pres_bind Rel _ _ (Hmk ["images"] ltac:(simpl; lia) ltac:(repeat constructor)) (fun _ => _)).
  refine (pres_bind Rel _ _ (Hmk ["images"; "logos"] ltac:(simpl; lia) ltac:(repeat constructor)) (fun _ => _)).
  refine (pres_bind Rel _ _ (Hmk ["images"; "maps"] ltac:(simpl; lia) ltac:(repeat constructor)) (fun _ => _)).
  refine (pres_bind Rel _ _ (pres_backup_loop _ _ (HR R eq_refl)) (fun _ => _)).
  refine (pres_bind Rel _ _ (Hwr ["backup-data.json"] _ ltac:(discriminate) ltac:(repeat constructor)) (fun _ => _)).
  refine (pres_bind Rel _ _ (Hwr ["README.md"] _ ltac:(discriminate) ltac:(repeat constructor)) (fun _ => _)).
  unfold createZipResponse.
  refine (pres_bind Rel _ _ (pres_same Rel get_fs (fun w => eq_refl)) (fun _ => pres_ret Rel _)).
Qed.

End Pres.

Section Skip.
Variable E : Env.




End Skip.



End BackupRun.

Module RoundTrip.
Import FsFacts FsWf PathFacts FsClean FsRestore BackupFacts BackupRun RestoreRun EntryNames ExtractMirror.







































End RoundTrip.

(** ** C1: a full backup restored *)
Module C1Run.
Import Scenario Run FsWf FsClean FsRestore RestoreRun RoundTrip.


End C1Run.

Module Extras.
Import FsFacts FsWf PathFacts FsClean FsRestore BackupFacts BackupRun RestoreRun EntryNames ExtractMirror RoundTrip.



Lemma restoreShops_from_filter E c l w :
  restoreShopsToDatabase_from E c l w =
    (Ok (c + length (List.filter (fun s => insert_ok E (strip_id s)) l)),
     mkWorld (fs w)
       (trace w ++ map (fun s => EvInsert (strip_id s)) (List.filter (fun s => insert_ok E (strip_id s)) l))%list
       (upload_calls w)).
Proof.
  revert c w. induction l as [|s l IH]; intros c w.
  - rewrite Nat.add_0_r, app_nil_r. destruct w; reflexivity.
  - cbn [restoreShopsToDatabase_from List.filter]. unfold bind at 1, catch, bind, createShop.
    destruct (insert_ok E (strip_id s)).
    + unfold emit, ret. rewrite IH. cbn [fs trace upload_calls length map].
      rewrite <- app_assoc, Nat.add_succ_r. reflexivity.
    + unfold throw, ret. rewrite IH. reflexivity.
Qed.

(** [restoreShopsToDatabase] never fails: it returns the number of shops
    whose insert succeeds, and the inserts that reach the store are exactly
    those of these shops, without their id, in the order of the list; the
    files are not touched. *)
Theorem restoreShopsToDatabase_counts_inserted E l w :
  restoreShopsToDatabase E l w =
    (Ok (length (List.filter (fun s => insert_ok E (strip_id s)) l)),
     mkWorld (fs w)
       (trace w ++ map (fun s => EvInsert (strip_id s)) (List.filter (fun s => insert_ok E (strip_id s)) l))%list
       (upload_calls w)).
Proof. unfold restoreShopsToDatabase. apply restoreShops_from_filter. Qed.

(** [updateShopImageUrls] keeps the id, the name and the other fields of a
    shop; it sets its logo (its map) to the new path of the file its id is
    indexed to when the id, the indexed path and the new path are all
    non-empty, and leaves it as it is otherwise. *)
Theorem update_shop_fields imgs m s :
  id (update_shop imgs m s) = id s /\ name (update_shop imgs m s) = name s /\
  other_fields (update_shop imgs m s) = other_fields s /\
  forall k, kind_field k (update_shop imgs m s) =
    match kind_index k imgs !! id s with
    | Some p => if JS.truthy (Some (id s)) && JS.truthy (Some p) && JS.truthy (m !! p)
                then m !! p else kind_field k s
    | None => kind_field k s
    end.
Proof.
  destruct s as [i n lg mp o]. unfold update_shop. cbv zeta.
  cbn [id name logo mapImageUrl other_fields].
  split; [|split; [|split; [|intros []; cbn [kind_field kind_index logo mapImageUrl]]]];
  repeat (case_match; cbn [id name logo mapImageUrl other_fields andb] in *; rewrite ?andb_true_r, ?andb_false_r in *;
          repeat match goal with Hb : _ && _ = true |- _ => apply andb_prop in Hb as [? ?] end;
          repeat match goal with Hb : JS.truthy _ = ?b |- _ => progress rewrite Hb in * end;
          cbn [andb] in *;
          try reflexivity; try congruence).
Qed.


(** [cleanupDirectory] never fails. On a directory it removes the directory
    and everything below it and leaves every other path as it was; on a
    missing path or on a file it changes nothing. *)
Theorem cleanupDirectory_removes_below d w :
  wf (fs w) -> clean_keys (fs w) -> d <> [] ->
  exists w', cleanupDirectory d w = (Ok tt, w') /\
    trace w' = trace w /\ upload_calls w' = upload_calls w /\
    forall k, fs w' !! k =
      match fs w !! d with
      | Some FDir => if below_b d k then None else fs w !! k
      | _ => fs w !! k
      end.
Proof.
  intros Hwf Hcl Hd. destruct (fs w !! d) as [[|c]|] eqn:Ed.
  - exists (cleanup_post d w). split; [apply cleanupDirectory_dir; assumption|].
    split; [reflexivity|]. split; [reflexivity|]. intros k. apply lookup_rm_set.
  - exists w. split; [|auto].
    unfold cleanupDirectory. rewrite cleanup_unfold.
    cbv [catch bind directoryExists FS.stat_isDirectory]. destruct d as [|x p]; [congruence|].
    rewrite Ed. reflexivity.
  - exists (cleanup_post d w). split; [apply cleanupDirectory_absent; assumption|].
    split; [reflexivity|]. split; [reflexivity|]. intros k. unfold cleanup_post. cbn [fs].
    rewrite rm_set_absent by assumption. reflexivity.
Qed.

(** [createFullBackup] leaves every path that is neither below its backup
    directory nor one of the directories above it as it was. *)
Theorem createFullBackup_frame E w k :
  no_slash (now_iso E) = true ->
  (forall R, db_shops E = Some R -> Forall (fun s => no_slash (id s) = true) R) ->
  below_b (backup_dir E) k = false -> below_b k (backup_dir E) = false ->
  fs (snd (createFullBackup E w)) !! k = fs w !! k.
Proof.
  intros Hn HR Hk1 Hk2.
  refine (pres_createFullBackup (same_at k) E (backup_dir_clean E Hn) _ _ HR w).
  - intros q _ _. apply pres_same_at_mkdir.
    destruct (below_b k (backup_dir E ++ q)%list) eqn:Eb; [|reflexivity].
    apply below_b_spec in Eb as [r Hr].
    destruct (prefix_cases k (backup_dir E) r q (eq_sym Hr)) as [H|H]; congruence.
  - intros r c _ _. apply pres_same_at_writeFile. intros Heq. rewrite <- Heq in Hk1. pose proof (FsClean.below_b_app (backup_dir E) r). congruence.
Qed.

(** A full backup that answers an archive names it after the time stamp
    taken at the start of the run ([now_iso]), and the archive holds the
    manifest [backup-data.json]: its metadata gives the time stamp taken
    when the manifest is built ([now_iso_later]), version ["1.0"], the number of shops and
    the type [full], its shop list is the store's, and its image index has
    no entry for a key that is not the id of a shop. *)
Theorem createFullBackup_manifest E R w fn es w' :
  db_shops E = Some R -> no_slash (now_iso E) = true ->
  Forall (fun s => no_slash (id s) = true) R ->
  createFullBackup E w = (Ok (ZipResponse fn es), w') ->
  fn = ("atm-tiendas-backup-" ++ JS.replace_colon_dot (now_iso E) ++ ".zip")%string /\
  exists bd, In (mkEntry "backup-data.json" (EData (CJson bd))) es /\
    metadata bd = mkMetadata (now_iso_later E) "1.0" (length R) Full /\ shops bd = R /\
    (forall k, Forall (fun s => id s <> k) R ->
       logos (images bd) !! k = None /\ maps (images bd) !! k = None).
Proof.
  intros HR Hn HRs H. pose proof (backup_dir_clean E Hn) as HB.
  unfold createFullBackup, catch, getShops in H. rewrite HR in H. cbv beta zeta iota delta [bind ret] in H.
  step_fail H. step_fail H. step_fail H. step_fail H. cbn [trace upload_calls] in H.
  assert (Hok0 : files_ok (backup_dir E) (mkImages ∅ ∅) f2)
    by (split; intros k p Hk; cbn [logos maps] in Hk; rewrite lookup_empty in Hk; discriminate).
  destruct (backup_loop_spec E (backup_dir E) R _ (mkWorld f2 (trace w) (upload_calls w)) HB HRs Hok0)
    as [imgs' [w5 [Hw5 [_ [_ [_ [Hk5 _]]]]]]].
  rewrite Hw5 in H. cbv beta iota in H.
  step_fail H. step_fail H.
  unfold createZipResponse, get_fs in H. cbv [bind ret] in H. cbn [fs] in H.
  injection H as Hfn Hes Hw'. subst fn es w'. cbn [fs] in *.
  rewrite !join_clean1 in * by (exact HB || reflexivity).
  split; [reflexivity|].
  exists (mkBackupData (mkMetadata (now_iso_later E) "1.0" (length R) Full) R imgs').
  split; [|split; [reflexivity|split; [reflexivity|]]].
  - apply (archive_entries_file _ _ ["backup-data.json"] _ ltac:(discriminate)).
    rewrite lookup_insert_ne, lookup_insert_eq; [reflexivity|].
    intros Heq; apply app_inv_head in Heq; discriminate.
  - intros k Hk. cbn [images]. destruct (Hk5 k Hk) as [-> ->]. cbn [logos maps].
    rewrite lookup_empty. split; reflexivity.
Qed.

Lemma upload_loop_count E k dir files : forall r w,
  exists r' w', upload_loop E k dir r files w = (Ok r', w') /\ fs w' = fs w /\
    upload_calls w' = upload_calls w + length files /\
    (match k with KLogo => logosUploaded r' | KMap => mapsUploaded r' end) +
      length (failed_files E (fs w) dir (upload_calls w) files) =
      (match k with KLogo => logosUploaded r | KMap => mapsUploaded r end) + length files /\
    (match k with KLogo => mapsUploaded r' | KMap => logosUploaded r' end) =
      (match k with KLogo => mapsUploaded r | KMap => logosUploaded r end) /\
    length (up_errors r') = length (up_errors r) + length (failed_files E (fs w) dir (upload_calls w) files).
Proof.
  induction files as [|x rest IH]; intros r w.
  - exists r, w. cbn [upload_loop failed_files length]. unfold ret.
    repeat split; destruct k; lia.
  - destruct (upload_ok_at E (fs w) dir (upload_calls w) x) eqn:Eok.
    + destruct (upload_one_ok E k dir r x w Eok) as [u [op [c [_ [_ [_ Hone]]]]]].
      destruct (IH (bump k r (image_key k x) op)
                 (mkWorld (fs w) (trace w ++ [EvPut u "image/jpeg" c]) (S (upload_calls w))))
        as [r' [w' [Hl [Hf [Hc [Hk [Ho He]]]]]]].
      cbn [fs trace upload_calls] in Hl, Hf, Hc, Hk, He.
      exists r', w'. split; [cbn [upload_loop]; unfold bind at 1; rewrite Hone; exact Hl|].
      cbn [failed_files length]. rewrite Eok. cbn [app].
      split; [exact Hf|]. split; [lia|].
      destruct k; cbn [bump logosUploaded mapsUploaded up_errors] in Hk, Ho, He; lia.
    + destruct (upload_one_fail E k dir r x w Eok) as [m [ev0 [_ Hone]]].
      destruct (IH (add_error r m) (mkWorld (fs w) (trace w ++ ev0) (S (upload_calls w))))
        as [r' [w' [Hl [Hf [Hc [Hk [Ho He]]]]]]].
      cbn [fs trace upload_calls] in Hl, Hf, Hc, Hk, He.
      exists r', w'. split; [cbn [upload_loop]; unfold bind at 1; rewrite Hone; exact Hl|].
      cbn [failed_files length]. rewrite Eok. cbn [app length].
      split; [exact Hf|]. split; [lia|].
      cbn [add_error up_errors] in He. rewrite List.length_app in He. cbn [length] in He.
      destruct k; cbn [add_error logosUploaded mapsUploaded] in Hk, Ho; lia.
Qed.

(** [uploadImagesFromBackup] never fails and writes no file, and every file
    it finds in the image folders is counted once: as an uploaded logo or
    map when its upload succeeds, as one error message when it fails. *)
Theorem uploadImagesFromBackup_counts E D bd w :
  upload_dir D KLogo <> [] -> upload_dir D KMap <> [] ->
  exists r w', uploadImagesFromBackup E D bd w = (Ok r, w') /\ fs w' = fs w /\
    logosUploaded r + length (failed_files E (fs w) (upload_dir D KLogo) (upload_calls w)
                                (image_files (fs w) D KLogo)) =
      length (image_files (fs w) D KLogo) /\
    mapsUploaded r + length (failed_files E (fs w) (upload_dir D KMap)
                               (upload_calls w + length (image_files (fs w) D KLogo))
                               (image_files (fs w) D KMap)) =
      length (image_files (fs w) D KMap) /\
    length (up_errors r) = length (failed_uploads E (fs w) D (upload_calls w)).
Proof.
  intros HL HM. unfold uploadImagesFromBackup, bind. rewrite upload_kind_loop by exact HL.
  destruct (upload_loop_count E KLogo (upload_dir D KLogo) (image_files (fs w) D KLogo)
              (mkUploadResult 0 0 ∅ []) w) as [r1 [w1 [Hl1 [Hf1 [Hc1 [Hk1 [Ho1 He1]]]]]]].
  rewrite Hl1, upload_kind_loop by exact HM. rewrite Hf1.
  destruct (upload_loop_count E KMap (upload_dir D KMap) (image_files (fs w) D KMap) r1 w1)
    as [r2 [w2 [Hl2 [Hf2 [Hc2 [Hk2 [Ho2 He2]]]]]]].
  rewrite Hf1, Hc1 in *. exists r2, w2. split; [exact Hl2|]. split; [congruence|].
  cbn [logosUploaded mapsUploaded up_errors length] in *.
  unfold failed_uploads. rewrite List.length_app, !length_map. lia.
Qed.




(** When [downloadImage] reports a saved file name, that name is the
    requested base name followed by a slash-free extension, and the
    destination directory holds a file under that name. *)
Theorem downloadImage_saves E u dir name w fn w' :
  downloadImage E u dir name w = (Ok (Some fn), w') ->
  exists ext c, fn = (name ++ ext)%string /\ no_slash ext = true /\
                fs w' !! Path.join dir [fn] = Some (FFile c).
Proof. apply downloadImage_some. Qed.

Import Scenario Run.


Lemma cleanupDirectory_removes_below_witness :
  exists w', cleanupDirectory ["tmp"; "uploads"] world0 = (Ok tt, w') /\
    trace w' = trace world0 /\ upload_calls w' = upload_calls world0 /\
    forall k, fs w' !! k =
      match fs world0 !! ["tmp"; "uploads"] with
      | Some FDir => if below_b ["tmp"; "uploads"] k then None else fs world0 !! k
      | _ => fs world0 !! k
      end.
Proof.
  apply cleanupDirectory_removes_below.
  - apply wf_b_spec. vm_compute. reflexivity.
  - apply clean_b_spec. vm_compute. reflexivity.
  - discriminate.
Defined.

Lemma createFullBackup_frame_witness :
  fs (snd (createFullBackup env1 world0)) !! zip = fs world0 !! zip.
Proof.
  apply createFullBackup_frame.
  - reflexivity.
  - intros R0 H0. injection H0 as <-. repeat constructor.
  - vm_compute. reflexivity.
  - vm_compute. reflexivity.
Defined.

Lemma createFullBackup_manifest_witness :
  filename1 = ("atm-tiendas-backup-" ++ JS.replace_colon_dot (now_iso env1) ++ ".zip")%string /\
  exists bd, In (mkEntry "backup-data.json" (EData (CJson bd))) archive1 /\
    metadata bd = mkMetadata (now_iso_later env1) "1.0" (length [shopA; shopB; shopC]) Full /\
    shops bd = [shopA; shopB; shopC] /\
    (forall k, Forall (fun s => id s <> k) [shopA; shopB; shopC] ->
       logos (images bd) !! k = None /\ maps (images bd) !! k = None).
Proof.
  apply (createFullBackup_manifest env1 [shopA; shopB; shopC] world0 filename1 archive1 (snd backup1)).
  - reflexivity.
  - reflexivity.
  - repeat constructor.
  - vm_compute. reflexivity.
Defined.

Lemma uploadImagesFromBackup_counts_witness :
  exists r w', uploadImagesFromBackup env1 (backup_dir env1) (manifest []) (snd backup1) = (Ok r, w') /\
    fs w' = fs (snd backup1) /\
    logosUploaded r + length (failed_files env1 (fs (snd backup1)) (upload_dir (backup_dir env1) KLogo)
                                (upload_calls (snd backup1)) (image_files (fs (snd backup1)) (backup_dir env1) KLogo)) =
      length (image_files (fs (snd backup1)) (backup_dir env1) KLogo) /\
    mapsUploaded r + length (failed_files env1 (fs (snd backup1)) (upload_dir (backup_dir env1) KMap)
                               (upload_calls (snd backup1) + length (image_files (fs (snd backup1)) (backup_dir env1) KLogo))
                               (image_files (fs (snd backup1)) (backup_dir env1) KMap)) =
      length (image_files (fs (snd backup1)) (backup_dir env1) KMap) /\
    length (up_errors r) = length (failed_uploads env1 (fs (snd backup1)) (backup_dir env1) (upload_calls (snd backup1))).
Proof.
  apply uploadImagesFromBackup_counts; vm_compute; discriminate.
Defined.


Lemma downloadImage_saves_witness :
  downloadImage env1 "https://x/y.jpg" ["tmp"] "c3" world0 =
    (Ok (Some "c3.png"), snd (downloadImage env1 "https://x/y.jpg" ["tmp"] "c3" world0)) /\
  exists ext c, "c3.png" = ("c3" ++ ext)%string /\ no_slash ext = true /\
    fs (snd (downloadImage env1 "https://x/y.jpg" ["tmp"] "c3" world0)) !! Path.join ["tmp"] ["c3.png"] =
      Some (FFile c).
Proof.
  assert (H : downloadImage env1 "https://x/y.jpg" ["tmp"] "c3" world0 =
    (Ok (Some "c3.png"), snd (downloadImage env1 "https://x/y.jpg" ["tmp"] "c3" world0)))
    by (vm_compute; reflexivity).
  split; [exact H|]. exact (downloadImage_saves _ _ _ _ _ _ _ H).
Defined.

End Extras.

Module MemStorageFacts.
Import MemStorage.

Section Maps.
Context {V : Type}.
Implicit Types (m : JSMap V) (k : string) (v : V).

Lemma map_get_set_eq k v m : map_get k (map_set k v m) = Some v.
Proof.
  induction m as [|[k' v'] m IH]; cbn; [rewrite String.eqb_refl; reflexivity|].
  destruct (String.eqb_spec k k'); cbn; [rewrite String.eqb_refl; reflexivity|].
  destruct (String.eqb_spec k k'); [contradiction|exact IH].
Qed.

Lemma map_get_set_ne k k' v m : k' <> k -> map_get k' (map_set k v m) = map_get k' m.
Proof.
  intros Hne. induction m as [|[k0 v0] m IH]; cbn.
  - destruct (String.eqb_spec k' k); [contradiction|reflexivity].
  - destruct (String.eqb_spec k k0) as [->|Hk]; cbn.
    + destruct (String.eqb_spec k' k0); [contradiction|reflexivity].
    + destruct (String.eqb_spec k' k0); [reflexivity|exact IH].
Qed.

Lemma map_get_None k m : map_get k m = None <-> ~ In k (map fst m).
Proof.
  induction m as [|[k' v'] m IH]; cbn; [tauto|].
  destruct (String.eqb_spec k k'); [subst; split; [discriminate|tauto]|].
  rewrite IH. intuition congruence.
Qed.

Lemma map_set_fresh k v m : map_get k m = None -> map_set k v m = (m ++ [(k, v)])%list.
Proof.
  induction m as [|[k' v'] m IH]; cbn; [reflexivity|].
  destruct (String.eqb k k'); [discriminate|]. intros H. rewrite IH by exact H. reflexivity.
Qed.

Lemma map_set_keys k v m :
  map fst (map_set k v m) = if map_get k m then map fst m else (map fst m ++ [k])%list.
Proof.
  induction m as [|[k' v'] m IH]; cbn; [reflexivity|].
  destruct (String.eqb_spec k k') as [->|]; cbn; [reflexivity|].
  rewrite IH. destruct (map_get k m); reflexivity.
Qed.

Lemma map_set_nodup k v m : NoDup (map fst m) -> NoDup (map fst (map_set k v m)).
Proof.
  intros Hd. rewrite map_set_keys. destruct (map_get k m) eqn:Eg; [exact Hd|].
  apply NoDup_app. split; [exact Hd|]. split; [|apply NoDup_singleton].
  intros x Hx Hy. apply list_elem_of_singleton in Hy. subst x.
  apply map_get_None in Eg. apply Eg, list_elem_of_In, Hx.
Qed.

Lemma map_set_values k v m :
  NoDup (map fst m) -> map_get k m <> None ->
  map_values (map_set k v m) = map (fun kv => if String.eqb k kv.1 then v else kv.2) m.
Proof.
  unfold map_values. induction m as [|[k' v'] m IH]; cbn; [congruence|].
  intros Hd Hg. apply NoDup_cons in Hd as [Hn Hd].
  destruct (String.eqb_spec k k') as [->|Hne]; cbn.
  - f_equal. apply map_ext_in. intros [k0 v0] Hin. cbn.
    destruct (String.eqb_spec k' k0) as [->|]; [|reflexivity].
    exfalso. apply Hn, list_elem_of_In. apply (in_map fst) in Hin. exact Hin.
  - f_equal. apply IH; assumption.
Qed.

Lemma filter_all_true {A} (f : A -> bool) (l : list A) :
  (forall x, In x l -> f x = true) -> List.filter f l = l.
Proof.
  induction l as [|x l IH]; cbn; [reflexivity|]. intros H.
  rewrite (H x (or_introl eq_refl)), IH by (intros y Hy; apply H; right; exact Hy). reflexivity.
Qed.

Lemma map_delete_spec k m :
  NoDup (map fst m) ->
  fst (map_delete k m) = bool_decide (map_get k m <> None) /\
  snd (map_delete k m) = List.filter (fun kv => negb (String.eqb k kv.1)) m.
Proof.
  induction m as [|[k' v'] m IH]; cbn; [auto|].
  intros Hd. apply NoDup_cons in Hd as [Hn Hd].
  destruct (String.eqb_spec k k') as [->|Hne]; cbn.
  - split; [reflexivity|]. symmetry. apply filter_all_true. intros [k0 v0] Hin. cbn.
    destruct (String.eqb_spec k' k0) as [->|]; [|reflexivity].
    exfalso. apply Hn, list_elem_of_In. apply (in_map fst) in Hin. exact Hin.
  - destruct (IH Hd) as [H1 H2]. destruct (map_delete k m) as [b r'] eqn:Edl. cbn in *.
    split; [exact H1|]. rewrite H2. reflexivity.
Qed.

Lemma map_get_filter k k' m :
  map_get k' (List.filter (fun kv => negb (String.eqb k kv.1)) m) =
  if String.eqb k' k then None else map_get k' m.
Proof.
  induction m as [|[k0 v0] m IH]; cbn; [destruct (String.eqb k' k); reflexivity|].
  destruct (String.eqb_spec k k0) as [->|Hne]; cbn.
  - rewrite IH. destruct (String.eqb_spec k' k0); reflexivity.
  - destruct (String.eqb_spec k' k0) as [->|]; [|exact IH].
    destruct (String.eqb_spec k0 k); [congruence|reflexivity].
Qed.

End Maps.

(** The keys of a map of rows are distinct, and each row is stored under
    its own id. *)
Definition keyed {V} (key : V -> string) (m : JSMap V) : Prop :=
  NoDup (map fst m) /\ Forall (fun kv => key kv.2 = kv.1) m.

Lemma map_get_in {V} k v (m : JSMap V) : map_get k m = Some v -> In (k, v) m.
Proof.
  induction m as [|[k' v'] m IH]; cbn; [discriminate|].
  destruct (String.eqb_spec k k') as [->|]; [intros H; injection H as ->; left; reflexivity|].
  intros H. right. exact (IH H).
Qed.

Lemma keyed_set {V} (key : V -> string) k v (m : JSMap V) :
  keyed key m -> key v = k -> keyed key (map_set k v m).
Proof.
  intros [Hd Hf] Hk. split; [apply map_set_nodup, Hd|].
  clear Hd. induction Hf as [|[k' v'] m Hkv Hf IH]; cbn; [repeat constructor; exact Hk|].
  destruct (String.eqb k k'); constructor; auto.
Qed.

Lemma keyed_filter {V} (key : V -> string) (p : string * V -> bool) (m : JSMap V) :
  keyed key m -> keyed key (List.filter p m).
Proof.
  intros [Hd Hf]. split.
  - induction m as [|kv m IH]; cbn; [constructor|]. apply NoDup_cons in Hd as [Hn Hd].
    apply Forall_cons in Hf as [_ Hf]. destruct (p kv); [|auto]. cbn. apply NoDup_cons_2; [|auto].
    intros Hin. apply Hn. apply list_elem_of_In in Hin. apply list_elem_of_In.
    apply in_map_iff in Hin as [kv' [<- Hin]]. apply List.filter_In in Hin as [Hin _].
    apply in_map, Hin.
  - apply List.Forall_forall. intros kv Hin. apply List.filter_In in Hin as [Hin _].
    exact (proj1 (List.Forall_forall _ _) Hf kv Hin).
Qed.

Lemma find_app {A} (f : A -> bool) (l1 l2 : list A) :
  List.find f (l1 ++ l2) = match List.find f l1 with Some x => Some x | None => List.find f l2 end.
Proof. induction l1 as [|x l1 IH]; cbn; [reflexivity|]. destruct (f x); [reflexivity|exact IH]. Qed.

Lemma find_none {A} (f : A -> bool) (l : list A) : (forall x, In x l -> f x = false) -> List.find f l = None.
Proof.
  induction l as [|x l IH]; cbn; [reflexivity|]. intros H.
  rewrite (H x (or_introl eq_refl)). apply IH. intros y Hy. apply H. right. exact Hy.
Qed.

Lemma filter_filter_andb {A} (p q : A -> bool) (l : list A) :
  List.filter q (List.filter p l) = List.filter (fun x => p x && q x) l.
Proof.
  induction l as [|x l IH]; cbn; [reflexivity|].
  destruct (p x); cbn; [destruct (q x); cbn; rewrite IH; reflexivity|exact IH].
Qed.

Lemma values_filter_keyed {V} (key : V -> string) k (m : JSMap V) :
  Forall (fun kv => key kv.2 = kv.1) m ->
  map_values (List.filter (fun kv => negb (String.eqb k kv.1)) m) =
  List.filter (fun v => negb (String.eqb k (key v))) (map_values m).
Proof.
  unfold map_values. induction 1 as [|[k' v'] m Hkv Hf IH]; cbn in *; [reflexivity|].
  rewrite Hkv. destruct (String.eqb k k'); cbn; [exact IH|rewrite IH; reflexivity].
Qed.

Lemma values_set_keyed {V} (key : V -> string) k v (m : JSMap V) :
  keyed key m -> map_get k m <> None ->
  map_values (map_set k v m) = map (fun x => if String.eqb k (key x) then v else x) (map_values m).
Proof.
  intros [Hd Hf] Hg. rewrite map_set_values by assumption. unfold map_values. rewrite map_map.
  apply map_ext_in. intros [k' v'] Hin. cbn.
  pose proof (proj1 (List.Forall_forall _ _) Hf _ Hin) as Hk. cbn in Hk. rewrite Hk. reflexivity.
Qed.

(** [createShop], [updateShop] and [deleteShop] keep the shops of a
    [MemStorage] keyed by their ids: distinct keys, each shop stored under
    its own id. *)
Theorem shop_store_keyed i s u st :
  keyed id (shops st) ->
  keyed id (shops (snd (createShop i s st))) /\
  keyed id (shops (snd (updateShop i u st))) /\
  keyed id (shops (snd (deleteShop i st))).
Proof.
  intros Hk. split; [|split].
  - cbn. apply keyed_set; [exact Hk|reflexivity].
  - unfold updateShop. destruct (map_get i (shops st)) as [e|] eqn:Eg; [|exact Hk].
    cbn. apply keyed_set; [exact Hk|]. cbn.
    apply map_get_in in Eg. exact (proj1 (List.Forall_forall _ _) (proj2 Hk) _ Eg).
  - unfold deleteShop. pose proof (map_delete_spec i (shops st) (proj1 Hk)) as [_ H2].
    destruct (map_delete i (shops st)) as [b ss]. cbn in *. rewrite H2. apply keyed_filter, Hk.
Qed.

(** A shop created under a fresh id is found by that id, with the fields
    of the insert, and comes last in [getShops]; no other id changes. *)
Theorem createShop_then_getShopById i s st :
  getShopById i st = None ->
  getShopById i (snd (createShop i s st)) = Some (fst (createShop i s st)) /\
  id (fst (createShop i s st)) = i /\ name (fst (createShop i s st)) = i_name s /\
  getShops (snd (createShop i s st)) = (getShops st ++ [fst (createShop i s st)])%list /\
  (forall j, j <> i -> getShopById j (snd (createShop i s st)) = getShopById j st).
Proof.
  unfold getShopById, getShops. intros Hn. cbn [createShop fst snd shops].
  split; [apply map_get_set_eq|]. split; [reflexivity|]. split; [reflexivity|]. split.
  - rewrite map_set_fresh by exact Hn. unfold map_values. rewrite map_app. reflexivity.
  - intros j Hj. apply map_get_set_ne, Hj.
Qed.

(** [updateShop] of a missing id answers [undefined] and changes nothing;
    of a stored shop it answers the updated shop, which keeps its id and
    its place in [getShops]; no other id changes. *)
Theorem updateShop_result i u st :
  keyed id (shops st) ->
  match getShopById i st with
  | None => updateShop i u st = (None, st)
  | Some e =>
      exists s', fst (updateShop i u st) = Some s' /\ id s' = i /\
        getShopById i (snd (updateShop i u st)) = Some s' /\
        (forall j, j <> i -> getShopById j (snd (updateShop i u st)) = getShopById j st) /\
        getShops (snd (updateShop i u st)) =
          map (fun x => if String.eqb i (id x) then s' else x) (getShops st)
  end.
Proof.
  intros Hk. unfold getShopById, getShops, updateShop.
  destruct (map_get i (shops st)) as [e|] eqn:Eg; [|reflexivity].
  assert (He : id e = i)
    by (apply map_get_in in Eg; exact (proj1 (List.Forall_forall _ _) (proj2 Hk) _ Eg)).
  eexists. cbn [fst snd shops]. split; [reflexivity|]. split; [exact He|].
  split; [apply map_get_set_eq|]. split.
  - intros j Hj. apply map_get_set_ne, Hj.
  - apply values_set_keyed; [exact Hk|congruence].
Qed.

(** [deleteShop] answers whether the id was stored; afterwards the id is
    gone, no other id changes, and [getShops] lists the other shops in the
    same order. *)
Theorem deleteShop_result i st :
  keyed id (shops st) ->
  fst (deleteShop i st) = bool_decide (getShopById i st <> None) /\
  getShopById i (snd (deleteShop i st)) = None /\
  (forall j, j <> i -> getShopById j (snd (deleteShop i st)) = getShopById j st) /\
  getShops (snd (deleteShop i st)) = List.filter (fun x => negb (String.eqb i (id x))) (getShops st).
Proof.
  intros [Hd Hf]. unfold deleteShop, getShopById, getShops.
  pose proof (map_delete_spec i (shops st) Hd) as [H1 H2].
  destruct (map_delete i (shops st)) as [b ss]. cbn [fst snd shops] in *. subst b ss.
  split; [reflexivity|]. split; [|split].
  - rewrite map_get_filter, String.eqb_refl. reflexivity.
  - intros j Hj. rewrite map_get_filter. destruct (String.eqb_spec j i); [contradiction|reflexivity].
  - apply values_filter_keyed, Hf.
Qed.

(** The four filters of [getShopsByFilters], applied one after the other,
    keep exactly the shops of [getShops] that pass every filter given (a
    filter left out or empty lets every shop pass), in their order; with no
    filter given it answers every shop. *)
Theorem getShopsByFilters_conj lower fl st :
  getShopsByFilters lower fl st =
    List.filter (fun shop =>
      (negb (JS.truthy (f_search fl)) ||
         search_hit lower (lower (default "" (f_search fl))) shop) &&
      (negb (JS.truthy (f_category fl)) ||
         existsb (fun cat => String.eqb (lower cat) (lower (default "" (f_category fl)))) (categories shop)) &&
      (negb (JS.truthy (f_city fl)) ||
         String.eqb (lower (city shop)) (lower (default "" (f_city fl)))) &&
      (negb (JS.truthy (f_state fl)) ||
         String.eqb (lower (state shop)) (lower (default "" (f_state fl))))) (getShops st) /\
  (JS.truthy (f_search fl) = false -> JS.truthy (f_category fl) = false ->
   JS.truthy (f_city fl) = false -> JS.truthy (f_state fl) = false ->
   getShopsByFilters lower fl st = getShops st).
Proof.
  assert (Hc : getShopsByFilters lower fl st =
    List.filter (fun shop =>
      (negb (JS.truthy (f_search fl)) ||
         search_hit lower (lower (default "" (f_search fl))) shop) &&
      (negb (JS.truthy (f_category fl)) ||
         existsb (fun cat => String.eqb (lower cat) (lower (default "" (f_category fl)))) (categories shop)) &&
      (negb (JS.truthy (f_city fl)) ||
         String.eqb (lower (city shop)) (lower (default "" (f_city fl)))) &&
      (negb (JS.truthy (f_state fl)) ||
         String.eqb (lower (state shop)) (lower (default "" (f_state fl))))) (getShops st)).
  { unfold getShopsByFilters, getShops.
    destruct (JS.truthy (f_search fl)), (JS.truthy (f_category fl)), (JS.truthy (f_city fl)),
      (JS.truthy (f_state fl)); cbn [negb orb andb]; rewrite ?filter_filter_andb;
      (apply List.filter_ext || (symmetry; apply filter_all_true));
      intros; cbn [negb orb andb]; rewrite ?andb_true_r, ?andb_assoc; reflexivity. }
  split; [exact Hc|]. intros H1 H2 H3 H4. rewrite Hc, H1, H2, H3, H4. apply filter_all_true. reflexivity.
Qed.

(** A user created under a fresh id with a user name no stored user has is
    what [getUserByUsername] then finds for that name, and [getUser] for
    that id; the answer for every other name is unchanged. *)
Theorem createUser_then_getUserByUsername i iu st :
  getUser i st = None ->
  (forall u, In u (getAllUsers st) -> username u <> ins_username iu) ->
  getUserByUsername (ins_username iu) (snd (createUser i iu st)) = Some (fst (createUser i iu st)) /\
  getUser i (snd (createUser i iu st)) = Some (fst (createUser i iu st)) /\
  (forall un, un <> ins_username iu ->
     getUserByUsername un (snd (createUser i iu st)) = getUserByUsername un st).
Proof.
  intros Hn Hu. unfold getUserByUsername, getUser. cbn [createUser fst snd users].
  split; [|split; [apply map_get_set_eq|]]; try intros un Hne;
    rewrite map_set_fresh by exact Hn; unfold map_values; rewrite map_app, find_app; cbn [map snd].
  - rewrite find_none; [cbn; rewrite String.eqb_refl; reflexivity|].
    intros u Hin. apply String.eqb_neq, Hu, Hin.
  - destruct (List.find _ (map snd (users st))); [reflexivity|].
    cbn. destruct (String.eqb_spec (ins_username iu) un); [congruence|reflexivity].
Qed.

(** [updateUserPassword] of a missing id answers [false] and changes
    nothing; of a stored user it answers [true] and changes that user's
    password hash only: its id and name, the other users and the shops stay. *)
Theorem updateUserPassword_result i h st :
  match getUser i st with
  | None => updateUserPassword i h st = (false, st)
  | Some u =>
      fst (updateUserPassword i h st) = true /\
      getUser i (snd (updateUserPassword i h st)) = Some (mkUser (user_id u) (username u) h) /\
      (forall j, j <> i -> getUser j (snd (updateUserPassword i h st)) = getUser j st) /\
      shops (snd (updateUserPassword i h st)) = shops st
  end.
Proof.
  unfold getUser, updateUserPassword. destruct (map_get i (users st)) as [u|]; [|reflexivity].
  cbn [fst snd users shops]. split; [reflexivity|]. split; [apply map_get_set_eq|].
  split; [|reflexivity]. intros j Hj. apply map_get_set_ne, Hj.
Qed.

End MemStorageFacts.

Module ObjectStorageFacts.
Import ObjectStorage PathFacts EntryNames.

Lemma split_slash_nonempty s : JS.split_slash s <> [].
Proof.
  destruct s as [|c r]; cbn; [discriminate|].
  destruct (Ascii.eqb c "/"); [discriminate|]. destruct (JS.split_slash r); discriminate.
Qed.

Lemma join_split_slash s : JS.join_slash (JS.split_slash s) = s.
Proof.
  induction s as [|c r IH]; [reflexivity|]. cbn [JS.split_slash].
  pose proof (split_slash_nonempty r) as Hne.
  destruct (Ascii.eqb_spec c "/") as [->|Hc].
  - destruct (JS.split_slash r) as [|h t] eqn:Er; [congruence|].
    change (JS.join_slash ("" :: h :: t)) with ("" ++ "/" ++ JS.join_slash (h :: t)).
    rewrite IH. reflexivity.
  - destruct (JS.split_slash r) as [|h t] eqn:Er; [congruence|].
    destruct t as [|h2 t].
    + cbn in IH |- *. rewrite IH. reflexivity.
    + change (JS.join_slash (String c h :: h2 :: t)) with (String c h ++ "/" ++ JS.join_slash (h2 :: t)).
      change (JS.join_slash (h :: h2 :: t)) with (h ++ "/" ++ JS.join_slash (h2 :: t)) in IH.
      rewrite str_app_cons, IH. reflexivity.
Qed.

Lemma substring_0_length s : String.substring 0 (String.length s) s = s.
Proof. induction s as [|c r IH]; [reflexivity|]. cbn. rewrite IH. reflexivity. Qed.

Lemma slice_app p s : slice (String.length p) (p ++ s) = s.
Proof.
  unfold slice. induction p as [|c p IH]; cbn [String.length String.append].
  - rewrite Nat.sub_0_r. apply substring_0_length.
  - cbn [String.substring]. exact IH.
Qed.

Lemma startsWith_app p s : JS.startsWith (p ++ s) p = true.
Proof.
  unfold JS.startsWith. induction p as [|c p IH]; [destruct s; reflexivity|].
  rewrite str_app_cons. cbn [String.prefix]. destruct (ascii_dec c c); [exact IH|congruence].
Qed.

Lemma startsWith_slash x : JS.startsWith (String "/" x) "/" = true.
Proof. unfold JS.startsWith. cbn. destruct x; reflexivity. Qed.

Lemma parseObjectPath_slash b o :
  no_slash b = true -> parseObjectPath ("/" ++ b ++ "/" ++ o) = Ok (b, o).
Proof.
  intros Hb. unfold parseObjectPath. change ("/" ++ b ++ "/" ++ o) with (String "/" (b ++ String "/" o)).
  rewrite startsWith_slash. cbv zeta iota. cbn [JS.split_slash].
  change (("/" =? "/")%char) with true. cbv iota.
  rewrite split_slash_sep by exact Hb.
  pose proof (split_slash_nonempty o) as Hne. destruct (JS.split_slash o) as [|h t] eqn:Eo; [congruence|].
  cbn [length skipn nth Nat.ltb Nat.leb]. rewrite <- Eo, join_split_slash. reflexivity.
Qed.

Lemma parseObjectPath_noslash_start p :
  JS.startsWith p "/" = false -> parseObjectPath p = parseObjectPath ("/" ++ p).
Proof.
  intros H. unfold parseObjectPath. rewrite H. change ("/" ++ p) with (String "/" p).
  rewrite startsWith_slash. reflexivity.
Qed.

Lemma startsWith_not_slash c x : Ascii.eqb c "/"%char = false -> JS.startsWith (String c x) "/" = false.
Proof.
  intros Hc. unfold JS.startsWith. cbn [String.prefix].
  destruct (ascii_dec "/" c) as [<-|]; [discriminate|reflexivity].
Qed.

Lemma startsWith_inv s p : JS.startsWith s p = true -> exists x, s = (p ++ x)%string.
Proof.
  unfold JS.startsWith. revert s. induction p as [|c p IH]; intros s H.
  - exists s. reflexivity.
  - destruct s as [|c' s]; [discriminate|]. cbn [String.prefix] in H.
    destruct (ascii_dec c c') as [<-|]; [|discriminate].
    destruct (IH s H) as [x ->]. exists x. reflexivity.
Qed.

Lemma strip_trailing_app p x :
  URL.str_existsb URL.is_c0_or_space p = false ->
  URL.strip_trailing (p ++ x) = (p ++ URL.strip_trailing x)%string.
Proof.
  induction p as [|c p IH]; intros H; [reflexivity|].
  cbn [URL.str_existsb] in H. apply orb_false_iff in H as [Hc Hp].
  change (String c p ++ x)%string with (String c (p ++ x)).
  change (String c p ++ URL.strip_trailing x)%string with (String c (p ++ URL.strip_trailing x)).
  cbn [URL.strip_trailing]. rewrite (IH Hp), Hc.
  destruct (String.eqb _ _); reflexivity.
Qed.

Lemma remove_tab_nl_app a b :
  URL.remove_tab_nl (a ++ b) = (URL.remove_tab_nl a ++ URL.remove_tab_nl b)%string.
Proof.
  induction a as [|c a IH]; [reflexivity|].
  change (String c a ++ b)%string with (String c (a ++ b)). cbn [URL.remove_tab_nl].
  rewrite IH. destruct (_ || _); reflexivity.
Qed.

Lemma serialize_path_slash l : l <> [] -> exists t, URL.serialize_path l = String "/" t.
Proof. destruct l as [|x l]; [congruence|]. intros _. eexists. reflexivity. Qed.

Lemma path_loop_nonempty sp s : forall buf segs, URL.path_loop sp s buf segs <> [].
Proof.
  induction s as [|c r IH]; intros buf segs; cbn [URL.path_loop].
  - unfold URL.end_segment. destruct (URL.is_double_dot buf), (URL.is_single_dot buf); discriminate.
  - destruct (_ || _); apply IH.
Qed.

Lemma path_of_slash sp s : exists t, URL.path_of sp s = String "/" t.
Proof.
  unfold URL.path_of. apply serialize_path_slash. intros H.
  apply (f_equal (@rev string)) in H. rewrite rev_involutive in H.
  exact (path_loop_nonempty sp s EmptyString [] H).
Qed.

Lemma special_path_slash q : exists t, URL.special_path q = String "/" t.
Proof.
  unfold URL.special_path. destruct q as [|c r]; [apply path_of_slash|].
  destruct (URL.is_slash_bs c); apply path_of_slash.
Qed.

(** The pathname of a URL with a special scheme starts with a slash. *)
Lemma special_pathname_slash rest p :
  URL.special_pathname rest = Ok p -> exists t, p = String "/" t.
Proof.
  unfold URL.special_pathname. destruct (URL.span _ _) as [auth q].
  destruct (URL.authority_ok true auth); intros H; [|discriminate].
  injection H as <-. apply special_path_slash.
Qed.

Lemma url_pathname_gcs_slash x p :
  url_pathname ("https://storage.googleapis.com/" ++ x) = Ok p -> exists t, p = String "/" t.
Proof.
  unfold url_pathname.
  change (URL.strip_leading ("https://storage.googleapis.com/" ++ x))
    with ("https://storage.googleapis.com/" ++ x)%string.
  rewrite strip_trailing_app by reflexivity. rewrite remove_tab_nl_app.
  intros H. exact (special_pathname_slash ("//storage.googleapis.com/" ++ URL.remove_tab_nl (URL.strip_trailing x)) p H).
Qed.

(** An object path [/b/o], or [b/o] with a non-empty [b], with a bucket name
    [b] without a slash, is parsed back into the bucket [b] and the object
    name [o], whatever [o] is. *)
Theorem parseObjectPath_roundtrip b o :
  no_slash b = true ->
  parseObjectPath ("/" ++ b ++ "/" ++ o) = Ok (b, o) /\
  (b <> "" -> parseObjectPath (b ++ "/" ++ o) = Ok (b, o)).
Proof.
  intros Hb. split; [exact (parseObjectPath_slash b o Hb)|]. intros Hne.
  destruct b as [|c b]; [congruence|].
  cbn [no_slash] in Hb. apply andb_prop in Hb as [Hc Hb']. apply negb_true_iff in Hc.
  rewrite parseObjectPath_noslash_start by (rewrite str_app_cons; exact (startsWith_not_slash c _ Hc)).
  apply parseObjectPath_slash. cbn [no_slash]. rewrite Hc, Hb'. reflexivity.
Qed.

(** A path with no slash at all, with or without one leading slash, names
    no bucket: [parseObjectPath] throws "Invalid path". *)
Theorem parseObjectPath_too_short p :
  no_slash p = true ->
  parseObjectPath p = Err "Invalid path: must contain at least a bucket name" /\
  parseObjectPath ("/" ++ p) = Err "Invalid path: must contain at least a bucket name".
Proof.
  intros Hp.
  assert (Hs : parseObjectPath ("/" ++ p) = Err "Invalid path: must contain at least a bucket name").
  { unfold parseObjectPath. change ("/" ++ p) with (String "/" p). rewrite startsWith_slash.
    cbv zeta iota. cbn [JS.split_slash]. change (("/" =? "/")%char) with true. cbv iota.
    rewrite split_slash_no_slash by exact Hp. reflexivity. }
  split; [|exact Hs].
  rewrite parseObjectPath_noslash_start; [exact Hs|].
  destruct p as [|c p]; [reflexivity|].
  cbn [no_slash] in Hp. apply andb_prop in Hp as [Hc _]. apply negb_true_iff in Hc.
  exact (startsWith_not_slash c p Hc).
Qed.

(** [getObjectFile] on ["/objects/" ++ b ++ "/" ++ o], with a bucket name
    [b] without a slash, looks up the object [o] in the bucket [b]: an empty
    bucket name or an empty object name makes the storage client throw its
    own error first; otherwise it returns that file when it exists, throws
    "Object not found" when it does not, and throws the error of
    [file.exists()] when that check fails. *)
Theorem getObjectFile_objects ex b o :
  no_slash b = true ->
  getObjectFile ex ("/objects/" ++ b ++ "/" ++ o) =
  if String.eqb b "" then Err "A bucket name is needed to use Cloud Storage."
  else if String.eqb o "" then Err "A file name must be specified."
  else match ex b o with
       | Ok true => Ok (b, o)
       | Ok false => Err "Object not found"
       | Err e => Err e
       end.
Proof.
  intros Hb. unfold getObjectFile.
  change ("/objects/" ++ b ++ "/" ++ o) with ("/objects" ++ ("/" ++ b ++ "/" ++ o)).
  replace (JS.startsWith ("/objects" ++ ("/" ++ b ++ "/" ++ o)) "/objects/") with true
    by (symmetry; exact (startsWith_app "/objects/" (b ++ "/" ++ o))).
  cbn [negb]. change 8 with (String.length "/objects"). rewrite slice_app.
  rewrite parseObjectPath_slash by exact Hb. cbv beta iota.
  destruct (String.eqb b ""), (String.eqb o ""); reflexivity.
Qed.

(** A path that starts with a slash is left as it is by
    [normalizeObjectPath]; so normalizing twice gives what normalizing once
    gives. *)
Theorem normalizeObjectPath_idempotent env raw r :
  normalizeObjectPath env raw = Ok r -> normalizeObjectPath env r = Ok r.
Proof.
  assert (Hs : forall t, normalizeObjectPath env (String "/" t) = Ok (String "/" t)).
  { intros t. unfold normalizeObjectPath. unfold JS.startsWith. cbn [String.prefix].
    destruct (ascii_dec "h" "/"); [discriminate|reflexivity]. }
  unfold normalizeObjectPath at 1.
  destruct (JS.startsWith raw "https://storage.googleapis.com/") eqn:Eh; cbn [negb].
  - destruct (url_pathname raw) as [p|e] eqn:Ep; [|discriminate].
    assert (Hp : exists t, p = String "/" t).
    { destruct (startsWith_inv _ _ Eh) as [x ->]. exact (url_pathname_gcs_slash x p Ep). }
    destruct Hp as [t ->].
    destruct (getPrivateObjectDir env) as [dir|e]; [|discriminate].
    destruct (negb _); intros H; injection H as <-; [apply Hs|].
    change ("/objects/" ++ ?x) with (String "/" ("objects/" ++ x)). apply Hs.
  - intros H. injection H as <-. unfold normalizeObjectPath. rewrite Eh. reflexivity.
Qed.
Lemma set_values_fold l acc :
  NoDup acc ->
  NoDup (fold_left (fun acc x => if existsb (String.eqb x) acc then acc else (acc ++ [x])%list) l acc) /\
  (forall x, List.In x (fold_left (fun acc x => if existsb (String.eqb x) acc then acc else (acc ++ [x])%list) l acc)
             <-> List.In x acc \/ List.In x l).
Proof.
  revert acc. induction l as [|a l IH]; intros acc Hd; cbn [fold_left].
  - split; [exact Hd|]. intros x. cbn. tauto.
  - destruct (existsb (String.eqb a) acc) eqn:Ea.
    + apply existsb_exists in Ea as [y [Hy Ey]]. apply String.eqb_eq in Ey as ->.
      destruct (IH acc Hd) as [H1 H2]. split; [exact H1|].
      intros x. rewrite H2. cbn. split; [tauto|]. intros [?|[<-|?]]; tauto.
    + assert (Hd' : NoDup (acc ++ [a])%list).
      { apply NoDup_app. split; [exact Hd|]. split; [|apply NoDup_singleton].
        intros x Hx Hxa. apply list_elem_of_In in Hx. apply list_elem_of_singleton in Hxa as ->.
        assert (existsb (String.eqb a) acc = true) by (apply existsb_exists; exists a; split; [exact Hx|apply String.eqb_refl]).
        congruence. }
      destruct (IH _ Hd') as [H1 H2]. split; [exact H1|].
      intros x. rewrite H2, in_app_iff. cbn. tauto.
Qed.

Lemma set_values_spec l :
  NoDup (set_values l) /\ forall x, List.In x (set_values l) <-> List.In x l.
Proof.
  unfold set_values. destruct (set_values_fold l [] (NoDup_nil_2)) as [H1 H2].
  split; [exact H1|]. intros x. rewrite H2. cbn. tauto.
Qed.

(** [getPublicObjectSearchPaths] returns the distinct non-empty trimmed
    pieces of [PUBLIC_OBJECT_SEARCH_PATHS] split at commas, each once; it
    throws "PUBLIC_OBJECT_SEARCH_PATHS not set" exactly when every trimmed
    piece is empty (in particular when the variable is unset). *)
Theorem getPublicObjectSearchPaths_spec trim env :
  let segs := map trim (split_on ","%char (match env with Some s => s | None => "" end)) in
  match getPublicObjectSearchPaths trim env with
  | Ok ps => NoDup ps /\ ps <> [] /\ (forall x, List.In x ps <-> List.In x segs /\ x <> "")
  | Err e => e = "PUBLIC_OBJECT_SEARCH_PATHS not set. Object storage not configured properly." /\
             (forall x, List.In x segs -> x = "")
  end.
Proof.
  cbv zeta. unfold getPublicObjectSearchPaths. cbv zeta.
  set (segs := map trim _).
  destruct (set_values_spec (List.filter (fun p => negb (String.eqb p "")) segs)) as [Hd Hin].
  assert (Hf : forall x, List.In x (List.filter (fun p => negb (String.eqb p "")) segs) <-> List.In x segs /\ x <> "").
  { intros x. rewrite filter_In, negb_true_iff, String.eqb_neq. tauto. }
  destruct (set_values _) as [|p ps] eqn:Es; cbn [length Nat.eqb].
  - split; [reflexivity|]. intros x Hx. destruct (String.eqb_spec x "") as [|Hne]; [assumption|].
    exfalso. apply (proj2 (Hin x)). apply Hf. tauto.
  - split; [exact Hd|]. split; [discriminate|]. intros x. rewrite Hin. apply Hf.
Qed.
(** [getUploadURL] signs a URL for an object in the bucket named by the
    first segment of [PRIVATE_OBJECT_DIR]: with the directory ["/b/d"] the
    object is ["d/shops/<type>/<id>"], with a bare bucket name ["b"] it is
    ["shops/<type>/<id>"]; without the variable it throws. *)
Theorem getUploadURL_target b d type objectId :
  no_slash b = true ->
  getUploadURL (Some ("/" ++ b ++ "/" ++ d)) type objectId =
    Ok (b, d ++ "/shops/" ++ type ++ "/" ++ objectId) /\
  (b <> "" -> getUploadURL (Some b) type objectId = Ok (b, "shops/" ++ type ++ "/" ++ objectId)) /\
  getUploadURL None type objectId = Err "PRIVATE_OBJECT_DIR not set. Object storage not configured properly.".
Proof.
  intros Hb. split; [|split].
  - unfold getUploadURL, getPrivateObjectDir. change ("/" ++ b ++ "/" ++ d) with (String "/" (b ++ "/" ++ d)).
    cbn [String.eqb]. change (String "/" (b ++ "/" ++ d)) with ("/" ++ b ++ "/" ++ d).
    rewrite <- !str_app_assoc.
    apply parseObjectPath_slash, Hb.
  - intros Hne. destruct b as [|c b]; [congruence|].
    unfold getUploadURL, getPrivateObjectDir. cbn [String.eqb].
    cbn [no_slash] in Hb. apply andb_prop in Hb as [Hc Hb']. apply negb_true_iff in Hc.
    rewrite parseObjectPath_noslash_start by (rewrite str_app_cons; exact (startsWith_not_slash c _ Hc)).
    change ("/shops/" ++ type ++ "/" ++ objectId) with ("/" ++ ("shops/" ++ type ++ "/" ++ objectId)).
    apply parseObjectPath_slash. cbn [no_slash]. rewrite Hc, Hb'. reflexivity.
  - reflexivity.
Qed.
(** Witnesses, on the private directory ["/bucket/.private"] and the upload
    URL of the scenario. *)

Lemma parseObjectPath_roundtrip_witness :
  no_slash "bucket" = true /\
  parseObjectPath "/bucket/.private/uploads/u0" = Ok ("bucket", ".private/uploads/u0") /\
  parseObjectPath "bucket/.private/uploads/u0" = Ok ("bucket", ".private/uploads/u0").
Proof.
  assert (Hb : no_slash "bucket" = true) by reflexivity.
  destruct (parseObjectPath_roundtrip "bucket" ".private/uploads/u0" Hb) as [H1 H2].
  split; [exact Hb|]. split; [exact H1|]. apply H2. discriminate.
Defined.

Lemma parseObjectPath_too_short_witness :
  no_slash "bucket" = true /\
  parseObjectPath "bucket" = Err "Invalid path: must contain at least a bucket name" /\
  parseObjectPath "/bucket" = Err "Invalid path: must contain at least a bucket name".
Proof.
  assert (Hb : no_slash "bucket" = true) by reflexivity.
  split; [exact Hb|]. exact (parseObjectPath_too_short "bucket" Hb).
Defined.

Lemma getObjectFile_objects_witness :
  no_slash "uploads" = true /\
  getObjectFile (fun b o => Ok (String.eqb b "uploads" && String.eqb o "u0")) "/objects/uploads/u0" =
    Ok ("uploads", "u0").
Proof.
  assert (Hb : no_slash "uploads" = true) by reflexivity.
  split; [exact Hb|].
  exact (getObjectFile_objects (fun b o => Ok (String.eqb b "uploads" && String.eqb o "u0")) "uploads" "u0" Hb).
Defined.

Lemma normalizeObjectPath_idempotent_witness :
  normalizeObjectPath (Some "/bucket/.private") "https://storage.googleapis.com/bucket/.private/uploads/u0?X=1"
    = Ok "/objects/uploads/u0" /\
  normalizeObjectPath (Some "/bucket/.private") "/objects/uploads/u0" = Ok "/objects/uploads/u0".
Proof.
  assert (H : normalizeObjectPath (Some "/bucket/.private")
                "https://storage.googleapis.com/bucket/.private/uploads/u0?X=1" = Ok "/objects/uploads/u0")
    by (vm_compute; reflexivity).
  split; [exact H|]. exact (normalizeObjectPath_idempotent _ _ _ H).
Defined.

Lemma getUploadURL_target_witness :
  no_slash "bucket" = true /\
  getUploadURL (Some "/bucket/.private") "logo" "id1" = Ok ("bucket", ".private/shops/logo/id1").
Proof.
  assert (Hb : no_slash "bucket" = true) by reflexivity.
  split; [exact Hb|]. exact (proj1 (getUploadURL_target "bucket" ".private" "logo" "id1" Hb)).
Defined.
End ObjectStorageFacts.

Module ShopRoutesFacts.
Import MemStorage ShopRoutes ObjectStorageFacts Stdlib.Sorting.Sorted.

Lemma sort_set_values l :
  let r := StrSort.sort (ObjectStorage.set_values l) in
  NoDup r /\ Sorted (fun a b => String.leb a b = true) r /\ (forall x, List.In x r <-> List.In x l).
Proof.
  cbv zeta. destruct (set_values_spec l) as [Hd Hin].
  pose proof (StrSort.Permuted_sort (ObjectStorage.set_values l)) as Hp.
  split; [|split].
  - rewrite <- Hp. exact Hd.
  - apply StrSort.Sorted_sort.
  - intros x. rewrite <- Hin. split; apply Permutation_in; [symmetry|]; exact Hp.
Qed.

(** The categories route answers every category of every shop exactly
    once, in ascending order, and nothing else. *)
Theorem shopCategories_spec shops :
  NoDup (shopCategories shops) /\
  Sorted (fun a b => String.leb a b = true) (shopCategories shops) /\
  (forall c, List.In c (shopCategories shops) <-> exists s, List.In s shops /\ List.In c (categories s)).
Proof.
  unfold shopCategories. destruct (sort_set_values (flat_map categories shops)) as [H1 [H2 H3]].
  split; [exact H1|]. split; [exact H2|]. intros c. rewrite H3, in_flat_map. reflexivity.
Qed.

(** The cities route and the states route answer every city (state) of a
    shop exactly once, in ascending order, and nothing else. *)
Theorem shopCities_shopStates_spec shops :
  (NoDup (shopCities shops) /\
   Sorted (fun a b => String.leb a b = true) (shopCities shops) /\
   (forall c, List.In c (shopCities shops) <-> exists s, List.In s shops /\ city s = c)) /\
  (NoDup (shopStates shops) /\
   Sorted (fun a b => String.leb a b = true) (shopStates shops) /\
   (forall c, List.In c (shopStates shops) <-> exists s, List.In s shops /\ state s = c)).
Proof.
  unfold shopCities, shopStates.
  destruct (sort_set_values (map city shops)) as [H1 [H2 H3]].
  destruct (sort_set_values (map state shops)) as [H4 [H5 H6]].
  split; (split; [assumption|split; [assumption|]]); intros c;
    [rewrite H3, in_map_iff|rewrite H6, in_map_iff]; firstorder.
Qed.
End ShopRoutesFacts.

Module AuthFacts.
Import MemStorage MemStorageFacts AuthRoutes.

Lemma map_get_nodup_in {V} k v (m : JSMap V) : NoDup (map fst m) -> In (k, v) m -> map_get k m = Some v.
Proof.
  induction m as [|[k' v'] m IH]; cbn; [tauto|]. intros Hd Hin.
  apply NoDup_cons in Hd as [Hn Hd].
  destruct Hin as [Heq|Hin].
  - injection Heq as -> ->. rewrite String.eqb_refl. reflexivity.
  - destruct (String.eqb_spec k k') as [->|]; [|exact (IH Hd Hin)].
    exfalso. apply Hn. apply list_elem_of_In. apply (in_map fst) in Hin. exact Hin.
Qed.

Lemma createAdmin_on_empty hash i ud st :
  getAllUsers st = [] ->
  createAdmin hash i (Some ud) st =
  (Created 201 "Initial admin user created successfully" i (ins_username ud),
   mkMem [(i, mkUser i (ins_username ud) (hash (ins_password ud)))] (shops st)).
Proof.
  intros He. unfold createAdmin. rewrite He. cbn [length Nat.ltb Nat.leb].
  unfold getAllUsers, map_values in He. apply map_eq_nil in He.
  unfold getUserByUsername, createUser, map_values. rewrite He. reflexivity.
Qed.

(** [create-admin] refuses with 403, changing nothing, as soon as a user
    exists; on an empty store with a valid body it creates exactly one user,
    whose stored password is the hash of the given one, and answers 201 with
    its id and name. *)
Theorem createAdmin_first_only hash i body st :
  (getAllUsers st <> [] ->
   createAdmin hash i body st =
   (Status 403 "Admin creation disabled. Admin users already exist. Use the authenticated admin panel to create additional users.", st)) /\
  (getAllUsers st = [] -> forall ud, body = Some ud ->
   createAdmin hash i body st =
   (Created 201 "Initial admin user created successfully" i (ins_username ud),
    mkMem [(i, mkUser i (ins_username ud) (hash (ins_password ud)))] (shops st))).
Proof.
  unfold createAdmin. split.
  - intros Hne. destruct (getAllUsers st) as [|u us]; [congruence|]. reflexivity.
  - intros He ud ->. apply createAdmin_on_empty, He.
Qed.

(** A login that succeeds stores the user's id in the session; a login
    that fails leaves the session as it was. When the store keys every
    user by its id and that id is not empty, [requireAuth] then lets the
    request through with the user who logged in. *)
Theorem login_session compare body sess st :
  keyed user_id (users st) ->
  match login compare body sess st with
  | (LoginOk _ uid un, s') =>
      s' = Some uid /\
      (uid <> "" -> exists u, requireAuth s' st = Next u /\ user_id u = uid /\ username u = un)
  | (_, s') => s' = sess
  end.
Proof.
  intros [Hd Hk]. unfold login.
  destruct body as [[un pw]|]; [|reflexivity].
  destruct (_ || _); [reflexivity|].
  destruct (getUserByUsername un st) as [user|] eqn:Eu; [|reflexivity].
  destruct (compare pw (password user)); [|reflexivity].
  split; [reflexivity|]. intros Hne. exists user.
  unfold getUserByUsername, map_values in Eu. apply find_some in Eu as [Hin _].
  apply in_map_iff in Hin as [[k u'] [Hu Hin]]. cbn in Hu. subst u'.
  pose proof (proj1 (List.Forall_forall _ _) Hk _ Hin) as Hkey. cbn in Hkey. subst k.
  unfold requireAuth. cbn [JS.truthy default negb].
  destruct (String.eqb_spec (user_id user) "") as [|_]; [congruence|]. cbn [negb].
  unfold getUser, Datatypes.id. rewrite (map_get_nodup_in _ _ _ Hd Hin). auto.
Qed.

(** The first admin can log in right after [create-admin] with the name and
    password it was created with, when both are non-empty ([loginSchema]
    asks for at least one character each) and [bcrypt.compare] accepts a
    password against its own hash; the session then passes [requireAuth]
    as that user. *)
Theorem createAdmin_then_login hash compare i ud sess st :
  getAllUsers st = [] -> i <> "" ->
  ins_username ud <> "" -> ins_password ud <> "" ->
  compare (ins_password ud) (hash (ins_password ud)) = true ->
  login compare (Some (ins_username ud, ins_password ud)) sess (snd (createAdmin hash i (Some ud) st)) =
    (LoginOk "Login successful" i (ins_username ud), Some i) /\
  requireAuth (Some i) (snd (createAdmin hash i (Some ud) st)) =
    Next (mkUser i (ins_username ud) (hash (ins_password ud))).
Proof.
  intros He Hi Hu Hp Hc. rewrite (createAdmin_on_empty hash i ud st He). cbn [snd].
  split.
  - unfold login.
    assert (Hl : forall s, s <> "" -> (String.length s =? 0)%nat = false)
      by (intros [|c s] H; [congruence|reflexivity]).
    rewrite (Hl _ Hu), (Hl _ Hp). cbn [orb].
    unfold getUserByUsername, map_values. cbn [users map snd List.find username].
    rewrite String.eqb_refl. cbn [password]. rewrite Hc. reflexivity.
  - unfold requireAuth. cbn [JS.truthy default negb].
    destruct (String.eqb_spec i "") as [|_]; [congruence|]. cbn [negb].
    unfold getUser, Datatypes.id. cbn [users map_get]. rewrite String.eqb_refl. reflexivity.
Qed.
End AuthFacts.

Module MemWitnesses.
Import MemStorage MemStorageFacts MemScenario.

Lemma shop_store_keyed_witness :
  keyed id (shops mem1) /\
  keyed id (shops (snd (createShop "u1" stoneBeyers mem1))) /\
  keyed id (shops (snd (updateShop "u1" renameShop mem1))) /\
  keyed id (shops (snd (deleteShop "u1" mem1))).
Proof.
  assert (Hk : keyed id (shops mem1)) by (split; [apply NoDup_singleton|repeat constructor]).
  split; [exact Hk|]. exact (shop_store_keyed "u1" stoneBeyers renameShop mem1 Hk).
Defined.

Lemma createShop_then_getShopById_witness :
  getShopById "u2" mem1 = None /\
  getShopById "u2" (snd (createShop "u2" stoneBeyers mem1)) = Some (fst (createShop "u2" stoneBeyers mem1)) /\
  id (fst (createShop "u2" stoneBeyers mem1)) = "u2" /\
  name (fst (createShop "u2" stoneBeyers mem1)) = "Stone Beyers" /\
  getShops (snd (createShop "u2" stoneBeyers mem1)) = (getShops mem1 ++ [fst (createShop "u2" stoneBeyers mem1)])%list /\
  (forall j, j <> "u2" -> getShopById j (snd (createShop "u2" stoneBeyers mem1)) = getShopById j mem1).
Proof.
  assert (Hn : getShopById "u2" mem1 = None) by reflexivity.
  split; [exact Hn|]. exact (createShop_then_getShopById "u2" stoneBeyers mem1 Hn).
Defined.

Lemma updateShop_result_witness :
  keyed id (shops mem1) /\
  exists s', fst (updateShop "u1" renameShop mem1) = Some s' /\ id s' = "u1" /\
    getShopById "u1" (snd (updateShop "u1" renameShop mem1)) = Some s' /\
    (forall j, j <> "u1" -> getShopById j (snd (updateShop "u1" renameShop mem1)) = getShopById j mem1) /\
    getShops (snd (updateShop "u1" renameShop mem1)) =
      map (fun x => if String.eqb "u1" (id x) then s' else x) (getShops mem1).
Proof.
  assert (Hk : keyed id (shops mem1)) by (split; [apply NoDup_singleton|repeat constructor]).
  split; [exact Hk|]. exact (updateShop_result "u1" renameShop mem1 Hk).
Defined.

Lemma deleteShop_result_witness :
  keyed id (shops mem1) /\
  fst (deleteShop "u1" mem1) = bool_decide (getShopById "u1" mem1 <> None) /\
  getShopById "u1" (snd (deleteShop "u1" mem1)) = None /\
  (forall j, j <> "u1" -> getShopById j (snd (deleteShop "u1" mem1)) = getShopById j mem1) /\
  getShops (snd (deleteShop "u1" mem1)) = List.filter (fun x => negb (String.eqb "u1" (id x))) (getShops mem1).
Proof.
  assert (Hk : keyed id (shops mem1)) by (split; [apply NoDup_singleton|repeat constructor]).
  split; [exact Hk|]. exact (deleteShop_result "u1" mem1 Hk).
Defined.

Lemma createUser_then_getUserByUsername_witness :
  getUser "a2" mem1 = None /\
  (forall u, In u (getAllUsers mem1) -> username u <> "editor") /\
  getUserByUsername "editor" (snd (createUser "a2" (mkInsertUser "editor" "h1") mem1)) =
    Some (fst (createUser "a2" (mkInsertUser "editor" "h1") mem1)) /\
  getUser "a2" (snd (createUser "a2" (mkInsertUser "editor" "h1") mem1)) =
    Some (fst (createUser "a2" (mkInsertUser "editor" "h1") mem1)) /\
  (forall un, un <> "editor" ->
     getUserByUsername un (snd (createUser "a2" (mkInsertUser "editor" "h1") mem1)) = getUserByUsername un mem1).
Proof.
  assert (Hn : getUser "a2" mem1 = None) by reflexivity.
  assert (Hu : forall u, In u (getAllUsers mem1) -> username u <> "editor")
    by (intros u [<-|[]]; discriminate).
  split; [exact Hn|]. split; [exact Hu|].
  exact (createUser_then_getUserByUsername "a2" (mkInsertUser "editor" "h1") mem1 Hn Hu).
Defined.
End MemWitnesses.

Module AuthWitnesses.
Import MemStorage MemStorageFacts MemScenario AuthRoutes AuthFacts.

Lemma login_session_witness :
  keyed user_id (users mem1) /\
  match login bcompare (Some ("admin", "secret")) None mem1 with
  | (LoginOk _ uid un, s') =>
      s' = Some uid /\
      (uid <> "" -> exists u, requireAuth s' mem1 = Next u /\ user_id u = uid /\ username u = un)
  | (_, s') => s' = None
  end.
Proof.
  assert (Hk : keyed user_id (users mem1)) by (split; [apply NoDup_singleton|repeat constructor]).
  split; [exact Hk|]. exact (login_session bcompare (Some ("admin", "secret")) None mem1 Hk).
Defined.

Lemma createAdmin_then_login_witness :
  getAllUsers (mkMem [] []) = [] /\
  login bcompare (Some ("root", "pw")) None (snd (createAdmin bhash "a0" (Some (mkInsertUser "root" "pw")) (mkMem [] []))) =
    (LoginOk "Login successful" "a0" "root", Some "a0") /\
  requireAuth (Some "a0") (snd (createAdmin bhash "a0" (Some (mkInsertUser "root" "pw")) (mkMem [] []))) =
    Next (mkUser "a0" "root" (bhash "pw")).
Proof.
  split; [reflexivity|].
  apply (createAdmin_then_login bhash bcompare "a0" (mkInsertUser "root" "pw") None (mkMem [] []));
    cbn; [reflexivity|discriminate|discriminate|discriminate|reflexivity].
Defined.
End AuthWitnesses.
